(** * PDFKit: object store, serializer and line wrapper

    A shallow embedding of [src/js/pdfkit.es5.js] (the ES2015 build that
    starts at the second copy of the library in that file) and the
    properties its specification states about it.

    Conventions.
    - A JavaScript string written to the output with the 'binary' encoding,
      and a Node [Buffer], are both a [string] of 8-bit characters: one
      character is one byte.
    - Text handed to the line wrapper is a list of UTF-16 code units.
    - Numbers that are byte counts, ids and indices are integers.  Numbers
      that are measurements are rationals, extended with NaN and the two
      infinities where the code can see them: arithmetic is exact, the
      rounding of IEEE doubles is not modelled.
    - A [throw] ends the synchronous unit of work it happens in; what was
      mutated before it stays mutated. *)

From Stdlib Require Import ZArith QArith Qround List String Ascii Lia Lqa.
From stdpp Require Import base list strings pretty gmap.

Set Default Proof Using "Type".
Set Warnings "-register-all".
Local Open Scope Z_scope.

(** ** JavaScript helpers *)

Module JS.

(** [s.length] of a byte string. *)
Definition strlen (s : string) : Z := Z.of_nat (String.length s).

(** [s.slice(-n)] for a positive [n]: the last [n] characters, or all of
    [s] when it is shorter. *)
Definition slice_last (n : nat) (s : string) : string :=
  String.substring (String.length s - n) n s.

(** [s.slice(0, -1)] on a Buffer: everything but the last byte. *)
Definition drop_last (s : string) : string :=
  String.substring 0 (String.length s - 1) s.

(** [Array.prototype.join]. *)
Definition join (sep : string) (l : list string) : string :=
  String.concat sep l.

(** [Buffer.concat]. *)
Definition concat (l : list string) : string := String.concat "" l.

(** Clamp a relative index the way [slice] does. *)
Definition rel_index (len i : Z) : Z :=
  if i <? 0 then Z.max (len + i) 0 else Z.min i len.

(** [a.slice(from, to)] on a list of code units. *)
Definition slice {A} (from to : Z) (l : list A) : list A :=
  let len := Z.of_nat (length l) in
  let f := rel_index len from in
  let t := rel_index len to in
  take (Z.to_nat (t - f)) (drop (Z.to_nat f) l).

(** [a.slice(from)]. *)
Definition slice_from {A} (from : Z) (l : list A) : list A :=
  drop (Z.to_nat (rel_index (Z.of_nat (length l)) from)) l.

End JS.

(** ** Numbers *)

Module Num.

(** A JavaScript number: NaN, an infinity, or the exact value of a finite
    double.  Arithmetic on the finite ones is exact here, where the code
    rounds to the nearest double: the two agree whenever the exact result
    is a double itself, as it is for whole numbers below 2^53. *)
Inductive number :=
| NaN
| Infinity (negative : bool)
| Finite (q : Q).

Definition Qlt_bool (a b : Q) : bool := negb (Qle_bool b a).

(** [a < b] on numbers: false as soon as one side is NaN. *)
Definition lt (a b : number) : bool :=
  match a, b with
  | NaN, _ | _, NaN => false
  | Infinity na, Infinity nb => na && negb nb
  | Infinity na, Finite _ => na
  | Finite _, Infinity nb => negb nb
  | Finite x, Finite y => Qlt_bool x y
  end.

Definition gt (a b : number) : bool := lt b a.

(** [Math.round]: the nearest integer, ties towards +Infinity. *)
Definition Math_round (n : number) : number :=
  match n with
  | Finite q => Finite (inject_Z (Qfloor (q + (1 # 2))))
  | _ => n
  end.

(** [n * k] and [n / k] for a positive finite constant [k]. *)
Definition mul_pos (n : number) (k : Q) : number :=
  match n with Finite q => Finite (q * k) | _ => n end.

Definition div_pos (n : number) (k : Q) : number :=
  match n with Finite q => Finite (q / k) | _ => n end.

Definition e21 : Q := inject_Z (10 ^ 21).
Definition e6 : Q := inject_Z (10 ^ 6).

End Num.

(** ** PDFObject *)

Module PDFObject.
Import Num.

(** The [Error]s the modelled code throws. *)
Inductive error :=
| UnsupportedNumber (n : number)
    (* new Error(`unsupported number: ${n}`) *)
| Error (message : string)
    (* new Error(message) *)
| TypeError.

(** What a call gives back: a value, or the [Error] it threw. *)
Inductive result (A : Type) :=
| Ok (a : A)
| Throw (e : error).
Arguments Ok {A} a.
Arguments Throw {A} e.

(** [PDFObject.number].  The two comparisons are exact in the code as they
    are here.  [Math.round(n * 1e6) / 1e6] is taken exactly: it is what the
    code returns when [n * 1e6] is a whole number below 2^53 in magnitude,
    and for other numbers the doubles of the code can differ from it. *)
Definition number (n : number) : result Num.number :=
  if gt n (Finite (- e21)) && lt n (Finite e21) then
    Ok (div_pos (Math_round (mul_pos n e6)) e6)
  else
    Throw (UnsupportedNumber n).

(** The values a dictionary holds.  A [Date] is not among them. *)
Inductive PDFValue :=
| VName (s : string)                          (* a string primitive *)
| VLiteral (s : string)                       (* a String object *)
| VBuffer (b : string)                        (* a Buffer *)
| VRef (id : nat)                             (* a PDFReference, gen 0 *)
| VArray (items : list PDFValue)
| VDict (entries : list (string * PDFValue))  (* keys in insertion order *)
| VNumber (q : Q)                             (* a finite number *)
| VNaN                                        (* the number NaN *)
| VInfinity (negative : bool)                 (* Infinity and -Infinity *)
| VOther (shown : string).       (* undefined, null, a boolean: [`${object}`] *)

Definition Dict := list (string * PDFValue).

(** [d[k]]. *)
Fixpoint dict_get (k : string) (d : Dict) : option PDFValue :=
  match d with
  | [] => None
  | (k', v) :: d' => if String.eqb k k' then Some v else dict_get k d'
  end.

(** An array index: a decimal numeral without a leading zero, below
    2^32 - 1.  [for (key in d)] visits the keys that are array indices
    first, in ascending order, and then the other keys in the order they
    were added; a dictionary lists its entries in that order. *)
Fixpoint index_digits (acc : Z) (l : list ascii) : option Z :=
  match l with
  | [] => Some acc
  | c :: l' =>
      let n := Z.of_nat (nat_of_ascii c) in
      if (48 <=? n) && (n <=? 57) then index_digits (acc * 10 + (n - 48)) l'
      else None
  end.

Definition array_index (k : string) : option Z :=
  match list_ascii_of_string k with
  | [] => None
  | c :: l =>
      if Ascii.eqb c "0" && negb (match l with [] => true | _ => false end)
      then None
      else match index_digits 0 (c :: l) with
           | Some n => if n <? 2 ^ 32 - 1 then Some n else None
           | None => None
           end
  end.

(** [d[k] = v] for a key that is no array index: an existing key keeps its
    place, a new one goes last. *)
Fixpoint dict_set_last (k : string) (v : PDFValue) (d : Dict) : Dict :=
  match d with
  | [] => [(k, v)]
  | (k', v') :: d' =>
      if String.eqb k k' then (k, v) :: d' else (k', v') :: dict_set_last k v d'
  end.

(** [d[k] = v] for the array index [n]: an existing key keeps its place,
    a new one goes before the first greater index, or before the keys
    that are no indices. *)
Fixpoint dict_set_index (n : Z) (k : string) (v : PDFValue) (d : Dict) : Dict :=
  match d with
  | [] => [(k, v)]
  | (k', v') :: d' =>
      if String.eqb k k' then (k, v) :: d'
      else match array_index k' with
           | Some n' => if n <? n' then (k, v) :: d
                        else (k', v') :: dict_set_index n k v d'
           | None => (k, v) :: d
           end
  end.

(** [d[k] = v]. *)
Definition dict_set (k : string) (v : PDFValue) (d : Dict) : Dict :=
  match array_index k with
  | Some n => dict_set_index n k v d
  | None => dict_set_last k v d
  end.

(** How [`${n}`] prints a number that [number] has rounded: the integer
    part and, unless it is zero, a point and the millionths without
    their trailing zeros. *)
Fixpoint strip_zeros (fuel : nat) (frac : Z) (digits : nat) : string :=
  match fuel with
  | O => ""
  | S fuel' =>
      if (frac =? 0) then ""
      else if (frac mod 10 =? 0) then strip_zeros fuel' (frac / 10) (digits - 1)
      else JS.slice_last digits
             (string_of_list_ascii (replicate digits "0"%char) +:+ pretty frac)
  end.

Definition show_millionths (k : Z) : string :=
  let a := Z.abs k in
  let fr := strip_zeros 7 (a mod 10 ^ 6) 6 in
  (if k <? 0 then "-" else "") +:+ pretty (a / 10 ^ 6) +:+
  (if String.eqb fr "" then "" else "." +:+ fr).

Definition show_number (n : Num.number) : string :=
  match n with
  | Finite q => show_millionths (Qfloor (q * e6 + (1 # 2)))
  | NaN => "NaN"
  | Infinity true => "-Infinity"
  | Infinity false => "Infinity"
  end.

(** [swapBytes]: little endian UTF-16 to big endian. *)
Fixpoint swap_pairs (l : list ascii) : list ascii :=
  match l with
  | a :: b :: l' => b :: a :: swap_pairs l'
  | _ => l
  end.

Definition swapBytes (buff : string) : result string :=
  if Nat.odd (String.length buff) then Throw (Error "Buffer length must be even")
  else Ok (string_of_list_ascii (swap_pairs (list_ascii_of_string buff))).

(** [new Buffer(s, 'utf16le')] for code units below 256. *)
Fixpoint utf16le (s : string) : string :=
  match s with
  | EmptyString => EmptyString
  | String c s' => String c (String "000"%char (utf16le s'))
  end.

Definition bom_le : string := String "255"%char (String "254"%char EmptyString).

Definition isUnicode (s : string) : bool :=
  existsb (fun c => (127 <? nat_of_ascii c)%nat) (list_ascii_of_string s).

(** [escapable[c]] for the characters [escapableRe] matches. *)
Definition escape_char (c : ascii) : string :=
  if Ascii.eqb c "010" then "\n"
  else if Ascii.eqb c "013" then "\r"
  else if Ascii.eqb c "009" then "\t"
  else if Ascii.eqb c "008" then "\b"
  else if Ascii.eqb c "012" then "\f"
  else if Ascii.eqb c "\" then "\\"
  else if Ascii.eqb c "(" then "\("
  else if Ascii.eqb c ")" then "\)"
  else String c EmptyString.

Fixpoint escape (s : string) : string :=
  match s with
  | EmptyString => EmptyString
  | String c s' => escape_char c +:+ escape s'
  end.

Definition hex_digit (n : nat) : ascii :=
  nth n (list_ascii_of_string "0123456789abcdef") "0"%char.

Fixpoint to_hex (b : string) : string :=
  match b with
  | EmptyString => EmptyString
  | String c b' =>
      String (hex_digit (nat_of_ascii c / 16))
        (String (hex_digit (nat_of_ascii c mod 16)) (to_hex b'))
  end.

(** [PDFReference.prototype.toString]; [gen] is 0 in every reference. *)
Definition ref_toString (id : nat) : string := pretty id +:+ " 0 R".

(** Sequencing of calls that may throw. *)
Definition bind {A B} (r : result A) (k : A → result B) : result B :=
  match r with Ok a => k a | Throw e => Throw e end.

Fixpoint map_result {A B} (f : A → result B) (l : list A) : result (list B) :=
  match l with
  | [] => Ok []
  | a :: l' => bind (f a) (fun b => bind (map_result f l') (fun bs => Ok (b :: bs)))
  end.

(** [PDFObject.convert]. *)
Fixpoint convert (object : PDFValue) : result string :=
  match object with
  | VName s => Ok ("/" +:+ s)
  | VLiteral s =>
      bind (if isUnicode s then swapBytes (bom_le +:+ utf16le s) else Ok s)
           (fun string => Ok ("(" +:+ escape string +:+ ")"))
  | VBuffer b => Ok ("<" +:+ to_hex b +:+ ">")
  | VRef id => Ok (ref_toString id)
  | VArray items =>
      bind (map_result convert items)
           (fun items => Ok ("[" +:+ JS.join " " items +:+ "]"))
  | VDict entries =>
      bind ((fix entries_out (l : Dict) : result (list string) :=
               match l with
               | [] => Ok []
               | (key, val) :: l' =>
                   bind (convert val) (fun v =>
                   bind (entries_out l') (fun out =>
                   Ok (("/" +:+ key +:+ " " +:+ v) :: out)))
               end) entries)
           (fun out => Ok (JS.join (String "010"%char EmptyString)
                             (["<<"] ++ out ++ [">>"])))
  | VNumber q =>
      bind (number (Finite q)) (fun n => Ok (show_number n))
  | VNaN =>
      bind (number NaN) (fun n => Ok (show_number n))
  | VInfinity negative =>
      bind (number (Infinity negative)) (fun n => Ok (show_number n))
  | VOther shown => Ok shown
  end.

(** [`${v}`]: how a template string prints a value.  In an array [null]
    and [undefined] print as nothing. *)
Fixpoint to_string (v : PDFValue) : string :=
  match v with
  | VName s | VLiteral s | VBuffer s | VOther s => s
  | VRef id => ref_toString id
  | VArray items =>
      JS.join ","
        (map (fun item =>
                match item with
                | VOther s =>
                    if String.eqb s "null" || String.eqb s "undefined" then ""
                    else s
                | _ => to_string item
                end) items)
  | VDict _ => "[object Object]"
  | VNumber q => show_number (Finite q)
  | VNaN => show_number NaN
  | VInfinity negative => show_number (Infinity negative)
  end.

(** Whether [if (v)] takes the branch; [None] is [undefined]. *)
Definition truthy (v : option PDFValue) : bool :=
  match v with
  | None => false
  | Some (VName s) => negb (String.eqb s "")
  | Some (VNumber q) => negb (Qeq_bool q 0)
  | Some VNaN => false
  | Some (VOther s) => String.eqb s "true"
  | Some _ => true
  end.

(** *** ToNumber *)

(** White space and line terminators among the code units below 256. *)
Definition is_str_white (c : ascii) : bool :=
  let n := nat_of_ascii c in
  ((9 <=? n) && (n <=? 13) || (n =? 32) || (n =? 160))%nat.

Fixpoint drop_white (l : list ascii) : list ascii :=
  match l with
  | [] => []
  | c :: l' => if is_str_white c then drop_white l' else l
  end.

Definition trim_white (l : list ascii) : list ascii :=
  rev (drop_white (rev (drop_white l))).

(** The value of a digit in a radix up to 16. *)
Definition digit_in (radix : Z) (c : ascii) : option Z :=
  let n := Z.of_nat (nat_of_ascii c) in
  let v := if (48 <=? n) && (n <=? 57) then n - 48
           else if (97 <=? n) && (n <=? 102) then n - 87
           else if (65 <=? n) && (n <=? 70) then n - 55
           else 16 in
  if v <? radix then Some v else None.

(** One digit or more, all in the radix. *)
Fixpoint read_radix (radix acc : Z) (l : list ascii) : option Z :=
  match l with
  | [] => Some acc
  | c :: l' =>
      match digit_in radix c with
      | Some v => read_radix radix (acc * radix + v) l'
      | None => None
      end
  end.

Definition read_digits_in (radix : Z) (l : list ascii) : option Z :=
  match l with
  | [] => None
  | _ => read_radix radix 0 l
  end.

(** The decimal digits a list begins with, and the rest. *)
Fixpoint span_digits (l : list ascii) : list ascii * list ascii :=
  match l with
  | [] => ([], [])
  | c :: l' =>
      match digit_in 10 c with
      | Some _ => let '(ds, rest) := span_digits l' in (c :: ds, rest)
      | None => ([], l)
      end
  end.

Definition is_sign (c : ascii) : bool := Ascii.eqb c "+" || Ascii.eqb c "-".
Definition is_exponent (c : ascii) : bool := Ascii.eqb c "e" || Ascii.eqb c "E".

(** [mantissa * 10 ^ exponent]. *)
Definition scaled (mantissa exponent : Z) : Q :=
  if 0 <=? exponent then inject_Z (mantissa * 10 ^ exponent)
  else Qmake mantissa (Z.to_pos (10 ^ (- exponent))).

(** StrUnsignedDecimalLiteral, [Infinity] apart. *)
Definition unsigned_decimal (l : list ascii) : option Q :=
  let '(int, rest) := span_digits l in
  let '(frac, rest) :=
    match rest with
    | c :: rest' =>
        if Ascii.eqb c "." then span_digits rest' else ([], rest)
    | [] => ([], [])
    end in
  match int ++ frac with
  | [] => None
  | digits =>
      let mantissa := default 0 (read_radix 10 0 digits) in
      let places := Z.of_nat (length frac) in
      match rest with
      | [] => Some (scaled mantissa (- places))
      | e :: rest' =>
          if is_exponent e then
            let '(negative, ds) :=
              match rest' with
              | c :: ds' => if is_sign c then (Ascii.eqb c "-", ds') else (false, rest')
              | [] => (false, [])
              end in
            match read_digits_in 10 ds with
            | Some x => Some (scaled mantissa ((if negative then - x else x) - places))
            | None => None
            end
          else None
      end
  end.

Definition infinity_chars : list ascii := list_ascii_of_string "Infinity".

(** StringToNumber on a string of code units below 256; arithmetic is
    exact. *)
Definition string_to_number (s : string) : Num.number :=
  let l := trim_white (list_ascii_of_string s) in
  match l with
  | [] => Finite 0
  | c :: l' =>
      let prefixed (radix : Z) (ds : list ascii) :=
        match read_digits_in radix ds with
        | Some v => Finite (inject_Z v)
        | None => NaN
        end in
      let decimal :=
        let '(negative, body) :=
          if is_sign c then (Ascii.eqb c "-", l') else (false, l) in
        if bool_decide (body = infinity_chars) then Infinity negative
        else match unsigned_decimal body with
             | Some q => Finite (if negative then - q else q)
             | None => NaN
             end in
      match l' with
      | x :: ds =>
          if Ascii.eqb c "0" && (Ascii.eqb x "x" || Ascii.eqb x "X")
          then prefixed 16 ds
          else if Ascii.eqb c "0" && (Ascii.eqb x "o" || Ascii.eqb x "O")
          then prefixed 8 ds
          else if Ascii.eqb c "0" && (Ascii.eqb x "b" || Ascii.eqb x "B")
          then prefixed 2 ds
          else decimal
      | [] => decimal
      end
  end.

(** ToNumber of a property; [None] is a property that is not there. *)
Definition to_number (v : option PDFValue) : Num.number :=
  match v with
  | None => NaN
  | Some (VNumber q) => Finite q
  | Some VNaN => NaN
  | Some (VInfinity negative) => Infinity negative
  | Some (VOther s) =>
      if String.eqb s "true" then Finite 1
      else if String.eqb s "false" || String.eqb s "null" then Finite 0
      else NaN
  | Some (VDict _) => NaN
  | Some v => string_to_number (to_string v)
  end.

(** A number as a value of a dictionary. *)
Definition of_number (n : Num.number) : PDFValue :=
  match n with
  | Finite q => VNumber q
  | NaN => VNaN
  | Infinity negative => VInfinity negative
  end.

End PDFObject.


(** ** PDFReference, PDFPage and PDFDocument: the object store *)

Module Store.
Import PDFObject.

Definition nl : string := String "010"%char EmptyString.

(** What [write] and [_write] accept: a string, to which a newline is
    added, or a Buffer, taken as it is. *)
Inductive Chunk :=
| Str (s : string)
| Buf (b : string).

(** [new Buffer(chunk + '\n', 'binary')] unless [chunk] is a Buffer. *)
Definition to_buffer (c : Chunk) : string :=
  match c with
  | Str s => s +:+ nl
  | Buf b => b
  end.

(** [if (chunk)]: the empty string is the one falsy chunk. *)
Definition chunk_truthy (c : Chunk) : bool :=
  match c with
  | Str s => negb (String.eqb s "")
  | Buf _ => true
  end.

(** An element of [_offsets], or the [offset] property of a reference. *)
Inductive slot :=
| Null
| Undefined
| Offset (z : Z).

Record PDFReference := mkRef {
  id : nat;
  gen : nat;
  data : Dict;
  compress : bool;
  uncompressedLength : Z;
  buffer : list string;
  offset : slot;
  own_finalize : bool   (* the Pages object, whose [finalize] is replaced *)
}.

Definition set_data (f : Dict → Dict) (r : PDFReference) : PDFReference :=
  mkRef (id r) (gen r) (f (data r)) (compress r) (uncompressedLength r)
        (buffer r) (offset r) (own_finalize r).
Definition set_uncompressedLength (z : Z) (r : PDFReference) : PDFReference :=
  mkRef (id r) (gen r) (data r) (compress r) z
        (buffer r) (offset r) (own_finalize r).
Definition set_buffer (b : list string) (r : PDFReference) : PDFReference :=
  mkRef (id r) (gen r) (data r) (compress r) (uncompressedLength r)
        b (offset r) (own_finalize r).
Definition set_offset (o : slot) (r : PDFReference) : PDFReference :=
  mkRef (id r) (gen r) (data r) (compress r) (uncompressedLength r)
        (buffer r) o (own_finalize r).
Definition set_own_finalize (b : bool) (r : PDFReference) : PDFReference :=
  mkRef (id r) (gen r) (data r) (compress r) (uncompressedLength r)
        (buffer r) (offset r) b.

(** A page, as the three references it owns. *)
Record PDFPage := mkPage {
  content : nat;
  resources : nat;
  dictionary : nat
}.

(** A history the code does not keep, written down for the statements
    about the order of things: each call of [_refEnd], with the id and
    what [_offsets] held for it before, and each call of [_finalize],
    with where it was made and the values of [_waiting], [_ended] and
    [_offsets] it found. *)
Inductive site := FromEnd | FromRefEnd.

Inductive mark :=
| RefEnd (id : nat) (before : option slot)
| Finalize (from : site) (waiting : Z) (ended : bool) (offsets : list slot).

Record PDFDocument := mkDoc {
  compress_option : bool;          (* this.compress *)
  bufferPages : bool;              (* this.options.bufferPages *)
  _pageBuffer : list PDFPage;
  _pageBufferStart : Z;
  page : option PDFPage;
  _offsets : list slot;
  _waiting : Z;
  _ended : bool;
  _offset : Z;
  _root : nat;
  _info : option nat;
  heap : gmap nat PDFReference;    (* the references [ref] made, by id *)
  timers : list nat;               (* references with a setTimeout(…, 0) pending *)
  pushed : list (option string);   (* what [push] was given; [None] is null *)
  log : list mark                  (* ghost: the history of the store *)
}.

Definition with_pages (pb : list PDFPage) (st : Z) (pg : option PDFPage)
    (d : PDFDocument) : PDFDocument :=
  mkDoc (compress_option d) (bufferPages d) pb st pg (_offsets d)
        (_waiting d) (_ended d) (_offset d) (_root d) (_info d) (heap d)
        (timers d) (pushed d) (log d).
Definition with_store (offs : list slot) (w : Z) (d : PDFDocument) : PDFDocument :=
  mkDoc (compress_option d) (bufferPages d) (_pageBuffer d)
        (_pageBufferStart d) (page d) offs w (_ended d) (_offset d) (_root d)
        (_info d) (heap d) (timers d) (pushed d) (log d).
Definition with_ended (e : bool) (d : PDFDocument) : PDFDocument :=
  mkDoc (compress_option d) (bufferPages d) (_pageBuffer d)
        (_pageBufferStart d) (page d) (_offsets d) (_waiting d) e (_offset d)
        (_root d) (_info d) (heap d) (timers d) (pushed d) (log d).
Definition with_output (o : Z) (p : list (option string)) (d : PDFDocument)
    : PDFDocument :=
  mkDoc (compress_option d) (bufferPages d) (_pageBuffer d)
        (_pageBufferStart d) (page d) (_offsets d) (_waiting d) (_ended d) o
        (_root d) (_info d) (heap d) (timers d) p (log d).
Definition with_info (i : option nat) (d : PDFDocument) : PDFDocument :=
  mkDoc (compress_option d) (bufferPages d) (_pageBuffer d)
        (_pageBufferStart d) (page d) (_offsets d) (_waiting d) (_ended d)
        (_offset d) (_root d) i (heap d) (timers d) (pushed d) (log d).
Definition with_heap (h : gmap nat PDFReference) (d : PDFDocument) : PDFDocument :=
  mkDoc (compress_option d) (bufferPages d) (_pageBuffer d)
        (_pageBufferStart d) (page d) (_offsets d) (_waiting d) (_ended d)
        (_offset d) (_root d) (_info d) h (timers d) (pushed d) (log d).
Definition with_log (l : list mark) (d : PDFDocument) : PDFDocument :=
  mkDoc (compress_option d) (bufferPages d) (_pageBuffer d)
        (_pageBufferStart d) (page d) (_offsets d) (_waiting d) (_ended d)
        (_offset d) (_root d) (_info d) (heap d) (timers d) (pushed d) l.
Definition with_root (r : nat) (d : PDFDocument) : PDFDocument :=
  mkDoc (compress_option d) (bufferPages d) (_pageBuffer d)
        (_pageBufferStart d) (page d) (_offsets d) (_waiting d) (_ended d)
        (_offset d) r (_info d) (heap d) (timers d) (pushed d) (log d).
Definition with_timers (t : list nat) (d : PDFDocument) : PDFDocument :=
  mkDoc (compress_option d) (bufferPages d) (_pageBuffer d)
        (_pageBufferStart d) (page d) (_offsets d) (_waiting d) (_ended d)
        (_offset d) (_root d) (_info d) (heap d) t (pushed d) (log d).

(** The reference with a given id, and its replacement after a mutation. *)
Definition deref (i : nat) (d : PDFDocument) : option PDFReference :=
  heap d !! i.

Definition update_ref (r : PDFReference) (d : PDFDocument) : PDFDocument :=
  with_heap (<[id r := r]> (heap d)) d.

(** [a[i] = v] on an array: past the end the array grows, the elements in
    between being holes. *)
Definition array_set (i : nat) (v : slot) (a : list slot) : list slot :=
  if (i <? length a)%nat then <[i := v]> a
  else a ++ replicate (i - length a) Undefined ++ [v].

(** An action on the document: the state it leaves and, when it threw,
    the error. *)
Definition action := PDFDocument → PDFDocument * option error.

Definition pure (f : PDFDocument → PDFDocument) : action :=
  fun d => (f d, None).
Definition throw (e : error) : action := fun d => (d, Some e).
Definition seq (a b : action) : action :=
  fun d => match a d with
           | (d', None) => b d'
           | (d', Some e) => (d', Some e)
           end.
Definition skip : action := pure (fun d => d).
Fixpoint seq_all (l : list action) : action :=
  match l with
  | [] => skip
  | a :: l' => seq a (seq_all l')
  end.


Definition show_slot (o : slot) : string :=
  match o with
  | Null => "null"
  | Undefined => "undefined"
  | Offset z => pretty z
  end.

(** [v == null]. *)
Definition is_nullish (v : option PDFValue) : bool :=
  match v with
  | None => true
  | Some (VOther s) => String.eqb s "undefined" || String.eqb s "null"
  | Some _ => false
  end.

(** [v + n] for a number [n]: a sum when [v] is a number or a boolean,
    the concatenation of the two printed otherwise. *)
Definition js_plus (v : PDFValue) (n : Z) : PDFValue :=
  match v with
  | VNumber q => VNumber (q + inject_Z n)
  | VNaN => VNaN
  | VInfinity negative => VInfinity negative
  | VOther s =>
      if String.eqb s "true" then VNumber (inject_Z (1 + n))
      else if String.eqb s "false" || String.eqb s "null"
           then VNumber (inject_Z n)
      else VNaN
  | _ => VName (to_string v +:+ pretty n)
  end.

Section Operations.

(** [zlib.deflateSync], the compression collaborator. *)
Variable deflateSync : string → string.

(** [PDFDocument.prototype._write]. *)
Definition _write (data : Chunk) (d : PDFDocument) : PDFDocument :=
  let data := to_buffer data in
  with_output (_offset d + JS.strlen data) (pushed d ++ [Some data]) d.

(** [new PDFReference(document, id, data)]. *)
Definition new_PDFReference (d : PDFDocument) (id : nat)
    (data : option Dict) : PDFReference :=
  let data := default [] data in
  mkRef id 0 data
        (compress_option d && negb (truthy (dict_get "Filter" data)))
        0 [] Undefined false.

(** [PDFDocument.prototype.ref]: the new reference's id and the document
    that holds it. *)
Definition ref (data : option Dict) (d : PDFDocument) : nat * PDFDocument :=
  let r := new_PDFReference d (length (_offsets d) + 1) data in
  (id r,
   update_ref r (with_store (_offsets d ++ [Null]) (_waiting d + 1) d)).

(** [PDFReference.prototype.write]. *)
Definition write (chunk : Chunk) (r : PDFReference) : PDFReference :=
  let chunk := to_buffer chunk in
  let r := set_uncompressedLength (uncompressedLength r + JS.strlen chunk) r in
  let r := if is_nullish (dict_get "Length" (data r))
           then set_data (dict_set "Length" (VNumber 0)) r else r in
  let r := set_buffer (buffer r ++ [chunk]) r in
  let r := set_data
             (fun dt => dict_set "Length"
                (js_plus (default (VNumber 0) (dict_get "Length" dt))
                         (JS.strlen chunk)) dt) r in
  if compress r then set_data (dict_set "Filter" (VName "FlateDecode")) r
  else r.

(** One line of the cross-reference table, as the loop of [_finalize]
    builds it. *)
Definition xref_entry (offset : slot) : string :=
  JS.slice_last 10 ("0000000000" +:+ show_slot offset) +:+ " 00000 n ".

Definition trailer (d : PDFDocument) : PDFValue :=
  VDict [("Size", VNumber (inject_Z (Z.of_nat (length (_offsets d)) + 1)));
         ("Root", VRef (_root d));
         ("Info", match _info d with
                  | Some i => VRef i
                  | None => VOther "undefined"
                  end)].

(** [PDFDocument.prototype._finalize]. *)
Definition _finalize (from : site) : action := fun d =>
  let d := with_log (log d ++ [Finalize from (_waiting d) (_ended d)
                                        (_offsets d)]) d in
  let xRefOffset := _offset d in
  let d := _write (Str "xref") d in
  let d := _write (Str ("0 " +:+ pretty (Z.of_nat (length (_offsets d)) + 1))) d in
  let d := _write (Str "0000000000 65535 f ") d in
  let d := fold_left (fun d offset => _write (Str (xref_entry offset)) d)
                     (_offsets d) d in
  let d := _write (Str "trailer") d in
  match convert (trailer d) with
  | Throw e => (d, Some e)
  | Ok t =>
      let d := _write (Str t) d in
      let d := _write (Str "startxref") d in
      let d := _write (Str (pretty xRefOffset)) d in
      let d := _write (Str "%%EOF") d in
      (with_output (_offset d) (pushed d ++ [None]) d, None)
  end.

(** [PDFDocument.prototype._refEnd]. *)
Definition _refEnd (r : PDFReference) : action := fun d =>
  let before := match id r with
                | O => None
                | S k => _offsets d !! k
                end in
  let d := with_log (log d ++ [RefEnd (id r) before]) d in
  let d := with_store
             (match id r with
              | O => _offsets d
              | S k => array_set k (offset r) (_offsets d)
              end)
             (_waiting d - 1) d in
  if (_waiting d =? 0) && _ended d then
    seq (_finalize FromRefEnd) (pure (with_ended false)) d
  else (d, None).

Definition obj_header (r : PDFReference) : string :=
  pretty (id r) +:+ " " +:+ pretty (gen r) +:+ " obj".

(** The callback [PDFReference.prototype.finalize] hands to
    [setTimeout], for the reference with id [i]. *)
Definition finalize_task (i : nat) : action := fun d =>
  match deref i d with
  | None => (d, None)
  | Some r =>
      let r := set_offset (Offset (_offset d)) r in
      let d := update_ref r d in
      let d := _write (Str (obj_header r)) d in
      match convert (VDict (data r)) with
      | Throw e => (d, Some e)
      | Ok dict =>
          let d := _write (Str dict) d in
          let '(r, d) :=
            if (0 <? length (buffer r))%nat then
              let b := JS.concat (buffer r) in
              let '(b, r) :=
                if compress r then
                  let b := deflateSync b in
                  (b, set_data (dict_set "Length"
                                  (VNumber (inject_Z (JS.strlen b)))) r)
                else (b, r) in
              let d := _write (Str "stream") d in
              let d := _write (Buf b) d in
              let r := set_buffer [] r in
              let d := _write (Str (nl +:+ "endstream")) d in
              (r, d)
            else (r, d) in
          let d := update_ref r d in
          let d := _write (Str "endobj") d in
          _refEnd r d
      end
  end.

(** [Buffer.concat(this.data.Kids)]: a TypeError unless [Kids] is an
    array of Buffers. *)
Definition all_buffers (v : option PDFValue) : option (list string) :=
  match v with
  | Some (VArray items) =>
      mapM (M := option)
           (fun v => match v with VBuffer b => Some b | _ => None end) items
  | _ => None
  end.

Definition show_opt (v : option PDFValue) : string :=
  match v with
  | Some v => to_string v
  | None => "undefined"
  end.

(** The [finalize] the constructor gives the Pages object. *)
Definition Pages_finalize (r : PDFReference) : action := fun d =>
  let r := set_offset (Offset (_offset d)) r in
  let d := update_ref r d in
  let d := _write (Str (obj_header r)) d in
  let d := _write (Str "<<") d in
  let d := _write (Str "/Type /Pages") d in
  let d := _write (Str ("/Count " +:+ show_opt (dict_get "Count" (data r)))) d in
  match all_buffers (dict_get "Kids" (data r)) with
  | None => (d, Some TypeError)
  | Some kids =>
      let d := _write (Str ("/Kids [" +:+ JS.drop_last (JS.concat kids) +:+ "]")) d in
      let d := _write (Str ">>") d in
      let d := _write (Str "endobj") d in
      _refEnd r d
  end.

(** [reference.finalize()]. *)
Definition finalize (i : nat) : action := fun d =>
  match deref i d with
  | None => (d, None)
  | Some r =>
      if own_finalize r then Pages_finalize r d
      else (with_timers (timers d ++ [i]) d, None)
  end.

(** [reference.write(chunk)], on the reference with id [i]. *)
Definition ref_write (i : nat) (chunk : Chunk) : action := fun d =>
  match deref i d with
  | None => (d, None)
  | Some r => (update_ref (write chunk r) d, None)
  end.

(** [PDFReference.prototype.end]. *)
Definition ref_end (i : nat) (chunk : option Chunk) : action :=
  seq (match chunk with
       | Some c => if chunk_truthy c then ref_write i c else skip
       | None => skip
       end)
      (finalize i).

(** [PDFPage.prototype.end]. *)
Definition page_end (p : PDFPage) : action :=
  seq (ref_end (dictionary p) None)
      (seq (ref_end (resources p) None) (ref_end (content p) None)).

(** [PDFDocument.prototype.flushPages]. *)
Definition flushPages : action := fun d =>
  let pages := _pageBuffer d in
  let d := with_pages [] (_pageBufferStart d + Z.of_nat (length pages))
                      (page d) d in
  seq_all (map page_end pages) d.

(** What the other classes ask of the store. *)
Inductive call :=
| CRef (data : option Dict)                 (* document.ref(data) *)
| CSet (i : nat) (key : string) (v : PDFValue)   (* ref.data[key] = v *)
| CWrite (i : nat) (chunk : Chunk)          (* ref.write(chunk) *)
| CEnd (i : nat) (chunk : option Chunk).    (* ref.end(chunk) *)

Definition run_call (c : call) : action :=
  match c with
  | CRef data => pure (fun d => snd (ref data d))
  | CSet i key v =>
      pure (fun d => match deref i d with
                     | Some r => update_ref (set_data (dict_set key v) r) d
                     | None => d
                     end)
  | CWrite i chunk => ref_write i chunk
  | CEnd i chunk => ref_end i chunk
  end.


(** [this._root.data.Pages], when it is a reference of this document. *)
Definition Pages_of (d : PDFDocument) : option PDFReference :=
  match deref (_root d) d with
  | Some root =>
      match dict_get "Pages" (data root) with
      | Some (VRef p) => deref p d
      | _ => None
      end
  | None => None
  end.

(** [v++] on a dictionary entry: one more than the number [v] stands
    for. *)
Definition increment (v : option PDFValue) : PDFValue :=
  match to_number v with
  | Num.Finite q => VNumber (q + 1)
  | n => of_number n
  end.

(** [[m11, m12, m21, m22, dx, dy].map(v => number(v)).join(' ')]. *)
Definition transform_values (vs : list Q) : result string :=
  bind (map_result (fun v => number (Num.Finite v)) vs)
       (fun ns => Ok (JS.join " " (map show_number ns))).

(** [PDFDocument.prototype.addPage], for a page of the given size.  The
    cursor and the transformation matrix it resets are not part of the
    store. *)
Definition addPage (width height : Q) : action :=
  seq (fun d => if bufferPages d then (d, None) else flushPages d)
  (fun d =>
     let '(content, d) := ref None d in
     let '(resources, d) :=
       ref (Some [("ProcSet", VArray [VName "PDF"; VName "Text";
                                     VName "ImageB"; VName "ImageC";
                                     VName "ImageI"])]) d in
     let parent :=
       match deref (_root d) d with
       | Some root => default (VOther "undefined") (dict_get "Pages" (data root))
       | None => VOther "undefined"
       end in
     let '(dictionary, d) :=
       ref (Some [("Type", VName "Page");
                  ("Parent", parent);
                  ("MediaBox", VArray [VNumber 0; VNumber 0;
                                       VNumber width; VNumber height]);
                  ("Contents", VRef content);
                  ("Resources", VRef resources)]) d in
     let pg := mkPage content resources dictionary in
     let d := with_pages (_pageBuffer d ++ [pg]) (_pageBufferStart d)
                         (Some pg) d in
     match Pages_of d with
     | None => (d, Some TypeError)
     | Some pages =>
         match dict_get "Kids" (data pages) with
         | Some (VArray kids) =>
             let pages :=
               set_data (dict_set "Kids"
                 (VArray (kids ++ [VBuffer (ref_toString dictionary +:+ " ")])))
                 pages in
             let pages :=
               set_data (fun dt => dict_set "Count"
                                     (increment (dict_get "Count" dt)) dt)
                        pages in
             let d := update_ref pages d in
             match transform_values [1; 0; 0; -1; 0; height]%Q with
             | Throw e => (d, Some e)
             | Ok values => ref_write content (Str (values +:+ " cm")) d
             end
         | _ => (d, Some TypeError)
         end
     end).

(** [PDFDocument.prototype.bufferedPageRange]: [start] and [count]. *)
Definition bufferedPageRange (d : PDFDocument) : Z * Z :=
  (_pageBufferStart d, Z.of_nat (length (_pageBuffer d))).

(** [a[i]] for an integer [i]. *)
Definition array_get {A} (a : list A) (i : Z) : option A :=
  if i <? 0 then None else a !! Z.to_nat i.

(** [PDFDocument.prototype.switchToPage]. *)
Definition switchToPage (n : Z) (d : PDFDocument)
    : PDFDocument * result PDFPage :=
  match array_get (_pageBuffer d) (n - _pageBufferStart d) with
  | None =>
      (d, Throw (Error
         ("switchToPage(" +:+ pretty n +:+
          ") out of bounds, current buffer covers pages " +:+
          pretty (_pageBufferStart d) +:+ " to " +:+
          pretty (_pageBufferStart d + Z.of_nat (length (_pageBuffer d)) - 1))))
  | Some page =>
      (with_pages (_pageBuffer d) (_pageBufferStart d) (Some page) d, Ok page)
  end.

(** [PDFDocument.prototype.end].  [info] is [this.info]; [fonts] and
    [outline] are what [font.finalize()] and [endOutline()] ask of the
    store. *)
Definition fill_info (info : Dict) (dt : Dict) : Dict :=
  fold_left (fun dt kv =>
               dict_set (fst kv)
                        (match snd kv with
                         | VName s => VLiteral s
                         | v => v
                         end) dt)
            info dt.

Definition end_prepare (info : Dict) (fonts outline : list call) : action :=
  seq flushPages
 (seq (fun d =>
         let '(i, d) := ref None d in
         let d := with_info (Some i) d in
         let d := match deref i d with
                  | Some r => update_ref (set_data (fill_info info) r) d
                  | None => d
                  end in
         ref_end i None d)
 (seq (seq_all (map run_call fonts))
 (seq (seq_all (map run_call outline))
 (seq (fun d => ref_end (_root d) None d)
      (fun d => match Pages_of d with
                | Some pages => ref_end (id pages) None d
                | None => (d, Some TypeError)
                end))))).

(** The last statement of [end()]: finalize at once, or leave it to the
    [_refEnd] that brings [_waiting] to zero. *)
Definition end_decides : action := fun d =>
  if _waiting d =? 0 then _finalize FromEnd d
  else (with_ended true d, None).

Definition doc_end (info : Dict) (fonts outline : list call) : action :=
  seq (end_prepare info fonts outline) end_decides.

(** The constructor, with [autoFirstPage: false]: the Pages object, the
    catalog, the outline root, and the two header lines. *)
Definition new_PDFDocument (compress buffer_pages : bool) : PDFDocument :=
  let d := mkDoc compress buffer_pages [] 0 None [] 0 false 0 0 None ∅ [] [] [] in
  let '(pages, d) :=
    ref (Some [("Type", VName "Pages"); ("Count", VNumber 0);
               ("Kids", VArray [])]) d in
  let d := match deref pages d with
           | Some r => update_ref (set_own_finalize true r) d
           | None => d
           end in
  let '(root, d) :=
    ref (Some [("Type", VName "Catalog"); ("Pages", VRef pages)]) d in
  let d := with_root root d in
  let '(_, d) := ref (Some []) d in
  let d := _write (Str "%PDF-1.3") d in
  _write (Str (String "%"%char (string_of_list_ascii (replicate 4 "255"%char)))) d.

(** What happens to a document, one synchronous unit of work at a time. *)
Inductive event :=
| Call (c : call)
| AddPage (width height : Q)
| SwitchToPage (n : Z)
| FlushPages
| Fire (k : nat)          (* the k-th pending timer callback runs *)
| End (info : Dict) (fonts outline : list call).

Definition fire (k : nat) : action := fun d =>
  match timers d !! k with
  | None => (d, None)
  | Some i => finalize_task i (with_timers (delete k (timers d)) d)
  end.

Definition perform (e : event) : action :=
  match e with
  | Call c => run_call c
  | AddPage w h => addPage w h
  | SwitchToPage n => fun d => (fst (switchToPage n d), None)
  | FlushPages => flushPages
  | Fire k => fire k
  | End info fonts outline => doc_end info fonts outline
  end.

(** An error that nobody catches ends the unit of work; the document
    stays as the unit left it. *)
Definition step (d : PDFDocument) (e : event) : PDFDocument :=
  fst (perform e d).

Definition run (tr : list event) (d : PDFDocument) : PDFDocument :=
  fold_left step tr d.

End Operations.

(** A [deflateSync] to run the model with: a zlib stream of one stored
    block (the output of zlib at level 0, for inputs below 64 KiB). *)
Definition adler32 (s : string) : Z :=
  let '(a, b) :=
    fold_left (fun '(a, b) c =>
                 let a' := (a + Z.of_nat (nat_of_ascii c)) mod 65521 in
                 (a', (b + a') mod 65521))
              (list_ascii_of_string s) (1, 0) in
  b * 65536 + a.

Definition byte (z : Z) : ascii := ascii_of_nat (Z.to_nat (z mod 256)).

Definition deflate_stored (s : string) : string :=
  let n := JS.strlen s in
  let a := adler32 s in
  string_of_list_ascii
    ([byte 120; byte 1; byte 1; byte n; byte (n / 256);
      byte (255 - n); byte (255 - n / 256)]
     ++ list_ascii_of_string s
     ++ [byte (a / 16777216); byte (a / 65536); byte (a / 256); byte a]).

End Store.

(** * Facts *)

(** ** Byte strings and decimal numerals *)

Module StringFacts.

Abbreviation chars := list_ascii_of_string.

Lemma chars_app (a b : string) : chars (a +:+ b) = chars a ++ chars b.
Proof. induction a as [|c a IH]; simpl; [done | by rewrite IH]. Qed.

Lemma length_chars (s : string) : length (chars s) = String.length s.
Proof. induction s as [|c s IH]; simpl; [done | by rewrite IH]. Qed.

Lemma chars_substring (m n : nat) (s : string) :
  chars (String.substring m n s) = take n (drop m (chars s)).
Proof.
  revert m n. induction s as [|c s IH]; intros m n.
  - destruct m, n; simpl; by rewrite ?take_nil.
  - destruct m as [|m]; simpl.
    + destruct n as [|n]; simpl; [done |]. by rewrite IH, drop_0.
    + apply IH.
Qed.

Lemma chars_inj (a b : string) : chars a = chars b → a = b.
Proof.
  intros H. rewrite <- (string_of_list_ascii_of_string a),
    <- (string_of_list_ascii_of_string b). by rewrite H.
Qed.

Lemma strlen_app (a b : string) :
  JS.strlen (a +:+ b) = JS.strlen a + JS.strlen b.
Proof.
  unfold JS.strlen. rewrite <- !length_chars, chars_app, length_app. lia.
Qed.

Lemma strlen_nonneg (a : string) : 0 ≤ JS.strlen a.
Proof. unfold JS.strlen. lia. Qed.

Lemma chars_slice_last (n : nat) (s : string) :
  chars (JS.slice_last n s) = drop (length (chars s) - n) (chars s).
Proof.
  unfold JS.slice_last. rewrite chars_substring, length_chars.
  apply take_ge. rewrite length_drop, length_chars. lia.
Qed.

Lemma length_slice_last (n : nat) (s : string) :
  (n ≤ String.length s)%nat → String.length (JS.slice_last n s) = n.
Proof.
  intros H. rewrite <- length_chars, chars_slice_last, length_drop, length_chars.
  lia.
Qed.

(** Reading a string of decimal digits. *)
Definition digit_value (c : ascii) : option Z :=
  let n := Z.of_nat (nat_of_ascii c) in
  if (48 <=? n) && (n <=? 57) then Some (n - 48) else None.

Fixpoint read_digits (acc : Z) (l : list ascii) : option Z :=
  match l with
  | [] => Some acc
  | c :: l' =>
      match digit_value c with
      | Some v => read_digits (acc * 10 + v) l'
      | None => None
      end
  end.

Definition parse_decimal (s : string) : option Z := read_digits 0 (chars s).

Lemma read_digits_app (acc : Z) (a b : list ascii) :
  read_digits acc (a ++ b) =
  match read_digits acc a with
  | Some v => read_digits v b
  | None => None
  end.
Proof.
  revert acc. induction a as [|c a IH]; intros acc; simpl; [done |].
  destruct (digit_value c); [apply IH | done].
Qed.

Lemma read_digits_shift (acc acc' : Z) (l : list ascii) (v : Z) :
  read_digits acc l = Some v →
  read_digits acc' l = Some (v + (acc' - acc) * 10 ^ Z.of_nat (length l)).
Proof.
  revert acc acc' v. induction l as [|c l IH]; intros acc acc' v; simpl length.
  - simpl. intros [= <-]. f_equal. lia.
  - cbn [read_digits]. destruct (digit_value c) as [dv|]; [|done]. intros H.
    rewrite (IH _ (acc' * 10 + dv) _ H). f_equal.
    rewrite Nat2Z.inj_succ, Z.pow_succ_r by lia. ring.
Qed.

Lemma read_digits_None (acc acc' : Z) (l : list ascii) :
  read_digits acc l = None → read_digits acc' l = None.
Proof.
  revert acc acc'. induction l as [|c l IH]; intros acc acc'; [done |].
  cbn [read_digits]. destruct (digit_value c); [apply IH | done].
Qed.

Lemma read_digits_acc (acc : Z) (l : list ascii) (v : Z) :
  read_digits 0 l = Some v →
  read_digits acc l = Some (acc * 10 ^ Z.of_nat (length l) + v).
Proof.
  intros H. rewrite (read_digits_shift 0 acc l v H). f_equal. lia.
Qed.

Lemma read_digits_bound (l : list ascii) (v : Z) :
  read_digits 0 l = Some v → 0 ≤ v < 10 ^ Z.of_nat (length l).
Proof.
  revert v. induction l as [|c l IH] using rev_ind; intros v.
  - simpl. intros [= <-]. lia.
  - rewrite read_digits_app. destruct (read_digits 0 l) as [w|]; [|done].
    simpl. unfold digit_value.
    destruct (_ && _) eqn:Hc; [|done]. intros [= <-].
    specialize (IH w eq_refl). rewrite length_app, Nat2Z.inj_add. simpl.
    rewrite Z.pow_add_r by lia. lia.
Qed.

Lemma digit_value_pretty (x : N) :
  (x < 10)%N → digit_value (pretty_N_char x) = Some (Z.of_N x).
Proof.
  intros H.
  assert (Hc : x = 0%N ∨ x = 1%N ∨ x = 2%N ∨ x = 3%N ∨ x = 4%N ∨ x = 5%N
               ∨ x = 6%N ∨ x = 7%N ∨ x = 8%N ∨ x = 9%N) by lia.
  destruct Hc as [->|[->|[->|[->|[->|[->|[->|[->|[->| ->]]]]]]]]]; done.
Qed.

Lemma read_pretty_N_go (x : N) (s : string) (v : Z) :
  read_digits 0 (chars s) = Some v →
  read_digits 0 (chars (pretty_N_go x s)) =
    Some (Z.of_N x * 10 ^ Z.of_nat (String.length s) + v).
Proof.
  revert s v. induction (N.lt_wf_0 x) as [x _ IH]; intros s v Hs.
  destruct (decide (x = 0%N)) as [->|Hx].
  - rewrite pretty_N_go_0, Hs. f_equal; lia.
  - rewrite pretty_N_go_step by lia.
    assert (Hd : (x `mod` 10 < 10)%N) by (apply N.mod_lt; lia).
    rewrite (IH (x `div` 10)%N) with (v := Z.of_N (x `mod` 10) * 10 ^ Z.of_nat (String.length s) + v).
    + f_equal. simpl String.length. rewrite Nat2Z.inj_succ, Z.pow_succ_r by lia.
      rewrite (N.div_mod x 10) at 3 by lia. rewrite N2Z.inj_add, N2Z.inj_mul.
      simpl Z.of_N at 2. lia.
    + apply N.div_lt; lia.
    + simpl. rewrite digit_value_pretty by done.
      rewrite (read_digits_acc _ _ v Hs). f_equal.
      rewrite length_chars. lia.
Qed.

Lemma parse_pretty (z : Z) : 0 ≤ z → parse_decimal (pretty z) = Some z.
Proof.
  intros Hz. unfold parse_decimal, pretty, pretty_Z.
  destruct z as [|p|p]; [done | | lia].
  unfold pretty, pretty_positive, pretty, pretty_N.
  destruct (decide _) as [|_]; [done |].
  rewrite (read_pretty_N_go (Npos p) "" 0 eq_refl). f_equal. simpl. lia.
Qed.

(** The last [n] digits of a numeral read as the numeral modulo [10^n]. *)
Lemma parse_slice_last (n : nat) (s : string) (v : Z) :
  parse_decimal s = Some v → (n ≤ String.length s)%nat →
  parse_decimal (JS.slice_last n s) = Some (v mod 10 ^ Z.of_nat n).
Proof.
  unfold parse_decimal. intros Hv Hn. rewrite chars_slice_last.
  rewrite <- (take_drop (length (chars s) - n) (chars s)) in Hv.
  rewrite read_digits_app in Hv.
  destruct (read_digits 0 (take _ _)) as [a|] eqn:Ha; [|done].
  destruct (read_digits 0 (drop (length (chars s) - n) (chars s))) as [b|] eqn:Hb.
  - rewrite (read_digits_acc a _ b Hb) in Hv. injection Hv as <-.
    pose proof (read_digits_bound _ _ Hb) as Hbd.
    rewrite length_drop, length_chars in *.
    replace (String.length s - (String.length s - n))%nat with n in * by lia.
    f_equal. rewrite Z.add_comm, Z.mod_add by lia.
    symmetry. apply Z.mod_small. lia.
  - by rewrite (read_digits_None 0 a _ Hb) in Hv.
Qed.

End StringFacts.

(** ** PDFObject: numbers, strings and buffers *)

Module ObjectFacts.
Import Num PDFObject StringFacts.

(** *** [PDFObject.number] *)

Lemma Qlt_bool_iff (a b : Q) : Qlt_bool a b = true ↔ (a < b)%Q.
Proof.
  unfold Qlt_bool. rewrite negb_true_iff. split.
  - intros H. apply Qnot_le_lt. intros Hle. apply Qle_bool_iff in Hle. congruence.
  - intros H. destruct (Qle_bool b a) eqn:E; [| done].
    apply Qle_bool_iff in E. exfalso. by apply (Qlt_not_le a b).
Qed.

Lemma Qfloor_half (m : Z) : Qfloor (inject_Z m + (1 # 2)) = m.
Proof.
  unfold Qfloor, Qplus, inject_Z. cbn [Qnum Qden].
  change (Z.pos (1 * 2)) with 2. symmetry.
  apply (Z.div_unique _ 2 m 1); lia.
Qed.

Definition in_range (q : Q) : bool := Qlt_bool (- e21) q && Qlt_bool q e21.

(** The numbers [number] throws back: NaN, the infinities, and the finite
    ones not strictly between -1e21 and 1e21. *)
Definition rejected (n : Num.number) : Prop :=
  match n with
  | Finite q => (q <= - e21)%Q ∨ (e21 <= q)%Q
  | _ => True
  end.

Lemma in_range_iff (q : Q) : in_range q = true ↔ (- e21 < q)%Q ∧ (q < e21)%Q.
Proof. unfold in_range. by rewrite andb_true_iff, !Qlt_bool_iff. Qed.

Lemma in_range_rejected (q : Q) : in_range q = false ↔ rejected (Finite q).
Proof.
  rewrite <- not_true_iff_false, in_range_iff. cbn [rejected]. split.
  - intros H. destruct (Qlt_le_dec (- e21) q) as [H1|H1]; [| by left].
    destruct (Qlt_le_dec q e21) as [H2|H2]; [| by right]. by destruct H.
  - intros [H|H] [H1 H2].
    + by apply (Qlt_not_le _ _ H1).
    + by apply (Qlt_not_le _ _ H2).
Qed.

Lemma number_in_range (q : Q) :
  in_range q = true →
  number (Finite q) = Ok (Finite (inject_Z (Qfloor (q * e6 + (1 # 2))) / e6)).
Proof. intros H. unfold number, gt, lt. fold (in_range q). by rewrite H. Qed.

Lemma number_rejected (n : Num.number) :
  rejected n → number n = Throw (UnsupportedNumber n).
Proof.
  destruct n as [|[]|q]; try done. intros H.
  apply in_range_rejected in H. unfold number, gt, lt. fold (in_range q).
  by rewrite H.
Qed.

Lemma millionths_in_range (q : Q) (k : Z) :
  (q * e6 == inject_Z k)%Q → Z.abs k < 2 ^ 53 → in_range q = true.
Proof.
  intros Hq Hk. apply in_range_iff.
  assert (Hk' : (inject_Z (- 2 ^ 53) < q * e6)%Q ∧ (q * e6 < inject_Z (2 ^ 53))%Q).
  { rewrite Hq, <- !Zlt_Qlt. lia. }
  unfold e21, e6 in *.
  change (inject_Z (10 ^ 21)) with (1000000000000000000000 # 1)%Q.
  change (inject_Z (10 ^ 6)) with (1000000 # 1)%Q in Hk'.
  change (inject_Z (- 2 ^ 53)) with (- 9007199254740992 # 1)%Q in Hk'.
  change (inject_Z (2 ^ 53)) with (9007199254740992 # 1)%Q in Hk'.
  destruct Hk' as [H1 H2]. split; lra.
Qed.

(** X1. [number] throws exactly on NaN, on the infinities and on the finite
    numbers not strictly between -1e21 and 1e21, and the error carries the
    number; on every other number it returns a finite number; and a number
    whose millionfold is a whole number below 2^53, where the arithmetic of
    the code is exact, is returned as it is. *)
Theorem number_throws_outside_range :
  (∀ n : Num.number, rejected n ↔ number n = Throw (UnsupportedNumber n)) ∧
  (∀ n : Num.number, ¬ rejected n ↔ ∃ r : Q, number n = Ok (Finite r)) ∧
  (∀ (q : Q) (k : Z), (q * e6 == inject_Z k)%Q → Z.abs k < 2 ^ 53 →
     ∃ r : Q, number (Finite q) = Ok (Finite r) ∧ (r == q)%Q).
Proof.
  assert (Hin : ∀ q, ¬ rejected (Finite q) → in_range q = true).
  { intros q H. destruct (in_range q) eqn:E; [done |].
    by apply in_range_rejected in E. }
  split; [| split].
  - intros n. split; [apply number_rejected |].
    destruct n as [|[]|q]; try done. intros H.
    apply in_range_rejected. destruct (in_range q) eqn:E; [| done].
    by rewrite number_in_range in H.
  - intros n. split.
    + destruct n as [|[]|q]; try (by intros []). intros H.
      rewrite number_in_range by (by apply Hin). by eexists.
    + intros [r Hr] H. by rewrite number_rejected in Hr.
  - intros q k Hq Hk.
    rewrite number_in_range by (by apply (millionths_in_range q k)).
    eexists. split; [done |].
    rewrite (Qfloor_comp _ (inject_Z k + (1 # 2))) by (by rewrite Hq).
    rewrite Qfloor_half, <- Hq. unfold e6. field. done.
Qed.

Lemma number_throws_outside_range_witness :
  number (Finite e21) = Throw (UnsupportedNumber (Finite e21)) ∧
  (∃ r : Q, number (Finite (1234567 # 10000000)) = Ok (Finite r)) ∧
  (∃ r : Q, number (Finite (3 # 8)) = Ok (Finite r) ∧ (r == 3 # 8)%Q).
Proof.
  destruct number_throws_outside_range as (Hout & Hin & Hexact).
  split; [| split].
  - apply Hout. right. apply Qle_refl.
  - apply Hin. intros [H|H]; revert H; apply Qlt_not_le; reflexivity.
  - apply (Hexact (3 # 8)%Q 375000); [reflexivity | reflexivity].
Defined.

(** *** Whole numbers *)

Lemma Qfloor_millionths (q : Q) (z : Z) :
  (q == inject_Z z)%Q → Qfloor (q * e6 + (1 # 2)) = z * 10 ^ 6.
Proof.
  intros Hq. rewrite <- (Qfloor_half (z * 10 ^ 6)). apply Qfloor_comp.
  rewrite Hq, inject_Z_mult. reflexivity.
Qed.

Lemma append_empty (s : string) : s +:+ "" = s.
Proof.
  induction s as [|c s IH]; [done |].
  change (String c s +:+ "") with (String c (s +:+ "")). by rewrite IH.
Qed.

Lemma show_millionths_whole (z : Z) :
  show_millionths (z * 10 ^ 6)
  = (if z <? 0 then "-" else "") +:+ pretty (Z.abs z).
Proof.
  unfold show_millionths. cbv zeta.
  rewrite Z.abs_mul, (Z.abs_eq (10 ^ 6)) by lia.
  rewrite Z.mod_mul, Z.div_mul by lia.
  change (strip_zeros 7 0 6) with "". cbn [String.eqb].
  replace (z * 10 ^ 6 <? 0) with (z <? 0).
  - by rewrite append_empty.
  - destruct (z <? 0) eqn:E; symmetry.
    + apply Z.ltb_lt in E. apply Z.ltb_lt. lia.
    + apply Z.ltb_ge in E. apply Z.ltb_ge. lia.
Qed.

Lemma convert_whole (q : Q) (z : Z) :
  (q == inject_Z z)%Q → - 10 ^ 21 < z < 10 ^ 21 →
  convert (VNumber q)
  = Ok ((if z <? 0 then "-" else "") +:+ pretty (Z.abs z)).
Proof.
  intros Hq Hz. cbn [convert]. unfold number, gt, lt.
  assert (H1 : Qlt_bool (- e21) q = true).
  { apply Qlt_bool_iff. rewrite Hq. unfold e21.
    rewrite <- inject_Z_opp, <- Zlt_Qlt. lia. }
  assert (H2 : Qlt_bool q e21 = true).
  { apply Qlt_bool_iff. rewrite Hq. unfold e21. rewrite <- Zlt_Qlt. lia. }
  rewrite H1, H2. cbn [andb bind Math_round mul_pos div_pos show_number].
  rewrite (Qfloor_millionths q z Hq).
  rewrite (Qfloor_millionths (inject_Z (z * 10 ^ 6) / e6) z).
  - by rewrite show_millionths_whole.
  - rewrite inject_Z_mult. unfold e6. field. done.
Qed.

(** X2. A whole number whose millionfold is below 2^53, where the arithmetic
    of the code is exact, is converted to its decimal digits, with a minus
    sign when it is negative and with no point. *)
Theorem whole_number_prints_digits (q : Q) (z : Z) :
  (q == inject_Z z)%Q → Z.abs z * 10 ^ 6 < 2 ^ 53 →
  convert (VNumber q)
  = Ok ((if z <? 0 then "-" else "") +:+ pretty (Z.abs z)).
Proof. intros Hq Hz. apply convert_whole; [done | lia]. Qed.

Lemma whole_number_prints_digits_witness :
  convert (VNumber (46 # 2)) = Ok "23" ∧ convert (VNumber (-7)) = Ok "-7".
Proof.
  split.
  - apply (whole_number_prints_digits (46 # 2) 23); [reflexivity | by vm_compute].
  - apply (whole_number_prints_digits (-7) (-7)); [reflexivity | by vm_compute].
Defined.

(** *** [swapBytes] *)

Lemma swap_pairs_twice (l : list ascii) : swap_pairs (swap_pairs l) = l.
Proof.
  induction l as [l IH] using (induction_ltof1 _ (@length ascii)).
  destruct l as [|a [|b l]]; [done | done |]. simpl.
  rewrite IH; [done |]. unfold ltof. simpl. lia.
Qed.

Lemma length_swap_pairs (l : list ascii) : length (swap_pairs l) = length l.
Proof.
  induction l as [l IH] using (induction_ltof1 _ (@length ascii)).
  destruct l as [|a [|b l]]; [done | done |]. simpl.
  rewrite IH; [done |]. unfold ltof. simpl. lia.
Qed.

Lemma swap_pairs_lookup (l : list ascii) (i : nat) :
  (2 * i + 1 < length l)%nat →
  swap_pairs l !! (2 * i)%nat = l !! (2 * i + 1)%nat ∧
  swap_pairs l !! (2 * i + 1)%nat = l !! (2 * i)%nat.
Proof.
  revert l. induction i as [|i IH]; intros l H.
  - destruct l as [|a [|b l]]; simpl in *; try lia. done.
  - destruct l as [|a [|b l]]; simpl in H; try lia.
    replace (2 * S i)%nat with (S (S (2 * i))) by lia.
    replace (S (S (2 * i)) + 1)%nat with (S (S (2 * i + 1))) by lia.
    simpl. apply IH. lia.
Qed.

Lemma length_string_of_list (l : list ascii) :
  String.length (string_of_list_ascii l) = length l.
Proof. by rewrite <- length_chars, list_ascii_of_string_of_list_ascii. Qed.

(** X3. A buffer of odd length is refused; one of even length comes back with
    every pair of bytes exchanged, so it keeps its length and a second
    call restores it. *)
Theorem swapBytes_pairs (buff : string) :
  (Nat.odd (String.length buff) = true →
   swapBytes buff = Throw (Error "Buffer length must be even")) ∧
  (Nat.odd (String.length buff) = false →
   ∃ out, swapBytes buff = Ok out ∧
          String.length out = String.length buff ∧
          swapBytes out = Ok buff ∧
          ∀ i, (2 * i + 1 < String.length buff)%nat →
               chars out !! (2 * i)%nat = chars buff !! (2 * i + 1)%nat ∧
               chars out !! (2 * i + 1)%nat = chars buff !! (2 * i)%nat).
Proof.
  unfold swapBytes. split; intros H; rewrite H; [done |].
  eexists. split; [done |].
  assert (Hl : String.length (string_of_list_ascii (swap_pairs (chars buff)))
               = String.length buff)
    by (by rewrite length_string_of_list, length_swap_pairs, length_chars).
  split; [done |]. split.
  - rewrite Hl, H, list_ascii_of_string_of_list_ascii, swap_pairs_twice.
    by rewrite string_of_list_ascii_of_string.
  - intros i Hi. rewrite list_ascii_of_string_of_list_ascii.
    apply swap_pairs_lookup. by rewrite length_chars.
Qed.

Lemma swapBytes_pairs_witness :
  swapBytes "abc" = Throw (Error "Buffer length must be even") ∧
  ∃ out, swapBytes "abcd" = Ok out ∧ swapBytes out = Ok "abcd".
Proof.
  split.
  - by apply (proj1 (swapBytes_pairs "abc")).
  - destruct (proj2 (swapBytes_pairs "abcd") eq_refl) as (out & H1 & _ & H2 & _).
    by exists out.
Defined.

(** *** String literals *)

(** Reading an escaped string back: a backslash and the character after it
    stand for one character. *)
Definition unescape_char (c : ascii) : ascii :=
  if Ascii.eqb c "n" then "010"
  else if Ascii.eqb c "r" then "013"
  else if Ascii.eqb c "t" then "009"
  else if Ascii.eqb c "b" then "008"
  else if Ascii.eqb c "f" then "012"
  else c.

Fixpoint unescape (s : string) : string :=
  match s with
  | EmptyString => EmptyString
  | String c s' =>
      if Ascii.eqb c "\" then
        match s' with
        | String x s'' => String (unescape_char x) (unescape s'')
        | EmptyString => String c EmptyString
        end
      else String c (unescape s')
  end.

(** Big endian UTF-16 of code units below 256, after the byte order mark. *)
Fixpoint utf16be (s : string) : string :=
  match s with
  | EmptyString => EmptyString
  | String c s' => String "000"%char (String c (utf16be s'))
  end.

Definition bom_be : string := String "254"%char (String "255"%char EmptyString).

Lemma escape_char_cases (c : ascii) :
  (escape_char c = String c EmptyString ∧ Ascii.eqb c "\" = false) ∨
  (∃ x, escape_char c = String "\" (String x EmptyString) ∧ unescape_char x = c).
Proof.
  unfold escape_char.
  destruct (Ascii.eqb c "010") eqn:E1;
    [apply Ascii.eqb_eq in E1 as ->; right; by eexists |].
  destruct (Ascii.eqb c "013") eqn:E2;
    [apply Ascii.eqb_eq in E2 as ->; right; by eexists |].
  destruct (Ascii.eqb c "009") eqn:E3;
    [apply Ascii.eqb_eq in E3 as ->; right; by eexists |].
  destruct (Ascii.eqb c "008") eqn:E4;
    [apply Ascii.eqb_eq in E4 as ->; right; by eexists |].
  destruct (Ascii.eqb c "012") eqn:E5;
    [apply Ascii.eqb_eq in E5 as ->; right; by eexists |].
  destruct (Ascii.eqb c "\") eqn:E6;
    [apply Ascii.eqb_eq in E6 as ->; right; by eexists |].
  destruct (Ascii.eqb c "(") eqn:E7;
    [apply Ascii.eqb_eq in E7 as ->; right; by eexists |].
  destruct (Ascii.eqb c ")") eqn:E8;
    [apply Ascii.eqb_eq in E8 as ->; right; by eexists |].
  by left.
Qed.

Lemma unescape_escape (s : string) : unescape (escape s) = s.
Proof.
  induction s as [|c s IH]; [done |]. cbn [escape].
  destruct (escape_char_cases c) as [[-> E]|(x & -> & Hx)].
  - change (String c "" +:+ escape s) with (String c (escape s)).
    cbn [unescape]. by rewrite E, IH.
  - change (String "\" (String x "") +:+ escape s)
      with (String "\" (String x (escape s))).
    cbn [unescape]. change (Ascii.eqb "\" "\") with true.
    cbv iota. by rewrite Hx, IH.
Qed.

Lemma swap_utf16le (s : string) :
  swap_pairs (chars (utf16le s)) = chars (utf16be s).
Proof. induction s as [|c s IH]; [done |]. simpl. by rewrite IH. Qed.

Lemma utf16le_even (s : string) : Nat.odd (String.length (utf16le s)) = false.
Proof.
  induction s as [|c s IH]; [done |]. cbn [utf16le String.length].
  by rewrite Nat.odd_succ_succ.
Qed.

Lemma convert_literal (s : string) :
  ∃ body, convert (VLiteral s) = Ok ("(" +:+ body +:+ ")") ∧
          unescape body = if isUnicode s then bom_be +:+ utf16be s else s.
Proof.
  cbn [convert]. destruct (isUnicode s).
  - unfold swapBytes.
    replace (Nat.odd (String.length (bom_le +:+ utf16le s))) with false
      by (symmetry; apply (utf16le_even (String "a" s))).
    cbn [bind]. eexists. split; [done |]. rewrite unescape_escape.
    apply chars_inj. rewrite list_ascii_of_string_of_list_ascii.
    change (chars (bom_le +:+ utf16le s))
      with ("255"%char :: "254"%char :: chars (utf16le s)).
    cbn [swap_pairs]. by rewrite swap_utf16le.
  - cbn [bind]. eexists. split; [done |]. apply unescape_escape.
Qed.

(** X4. A String object is converted to a parenthesised literal that reads
    back, escapes undone, as the string itself when all its characters are
    ASCII, and otherwise as its big endian UTF-16 after the byte order
    mark; the conversion never throws. *)
Theorem literal_reads_back (s : string) :
  ∃ body, convert (VLiteral s) = Ok ("(" +:+ body +:+ ")") ∧
          unescape body = if isUnicode s then bom_be +:+ utf16be s else s.
Proof. exact (convert_literal s). Qed.

(** *** Dates *)

(** [pad]: [(Array(length + 1).join('0') + str).slice(-length)].  With a
    length of 0 the slice is the whole string. *)
Definition pad (str : string) (length : nat) : string :=
  let padded := string_of_list_ascii (replicate length "0"%char) +:+ str in
  match length with
  | O => padded
  | S _ => JS.slice_last length padded
  end.

(** What [convert] reads of a valid [Date]: its UTC getters. *)
Record UTCDate := mkDate {
  getUTCFullYear : Z;
  getUTCMonth : Z;
  getUTCDate : Z;
  getUTCHours : Z;
  getUTCMinutes : Z;
  getUTCSeconds : Z
}.

(** The [Date] branch of [PDFObject.convert]. *)
Definition convert_date (object : UTCDate) : string :=
  ("(D:" +:+ pad (pretty (getUTCFullYear object)) 4) +:+
  pad (pretty (getUTCMonth object + 1)) 2 +:+
  pad (pretty (getUTCDate object)) 2 +:+
  pad (pretty (getUTCHours object)) 2 +:+
  pad (pretty (getUTCMinutes object)) 2 +:+
  pad (pretty (getUTCSeconds object)) 2 +:+ "Z)".

Lemma read_zeros (n : nat) :
  read_digits 0 (replicate n "0"%char) = Some 0.
Proof. induction n as [|n IH]; [done |]. cbn [replicate read_digits]. exact IH. Qed.

Lemma pad_reads_back (v : Z) (n : nat) :
  (0 < n)%nat → 0 ≤ v →
  String.length (pad (pretty v) n) = n ∧
  parse_decimal (pad (pretty v) n) = Some (v mod 10 ^ Z.of_nat n).
Proof.
  intros Hn Hv. unfold pad. cbv zeta. destruct n as [|n]; [lia |].
  set (zeros := string_of_list_ascii (replicate (S n) "0"%char)).
  assert (Hz : String.length zeros = S n).
  { unfold zeros. rewrite <- length_chars, list_ascii_of_string_of_list_ascii.
    apply length_replicate. }
  assert (Hl : (S n ≤ String.length (zeros +:+ pretty v))%nat).
  { rewrite <- length_chars, chars_app, length_app, !length_chars. lia. }
  split; [by apply length_slice_last |].
  apply parse_slice_last; [| done].
  unfold parse_decimal. rewrite chars_app, read_digits_app.
  unfold zeros. rewrite list_ascii_of_string_of_list_ascii.
  rewrite (read_zeros (S n)). exact (parse_pretty v Hv).
Qed.

Lemma pad_length (str : string) (n : nat) :
  (0 < n)%nat → String.length (pad str n) = n.
Proof.
  intros Hn. unfold pad. cbv zeta. destruct n as [|n]; [lia |].
  apply length_slice_last.
  rewrite <- length_chars, chars_app, length_app,
    list_ascii_of_string_of_list_ascii, length_replicate. lia.
Qed.

(** X5. A date is converted to [(D:YYYYMMDDHHmmSSZ)], each field of its fixed
    width.  The month, counted from 1, the day, the hours, the minutes and
    the seconds read back as the UTC values they were made from.  The year
    field holds the last four characters of the year after four zeros: for
    a year that is not negative it reads back as the year, of more than
    four digits the last four; a negative year, which a Date can have, is
    cut the same way with its minus sign, so that the year -1 gives
    [00-1]. *)
Theorem date_fields_read_back (object : UTCDate) :
  0 ≤ getUTCMonth object < 12 → 1 ≤ getUTCDate object ≤ 31 →
  0 ≤ getUTCHours object < 24 → 0 ≤ getUTCMinutes object < 60 →
  0 ≤ getUTCSeconds object < 60 →
  ∃ Y M D h m s,
    convert_date object
    = "(D:" +:+ Y +:+ M +:+ D +:+ h +:+ m +:+ s +:+ "Z)" ∧
    map String.length [Y; M; D; h; m; s] = [4; 2; 2; 2; 2; 2]%nat ∧
    Y = JS.slice_last 4 ("0000" +:+ pretty (getUTCFullYear object)) ∧
    (0 ≤ getUTCFullYear object →
     parse_decimal Y = Some (getUTCFullYear object mod 10 ^ 4)) ∧
    map parse_decimal [M; D; h; m; s]
    = map Some [getUTCMonth object + 1; getUTCDate object;
                getUTCHours object; getUTCMinutes object;
                getUTCSeconds object].
Proof.
  intros HM HD Hh Hm Hs. unfold convert_date.
  pose proof (pad_length (pretty (getUTCFullYear object)) 4) as L1.
  destruct (pad_reads_back (getUTCMonth object + 1) 2) as [L2 P2]; [lia | lia |].
  destruct (pad_reads_back (getUTCDate object) 2) as [L3 P3]; [lia | lia |].
  destruct (pad_reads_back (getUTCHours object) 2) as [L4 P4]; [lia | lia |].
  destruct (pad_reads_back (getUTCMinutes object) 2) as [L5 P5]; [lia | lia |].
  destruct (pad_reads_back (getUTCSeconds object) 2) as [L6 P6]; [lia | lia |].
  rewrite Z.mod_small in P2, P3, P4, P5, P6 by (cbn; lia).
  exists (pad (pretty (getUTCFullYear object)) 4),
    (pad (pretty (getUTCMonth object + 1)) 2),
    (pad (pretty (getUTCDate object)) 2),
    (pad (pretty (getUTCHours object)) 2),
    (pad (pretty (getUTCMinutes object)) 2),
    (pad (pretty (getUTCSeconds object)) 2).
  split; [| split; [| split; [| split]]].
  - reflexivity.
  - cbn [map]. by rewrite L1, L2, L3, L4, L5, L6 by lia.
  - reflexivity.
  - intros HY. by apply (pad_reads_back _ 4); [lia |].
  - cbn [map]. by rewrite P2, P3, P4, P5, P6.
Qed.

Lemma date_fields_read_back_witness :
  convert_date (mkDate 2018 0 9 7 5 0) = "(D:20180109070500Z)" ∧
  convert_date (mkDate (-1) 1 3 4 5 6) = "(D:00-10203040506Z)".
Proof.
  destruct (date_fields_read_back (mkDate 2018 0 9 7 5 0))
    as (Y & M & D & h & m & s & H & _); cbn; try lia.
  destruct (date_fields_read_back (mkDate (-1) 1 3 4 5 6))
    as (Y' & M' & D' & h' & m' & s' & H' & _); cbn; try lia.
  split; reflexivity.
Defined.

(** *** Buffers *)

Definition hex_value (c : ascii) : option nat :=
  let n := nat_of_ascii c in
  if (48 <=? n)%nat && (n <=? 57)%nat then Some (n - 48)%nat
  else if (97 <=? n)%nat && (n <=? 102)%nat then Some (n - 87)%nat
  else None.

(** Reading a string of hexadecimal digits back into bytes. *)
Fixpoint from_hex (s : string) : option string :=
  match s with
  | EmptyString => Some EmptyString
  | String h (String l s') =>
      match hex_value h, hex_value l, from_hex s' with
      | Some a, Some b, Some r => Some (String (ascii_of_nat (16 * a + b)) r)
      | _, _, _ => None
      end
  | String _ EmptyString => None
  end.

Lemma hex_byte (c : ascii) :
  hex_value (hex_digit (nat_of_ascii c / 16)) = Some (nat_of_ascii c / 16)%nat ∧
  hex_value (hex_digit (nat_of_ascii c mod 16)) = Some (nat_of_ascii c mod 16)%nat.
Proof.
  destruct c as [[] [] [] [] [] [] [] []]; vm_compute; done.
Qed.

(** X6. A Buffer is converted to its bytes in hexadecimal between angle
    brackets: two digits a byte, which read back as the buffer. *)
Theorem buffer_hex_reads_back (b : string) :
  convert (VBuffer b) = Ok ("<" +:+ to_hex b +:+ ">") ∧
  String.length (to_hex b) = (2 * String.length b)%nat ∧
  from_hex (to_hex b) = Some b.
Proof.
  split; [done |]. induction b as [|c b [IHl IHr]]; [done |]. split.
  - cbn [to_hex String.length]. rewrite IHl. lia.
  - cbn [to_hex from_hex]. destruct (hex_byte c) as [-> ->]. rewrite IHr.
    do 2 f_equal.
    rewrite <- Nat.div_mod_eq. apply ascii_nat_embedding.
Qed.

(** *** Dictionaries *)

(** Keys that are array indices and keys that are not. *)
Example array_index_cases :
  map array_index ["0"; "7"; "12"; "4294967294"; "4294967295"; "01"; ""; "-1";
                   "1.5"; "Length"]
  = [Some 0; Some 7; Some 12; Some 4294967294; None; None; None; None; None;
     None].
Proof. reflexivity. Qed.

(** Entries are kept in the order [for ... in] visits them, and so is what
    [convert] writes. *)
Example dict_set_for_in_order :
  let d := dict_set "3" (VName "c")
             (dict_set "b" (VName "e")
                (dict_set "2" (VName "b")
                   (dict_set "a" (VName "d") (dict_set "10" (VName "x") [])))) in
  map fst d = ["2"; "3"; "10"; "a"; "b"] ∧
  map fst (dict_set "10" (VName "y") d) = ["2"; "3"; "10"; "a"; "b"] ∧
  dict_get "10" (dict_set "10" (VName "y") d) = Some (VName "y").
Proof. by vm_compute. Qed.

(** *** [PDFObject.convert] *)

(** Induction over a value and the values inside it. *)
Section ValueInduction.
Variable P : PDFValue → Prop.
Hypothesis HName : ∀ s, P (VName s).
Hypothesis HLiteral : ∀ s, P (VLiteral s).
Hypothesis HBuffer : ∀ b, P (VBuffer b).
Hypothesis HRef : ∀ i, P (VRef i).
Hypothesis HArray : ∀ items, Forall P items → P (VArray items).
Hypothesis HDict : ∀ entries, Forall (fun kv => P (snd kv)) entries → P (VDict entries).
Hypothesis HNumber : ∀ q, P (VNumber q).
Hypothesis HNaN : P VNaN.
Hypothesis HInfinity : ∀ negative, P (VInfinity negative).
Hypothesis HOther : ∀ s, P (VOther s).

Fixpoint value_ind (v : PDFValue) : P v :=
  match v with
  | VName s => HName s
  | VLiteral s => HLiteral s
  | VBuffer b => HBuffer b
  | VRef i => HRef i
  | VArray items =>
      HArray items
        ((fix go (l : list PDFValue) : Forall P l :=
            match l with
            | [] => List.Forall_nil P
            | x :: l' => @List.Forall_cons _ P x l' (value_ind x) (go l')
            end) items)
  | VDict entries =>
      HDict entries
        ((fix go (l : Dict) : Forall (fun kv => P (snd kv)) l :=
            match l with
            | [] => List.Forall_nil _
            | kv :: l' => @List.Forall_cons _ _ kv l' (value_ind (snd kv)) (go l')
            end) entries)
  | VNumber q => HNumber q
  | VNaN => HNaN
  | VInfinity negative => HInfinity negative
  | VOther s => HOther s
  end.
End ValueInduction.

(** Every number in a value, at any depth, is one [number] accepts. *)
Fixpoint numbers_in_range (v : PDFValue) : bool :=
  match v with
  | VNumber q => in_range q
  | VNaN | VInfinity _ => false
  | VArray items => forallb numbers_in_range items
  | VDict entries => forallb (fun kv => numbers_in_range (snd kv)) entries
  | _ => true
  end.

Definition converts (v : PDFValue) : Prop :=
  (numbers_in_range v = true → ∃ s, convert v = Ok s) ∧
  (numbers_in_range v = false →
   ∃ n, rejected n ∧ convert v = Throw (UnsupportedNumber n)).

Lemma map_result_converts (items : list PDFValue) :
  Forall converts items →
  (forallb numbers_in_range items = true →
   ∃ l, map_result convert items = Ok l) ∧
  (forallb numbers_in_range items = false →
   ∃ n, rejected n ∧ map_result convert items = Throw (UnsupportedNumber n)).
Proof.
  induction 1 as [|v items [Hok Hbad] _ [IHok IHbad]]; [by split; [eexists |] |].
  cbn [forallb map_result]. split.
  - intros H. apply andb_true_iff in H as [Hv Hl].
    destruct (Hok Hv) as [s ->]. destruct (IHok Hl) as [l ->]. by eexists.
  - intros H. destruct (numbers_in_range v) eqn:Hv.
    + destruct (Hok eq_refl) as [s ->]. destruct (IHbad H) as (q & Hq & ->).
      by exists q.
    + destruct (Hbad eq_refl) as (q & Hq & ->). by exists q.
Qed.

Lemma converts_all (v : PDFValue) : converts v.
Proof.
  induction v using value_ind.
  - by split; [eexists |].
  - split; [| done]. intros _. destruct (convert_literal s) as (b & -> & _).
    by eexists.
  - by split; [eexists |].
  - by split; [eexists |].
  - destruct (map_result_converts items H) as [Hok Hbad].
    split; intros Hn; cbn [numbers_in_range] in Hn; cbn [convert].
    + destruct (Hok Hn) as [l ->]. by eexists.
    + destruct (Hbad Hn) as (q & Hq & ->). by exists q.
  - unfold converts. cbn [convert numbers_in_range].
    match goal with |- context [bind (?f entries) _] => set (out := f) end.
    assert (Ho :
      (forallb (fun kv => numbers_in_range (snd kv)) entries = true →
       ∃ l, out entries = Ok l) ∧
      (forallb (fun kv => numbers_in_range (snd kv)) entries = false →
       ∃ n, rejected n ∧ out entries = Throw (UnsupportedNumber n))).
    { induction H as [|[k v] entries [Hok Hbad] _ [IHok IHbad]];
        [by split; [eexists |] |].
      cbn [forallb snd] in *. split.
      - intros Hn. apply andb_true_iff in Hn as [Hv Hl].
        destruct (Hok Hv) as [s Hs]. destruct (IHok Hl) as [l Hl'].
        exists (("/" +:+ k +:+ " " +:+ s) :: l).
        unfold out in *. cbn. rewrite Hs. cbn. by rewrite Hl'.
      - intros Hn. destruct (numbers_in_range v) eqn:Hv.
        + destruct (Hok eq_refl) as [s Hs]. destruct (IHbad Hn) as (q & Hq & Hl').
          exists q. split; [done |]. unfold out in *. cbn. rewrite Hs. cbn.
          by rewrite Hl'.
        + destruct (Hbad eq_refl) as (q & Hq & Hs). exists q. split; [done |].
          unfold out. cbn. by rewrite Hs. }
    destruct Ho as [Hok Hbad]. split; intros Hn.
    + destruct (Hok Hn) as [l ->]. by eexists.
    + destruct (Hbad Hn) as (q & Hq & ->). by exists q.
  - unfold converts. cbn [convert numbers_in_range].
    unfold number, gt, lt. fold (in_range q).
    destruct (in_range q) eqn:E; (split; [intros Hn | intros Hn]); try done.
    + by eexists.
    + exists (Finite q). split; [by apply in_range_rejected | done].
  - split; [done |]. intros _. by exists NaN.
  - split; [done |]. intros _. exists (Infinity negative). by destruct negative.
  - by split; [eexists |].
Qed.

(** X7. Converting a value throws only for a number that [number] throws
    back, which is NaN, an infinity or a finite number not strictly between
    -1e21 and 1e21: it succeeds when no such number is in the value, at any
    depth, and otherwise throws one of them as unsupported. *)
Theorem convert_throws_only_numbers (v : PDFValue) :
  (numbers_in_range v = true → ∃ s, convert v = Ok s) ∧
  (numbers_in_range v = false →
   ∃ n, rejected n ∧ convert v = Throw (UnsupportedNumber n)).
Proof. exact (converts_all v). Qed.

Lemma convert_throws_only_numbers_witness :
  (∃ s, convert (VDict [("Length", VNumber 4); ("Kids", VArray [VRef 3])]) = Ok s) ∧
  (∃ n, rejected n ∧
        convert (VArray [VNumber 1; VNumber e21; VNumber (- e21)])
        = Throw (UnsupportedNumber n)) ∧
  (∃ n, rejected n ∧
        convert (VDict [("Type", VName "Pages"); ("Count", VNaN)])
        = Throw (UnsupportedNumber n)).
Proof.
  split; [| split].
  - by apply (proj1 (convert_throws_only_numbers _)).
  - by apply (proj2 (convert_throws_only_numbers _)).
  - by apply (proj2 (convert_throws_only_numbers _)).
Defined.

End ObjectFacts.

(** ** The object store *)

Module StoreFacts.
Import PDFObject Store StringFacts ObjectFacts.

Global Instance slot_eq_dec : EqDecision slot.
Proof. solve_decision. Defined.

(** The number of bytes in what was pushed. *)
Definition bytes (out : list (option string)) : Z :=
  foldr (fun c n => match c with Some b => JS.strlen b + n | None => n end)
        0 out.

(** The line that opens object [i], as [finalize] writes it. *)
Definition header_line (i : nat) : string :=
  to_buffer (Str (pretty i +:+ " " +:+ pretty 0%nat +:+ " obj")).

(** Object [i]'s header begins at byte [off] of the output. *)
Definition header_at (i : nat) (off : Z) (out : list (option string)) : Prop :=
  ∃ pre post, out = pre ++ Some (header_line i) :: post ∧ bytes pre = off.

(** The cross-reference table for the offsets [offs]: the free entry and
    one entry per object, and the section as it is pushed. *)
Definition xref_table (offs : list slot) : list string :=
  "0000000000 65535 f " :: map xref_entry offs.

Definition xref_section (offs : list slot) : list (option string) :=
  map (fun s => Some (to_buffer (Str s)))
      ("xref" :: ("0 " +:+ pretty (Z.of_nat (length offs) + 1))
              :: xref_table offs).

(** The ten characters of an entry that hold the offset. *)
Definition offset_field (entry : string) : string :=
  String.substring 0 10 entry.

(** No [_refEnd] found its object already finalized. *)
Definition fresh (l : list mark) : Prop :=
  ∀ i b, RefEnd i b ∈ l → b = Some Null.

(** The same, as a test. *)
Definition freshb (l : list mark) : bool :=
  forallb (fun m => match m with
                    | RefEnd _ (Some Null) => true
                    | RefEnd _ _ => false
                    | _ => true
                    end) l.

Lemma freshb_fresh (l : list mark) : freshb l = true → fresh l.
Proof.
  intros H i b Hin. unfold freshb in H.
  apply list_elem_of_In in Hin.
  apply (proj1 (forallb_forall _ _) H) in Hin.
  by destruct b as [[]|].
Qed.

Definition is_Offset (s : slot) : Prop := ∃ z, s = Offset z.

(** How many times [push(null)] ended the stream. *)
Definition eofs (d : PDFDocument) : nat :=
  length (filter (fun c => c = None) (pushed d)).

Definition is_Finalize (m : mark) : Prop :=
  match m with Finalize _ _ _ _ => True | _ => False end.

Global Instance is_Finalize_dec m : Decision (is_Finalize m).
Proof. destruct m; simpl; apply _. Defined.

(** How many times [_finalize] was entered. *)
Definition finalize_calls (d : PDFDocument) : nat :=
  length (filter is_Finalize (log d)).

Definition is_End (e : event) : Prop :=
  match e with End _ _ _ => True | _ => False end.

Global Instance is_End_dec e : Decision (is_End e).
Proof. destruct e; simpl; apply _. Defined.

(** How many times a trace calls [end()]. *)
Definition end_calls (tr : list event) : nat := length (filter is_End tr).

(** What was pushed before an end of stream: the cross-reference section
    of the offsets a call of [_finalize] found, and five more chunks, each
    offset in the section being where that object's header began. *)
Definition table_before (pre : list (option string)) (l : list mark) : Prop :=
  ∃ body s w e offs rest,
    Finalize s w e offs ∈ l ∧
    pre = body ++ xref_section offs ++ rest ∧ length rest = 5%nat ∧
    (∀ k off, offs !! k = Some (Offset off) → header_at (S k) off body).

Record good (d : PDFDocument) : Prop := {
  g_off : _offset d = bytes (pushed d);
  g_heap : ∀ i r, heap d !! i = Some r →
           id r = i ∧ gen r = 0%nat ∧ (1 ≤ i ≤ length (_offsets d))%nat;
  g_hdr : ∀ k off, _offsets d !! k = Some (Offset off) →
          header_at (S k) off (pushed d);
  g_eof : ∀ pre post, pushed d = pre ++ None :: post → table_before pre (log d);
  g_wait : fresh (log d) →
           _waiting d = Z.of_nat (length (filter (fun s => s = Null) (_offsets d)))
           ∧ Forall (fun s => s ≠ Undefined) (_offsets d);
  g_fin : ∀ s w e offs, Finalize s w e offs ∈ log d →
          w = 0 ∧ (s = FromRefEnd → e = true) ∧
          (length offs ≤ length (_offsets d))%nat ∧
          (fresh (log d) → Forall is_Offset offs ∧ offs `prefix_of` _offsets d);
  g_dom : ∀ i, (1 ≤ i ≤ length (_offsets d))%nat → is_Some (heap d !! i)
}.

(** *** Output *)

Lemma bytes_app (a b : list (option string)) : bytes (a ++ b) = bytes a + bytes b.
Proof. induction a as [|[c|] a IH]; simpl; lia. Qed.

Lemma bytes_nonneg (a : list (option string)) : 0 ≤ bytes a.
Proof.
  induction a as [|[c|] a IH]; simpl; [lia | | lia].
  pose proof (strlen_nonneg c). lia.
Qed.

Lemma header_at_app i off out more :
  header_at i off out → header_at i off (out ++ more).
Proof.
  intros (pre & post & Hout & Hb). exists pre, (post ++ more).
  by rewrite Hout, <- app_assoc.
Qed.

Lemma header_at_nonneg i off out : header_at i off out → 0 ≤ off.
Proof. intros (pre & post & _ & <-). apply bytes_nonneg. Qed.

Lemma fresh_app l l' : fresh (l ++ l') → fresh l.
Proof. intros H i b Hin. apply (H i b). by apply elem_of_app; left. Qed.

Lemma table_before_mono pre l l' :
  table_before pre l → table_before pre (l ++ l').
Proof.
  intros (body & s & w & e & offs & rest & Hin & Hp & Hr & Hh).
  exists body, s, w, e, offs, rest. repeat split; try done.
  apply elem_of_app. by left.
Qed.

(** Pushing chunks: all that [_write] does. *)
Definition emit (bs : list string) (d : PDFDocument) : PDFDocument :=
  with_output (_offset d + bytes (map Some bs)) (pushed d ++ map Some bs) d.

Lemma _write_emit c d : _write c d = emit [to_buffer c] d.
Proof. unfold _write, emit. simpl. by rewrite Z.add_0_r. Qed.

Lemma emit_emit a b d : emit b (emit a d) = emit (a ++ b) d.
Proof.
  unfold emit, with_output. simpl.
  rewrite map_app, bytes_app, <- app_assoc. f_equal. lia.
Qed.

Lemma split_at_None {A} (l more pre post : list (option A)) :
  Forall (fun c => c ≠ None) more →
  l ++ more = pre ++ None :: post →
  ∃ post', l = pre ++ None :: post'.
Proof.
  intros Hm. revert l pre post.
  induction more as [|c more IH] using rev_ind; intros l pre post H.
  - rewrite app_nil_r in H. eauto.
  - apply Forall_app in Hm as [Hm Hc]. apply Forall_inv in Hc.
    destruct post as [|p post _] using rev_ind.
    + rewrite app_assoc in H. apply app_inj_tail in H as [_ Hn].
      simpl in Hc. congruence.
    + change (l ++ more ++ [c] = pre ++ (None :: post) ++ [p]) in H.
      rewrite !app_assoc in H. apply app_inj_tail in H as [H _].
      by apply IH in H.
Qed.

Lemma good_emit bs d : good d → good (emit bs d).
Proof.
  intros [Ho Hh Hd He Hw Hf Hm]. split; simpl; try done.
  - rewrite bytes_app. lia.
  - intros k off H. by apply header_at_app, Hd.
  - intros pre post H.
    apply split_at_None in H as [post' H]; [by eapply He |].
    apply Forall_map, Forall_true. done.
Qed.

Lemma good_write c d : good d → good (_write c d).
Proof. rewrite _write_emit. apply good_emit. Qed.

(** *** The invariant is kept by the operations on the store *)

Lemma good_with_timers t d : good d → good (with_timers t d).
Proof. by intros []. Qed.

Lemma good_with_pages pb st pg d : good d → good (with_pages pb st pg d).
Proof. by intros []. Qed.

Lemma good_with_info i d : good d → good (with_info i d).
Proof. by intros []. Qed.

Lemma good_with_ended e d : good d → good (with_ended e d).
Proof. by intros []. Qed.

Lemma good_with_root r d : good d → good (with_root r d).
Proof. by intros []. Qed.

Lemma good_update_ref r d :
  good d → gen r = 0%nat → (1 ≤ id r ≤ length (_offsets d))%nat →
  good (update_ref r d).
Proof.
  intros [Ho Hh Hd He Hw Hf Hm] Hg Hi. split; simpl; try done.
  - intros i r' H. destruct (decide (i = id r)) as [->|Hne].
    + rewrite lookup_insert_eq in H. by injection H as <-.
    + rewrite lookup_insert_ne in H by done. by apply Hh.
  - intros i H. destruct (decide (i = id r)) as [->|Hne].
    + by rewrite lookup_insert_eq.
    + rewrite lookup_insert_ne by done. by apply Hm.
Qed.

Lemma filter_Null_app (a : list slot) (s : slot) :
  length (filter (fun s => s = Null) (a ++ [s])) =
  (length (filter (fun s => s = Null) a) + if decide (s = Null) then 1 else 0)%nat.
Proof.
  rewrite filter_app, length_app. f_equal.
  rewrite filter_cons, filter_nil. by destruct (decide (s = Null)).
Qed.

Lemma good_ref data d : good d → good (snd (ref data d)).
Proof.
  intros [Ho Hh Hd He Hw Hf Hm]. unfold ref, update_ref. cbn [snd].
  split; simpl; try done.
  - intros i r H. rewrite length_app. simpl.
    destruct (decide (i = (length (_offsets d) + 1)%nat)) as [->|Hne].
    + rewrite lookup_insert_eq in H. injection H as <-. simpl.
      repeat split; lia.
    + rewrite lookup_insert_ne in H by done.
      destruct (Hh i r H) as (? & ? & ?). repeat split; try done; lia.
  - intros k off H. apply lookup_app_Some in H as [H|[_ H]]; [by apply Hd |].
    destruct (k - length (_offsets d))%nat; simpl in H; [done |].
    by rewrite lookup_nil in H.
  - intros Hfr. destruct (Hw Hfr) as [Hn Hu]. split.
    + rewrite filter_Null_app. destruct (decide _); [lia | done].
    + apply Forall_app. split; [done |]. by apply Forall_singleton.
  - intros s w e offs Hin. destruct (Hf s w e offs Hin) as (? & ? & ? & Hfo).
    rewrite length_app. simpl.
    split; [done |]. split; [done |]. split; [lia |].
    intros Hfr. destruct (Hfo Hfr). split; [done |]. by apply prefix_app_r.
  - intros i Hi. rewrite length_app in Hi. simpl in Hi.
    destruct (decide (i = (length (_offsets d) + 1)%nat)) as [->|Hne].
    + by rewrite lookup_insert_eq.
    + rewrite lookup_insert_ne by done. apply Hm. lia.
Qed.

(** What [_finalize] pushes before the trailer dictionary, and after it. *)
Definition xref_lines (d : PDFDocument) : list string :=
  map (fun s => to_buffer (Str s))
      ("xref" :: ("0 " +:+ pretty (Z.of_nat (length (_offsets d)) + 1))
              :: xref_table (_offsets d)).

Definition push_null (d : PDFDocument) : PDFDocument :=
  with_output (_offset d) (pushed d ++ [None]) d.

Lemma xref_loop offs a d :
  fold_left (fun d offset => _write (Str (xref_entry offset)) d) offs (emit a d)
  = emit (a ++ map (fun o => to_buffer (Str (xref_entry o))) offs) d.
Proof.
  revert a. induction offs as [|o offs IH]; intros a; simpl.
  - by rewrite app_nil_r.
  - rewrite _write_emit, emit_emit, IH, <- app_assoc. done.
Qed.

Lemma _finalize_spec s d :
  let d1 := with_log (log d ++ [Finalize s (_waiting d) (_ended d) (_offsets d)]) d in
  (∃ e, _finalize s d =
        (emit (xref_lines d ++ [to_buffer (Str "trailer")]) d1, Some e)) ∨
  (∃ t, _finalize s d =
        (push_null (emit (xref_lines d ++
           [to_buffer (Str "trailer"); t; to_buffer (Str "startxref");
            to_buffer (Str (pretty (_offset d))); to_buffer (Str "%%EOF")]) d1),
         None)).
Proof.
  intros d1. unfold _finalize. cbv zeta. fold d1.
  set (f := fun (d : PDFDocument) (offset : slot) => _write (Str (xref_entry offset)) d).
  rewrite !_write_emit, !emit_emit.
  repeat match goal with
         | |- context [_offsets (emit ?x d1)] =>
             change (_offsets (emit x d1)) with (_offsets d)
         end.
  subst f. rewrite xref_loop, ?_write_emit, ?emit_emit.
  change (trailer (emit _ d1)) with (trailer d).
  change (_offset d1) with (_offset d).
  destruct (convert (trailer d)) as [t|e].
  - right. exists (to_buffer (Str t)).
    rewrite ?_write_emit, ?emit_emit. unfold push_null, xref_lines, xref_table.
    rewrite <- ?app_assoc. cbn [map app]. by rewrite map_map.
  - left. exists e. rewrite ?emit_emit. unfold xref_lines, xref_table.
    rewrite <- ?app_assoc. cbn [map app]. by rewrite map_map.
Qed.

Lemma split_last_None {A} (l pre post : list (option A)) :
  l ++ [None] = pre ++ None :: post →
  (post = [] ∧ pre = l) ∨ (∃ post', l = pre ++ None :: post').
Proof.
  destruct post as [|p post _] using rev_ind; intros H.
  - left. apply app_inj_tail in H as [-> _]. done.
  - right. change (l ++ [None] = pre ++ (None :: post) ++ [p]) in H.
    rewrite app_assoc in H. apply app_inj_tail in H as [-> _]. eauto.
Qed.

Lemma no_Null_is_Offset (l : list slot) :
  length (filter (fun s => s = Null) l) = 0%nat →
  Forall (fun s => s ≠ Undefined) l → Forall is_Offset l.
Proof.
  induction l as [|s l IH]; intros Hn Hu; [done |].
  rewrite filter_cons in Hn. apply Forall_cons in Hu as [Hs Hu].
  destruct (decide (s = Null)) as [->|Hne]; [done |].
  constructor; [| by apply IH].
  destruct s; [done | done | by eexists].
Qed.

Lemma good_finalize s d :
  good d → _waiting d = 0 → (s = FromRefEnd → _ended d = true) →
  good (fst (_finalize s d)).
Proof.
  intros Hg Hw0 Hs.
  set (d1 := with_log (log d ++ [Finalize s (_waiting d) (_ended d) (_offsets d)]) d).
  assert (Hg1 : good d1).
  { destruct Hg as [Ho Hh Hd He Hw Hf Hm]. split; simpl; try done.
    - intros pre post H. by apply table_before_mono, He with post.
    - intros Hfr. by apply Hw, (fresh_app _ _ Hfr).
    - intros s' w e offs Hin. apply elem_of_app in Hin as [Hin|Hin].
      + destruct (Hf s' w e offs Hin) as (? & ? & ? & Hfo).
        split; [done |]. split; [done |]. split; [done |].
        intros Hfr. by apply Hfo, (fresh_app _ _ Hfr).
      + apply list_elem_of_singleton in Hin. injection Hin as -> -> -> ->.
        split; [done |]. split; [done |]. split; [done |].
        intros Hfr. apply fresh_app in Hfr. split; [| done].
        destruct (Hw Hfr) as [Hn Hu]. apply no_Null_is_Offset; [lia | done]. }
  destruct (_finalize_spec s d) as [[e ->]|[t ->]]; fold d1; cbn [fst].
  - by apply good_emit.
  - set (out := xref_lines d ++ _).
    pose proof (good_emit out d1 Hg1) as [Ho Hh Hd He Hw Hf Hm].
    split; simpl; try done.
    + simpl in Ho. rewrite bytes_app. simpl. lia.
    + intros k off H. apply header_at_app. by apply Hd.
    + intros pre post H.
      apply split_last_None in H as [[-> ->]|[post' H]]; [| by eapply He].
      exists (pushed d), s, (_waiting d), (_ended d), (_offsets d),
        (map Some [to_buffer (Str "trailer"); t; to_buffer (Str "startxref");
                   to_buffer (Str (pretty (_offset d))); to_buffer (Str "%%EOF")]).
      repeat split.
      * apply elem_of_app. right. by apply list_elem_of_singleton.
      * unfold out, xref_lines, xref_section. rewrite map_app, map_map. done.
      * intros k off H. by apply (g_hdr d Hg).
Qed.

(** *** The trailer *)

Lemma in_range_inject (z : Z) :
  - 10 ^ 21 < z < 10 ^ 21 → in_range (inject_Z z) = true.
Proof.
  intros Hz. unfold in_range. apply andb_true_iff. split; apply Qlt_bool_iff.
  - unfold Num.e21. rewrite <- inject_Z_opp, <- Zlt_Qlt. lia.
  - unfold Num.e21. rewrite <- Zlt_Qlt. lia.
Qed.

(** The document has fewer than 10^21 objects, as every array of
    JavaScript has, so that [number] accepts the trailer's [Size]. *)
Definition small (d : PDFDocument) : Prop :=
  Z.of_nat (length (_offsets d)) + 1 < 10 ^ 21.

Lemma trailer_converts d : small d → ∃ t, convert (trailer d) = Ok t.
Proof.
  intros Hn. apply (proj1 (converts_all (trailer d))).
  unfold trailer. cbn [numbers_in_range forallb snd].
  rewrite in_range_inject by (unfold small in Hn; lia). by destruct (_info d).
Qed.

Lemma _finalize_ok s d t :
  convert (trailer d) = Ok t →
  _finalize s d
  = (push_null (emit (xref_lines d ++
       [to_buffer (Str "trailer"); to_buffer (Str t);
        to_buffer (Str "startxref");
        to_buffer (Str (pretty (_offset d))); to_buffer (Str "%%EOF")])
       (with_log (log d ++ [Finalize s (_waiting d) (_ended d) (_offsets d)]) d)),
     None).
Proof.
  intros Ht. unfold _finalize. cbv zeta.
  set (d1 := with_log _ d).
  set (f := fun (d : PDFDocument) (offset : slot) =>
              _write (Str (xref_entry offset)) d).
  rewrite !_write_emit, !emit_emit.
  repeat match goal with
         | |- context [_offsets (emit ?x d1)] =>
             change (_offsets (emit x d1)) with (_offsets d)
         end.
  subst f. rewrite xref_loop, ?_write_emit, ?emit_emit.
  change (trailer (emit _ d1)) with (trailer d).
  change (_offset d1) with (_offset d).
  rewrite Ht.
  rewrite ?_write_emit, ?emit_emit. unfold push_null, xref_lines, xref_table.
  rewrite <- ?app_assoc. cbn [map app]. by rewrite map_map.
Qed.

Definition keeps (a : action) : Prop := ∀ d, good d → good (fst (a d)).

Lemma keeps_skip : keeps skip.
Proof. by intros d. Qed.

Lemma keeps_seq a b : keeps a → keeps b → keeps (seq a b).
Proof.
  intros Ha Hb d Hg. unfold seq. specialize (Ha d Hg).
  destruct (a d) as [d' [e|]]; [done |]. by apply Hb.
Qed.

Lemma keeps_seq_all l : Forall keeps l → keeps (seq_all l).
Proof.
  induction 1 as [|a l Ha _ IH]; simpl; [apply keeps_skip |].
  by apply keeps_seq.
Qed.

Lemma filter_Null_insert (l : list slot) (k : nat) (z : Z) :
  l !! k = Some Null →
  S (length (filter (fun s => s = Null) (<[k := Offset z]> l))) =
  length (filter (fun s => s = Null) l).
Proof.
  revert k. induction l as [|s l IH]; intros [|k] H; try done; simpl in *.
  - injection H as ->. by rewrite !filter_cons.
  - rewrite !filter_cons. destruct (decide (s = Null)); simpl; by rewrite IH.
Qed.

Lemma array_set_in_range (l : list slot) (k : nat) (v : slot) :
  (k < length l)%nat → array_set k v l = <[k := v]> l.
Proof.
  intros H. unfold array_set.
  destruct (k <? length l)%nat eqn:E; [done |].
  apply Nat.ltb_ge in E. lia.
Qed.

Lemma prefix_insert_Null (offs l : list slot) (k : nat) (v : slot) :
  offs `prefix_of` l → Forall is_Offset offs → l !! k = Some Null →
  offs `prefix_of` <[k := v]> l.
Proof.
  intros [rest ->] Hall Hk.
  destruct (decide (k < length offs)%nat) as [Hlt|Hge].
  - rewrite lookup_app_l in Hk by done.
    destruct (proj1 (Forall_lookup _ _) Hall k Null Hk) as [z Hz]. done.
  - rewrite insert_app_r_alt by lia. by eexists.
Qed.

Lemma good_refEnd r d off :
  good d → (1 ≤ id r ≤ length (_offsets d))%nat → offset r = Offset off →
  header_at (id r) off (pushed d) → good (fst (_refEnd r d)).
Proof.
  intros Hg Hid Hoff Hhd. unfold _refEnd. cbv zeta.
  destruct (id r) as [|k] eqn:Hk; [lia |].
  rewrite array_set_in_range by (simpl; lia). rewrite Hoff.
  set (d1 := with_log _ d).
  set (d2 := with_store _ _ d1).
  assert (Hg2 : good d2).
  { destruct Hg as [Ho Hh Hd He Hw Hf Hm]. split; simpl; try done.
    - intros i r' H. rewrite length_insert. by apply Hh.
    - intros j o H. destruct (decide (j = k)) as [->|Hne].
      + rewrite list_lookup_insert_eq in H by lia. by injection H as <-.
      + rewrite list_lookup_insert_ne in H by done. by apply Hd.
    - intros pre post H. by apply table_before_mono, He with post.
    - intros Hfr.
      assert (Hk0 : _offsets d !! k = Some Null).
      { apply (Hfr (S k)). apply elem_of_app. right. by apply list_elem_of_singleton. }
      destruct (Hw (fresh_app _ _ Hfr)) as [Hn Hu]. split.
      + pose proof (filter_Null_insert _ _ off Hk0). lia.
      + apply Forall_insert; done.
    - intros s w e offs Hin. apply elem_of_app in Hin as [Hin|Hin];
        [| by apply list_elem_of_singleton in Hin].
      destruct (Hf s w e offs Hin) as (? & ? & ? & Hfo).
      rewrite length_insert. split; [done |]. split; [done |]. split; [done |].
      intros Hfr. destruct (Hfo (fresh_app _ _ Hfr)) as [Hall Hpre].
      split; [done |]. apply prefix_insert_Null; [done | done |].
      apply (Hfr (S k)). apply elem_of_app. right. by apply list_elem_of_singleton.
    - intros i Hi. rewrite length_insert in Hi. by apply Hm. }
  destruct ((_waiting d2 =? 0) && _ended d2) eqn:E; [| done].
  apply andb_true_iff in E as [Ew Ee]. apply Z.eqb_eq in Ew.
  pose proof (good_finalize FromRefEnd d2 Hg2 Ew (fun _ => Ee)) as Hg3.
  unfold seq. destruct (_finalize FromRefEnd d2) as [d3 [e|]]; [done |].
  by apply good_with_ended.
Qed.

Lemma header_at_end d i :
  good d → header_at i (_offset d) (pushed d ++ [Some (header_line i)]).
Proof.
  intros Hg. exists (pushed d), []. split; [done |]. symmetry. apply Hg.
Qed.

Lemma header_at_write i off c d :
  header_at i off (pushed d) → header_at i off (pushed (_write c d)).
Proof. apply header_at_app. Qed.

Lemma obj_header_line r :
  gen r = 0%nat → to_buffer (Str (obj_header r)) = header_line (id r).
Proof. intros H. unfold obj_header, header_line. by rewrite H. Qed.

Lemma good_Pages_finalize r d :
  good d → deref (id r) d = Some r → good (fst (Pages_finalize r d)).
Proof.
  intros Hg Hr. unfold Pages_finalize. cbv zeta.
  destruct (g_heap d Hg _ r Hr) as (_ & Hgen & Hrange).
  set (r1 := set_offset (Offset (_offset d)) r).
  set (d1 := update_ref r1 d).
  assert (Hg1 : good d1) by (by apply good_update_ref).
  set (d2 := _write (Str (obj_header r1)) d1).
  assert (Hg2 : good d2) by (by apply good_write).
  assert (Hh2 : header_at (id r) (_offset d) (pushed d2)).
  { unfold d2, _write. simpl.
    change (obj_header r1 +:+ nl) with (to_buffer (Str (obj_header r))).
    rewrite obj_header_line by done. by apply header_at_end. }
  destruct (all_buffers _) as [kids|].
  - apply good_refEnd with (off := _offset d); try done.
    + by repeat apply good_write.
    + by do 6 apply header_at_write.
  - cbn [fst]. by repeat apply good_write.
Qed.

Lemma keeps_finalize i : keeps (finalize i).
Proof.
  intros d Hg. unfold finalize. destruct (deref i d) as [r|] eqn:Hr; [| done].
  destruct (g_heap d Hg _ r Hr) as (<- & _).
  destruct (own_finalize r); [by apply good_Pages_finalize |].
  by apply good_with_timers.
Qed.

Lemma write_id c r : id (write c r) = id r ∧ gen (write c r) = gen r.
Proof.
  unfold write. cbv zeta.
  destruct (is_nullish _); destruct (compress _); done.
Qed.

Lemma keeps_ref_write i c : keeps (ref_write i c).
Proof.
  intros d Hg. unfold ref_write. destruct (deref i d) as [r|] eqn:Hr; [| done].
  destruct (g_heap d Hg _ r Hr) as (<- & Hgen & Hrange).
  destruct (write_id c r) as [Hi Hge]. cbn [fst].
  apply good_update_ref; [done | congruence | by rewrite Hi].
Qed.

Lemma keeps_ref_end i c : keeps (ref_end i c).
Proof.
  apply keeps_seq; [| apply keeps_finalize].
  destruct c as [c|]; [| apply keeps_skip].
  destruct (chunk_truthy c); [apply keeps_ref_write | apply keeps_skip].
Qed.

Lemma keeps_page_end p : keeps (page_end p).
Proof.
  unfold page_end.
  apply keeps_seq; [apply keeps_ref_end |].
  apply keeps_seq; apply keeps_ref_end.
Qed.

Lemma keeps_flushPages : keeps flushPages.
Proof.
  intros d Hg. unfold flushPages. cbv zeta.
  apply keeps_seq_all; [| by apply good_with_pages].
  apply Forall_map, Forall_true. intros p. apply keeps_page_end.
Qed.

Lemma keeps_run_call c : keeps (run_call c).
Proof.
  destruct c as [data|i key v|i chunk|i chunk]; simpl.
  - intros d Hg. by apply good_ref.
  - intros d Hg. cbn [pure fst]. destruct (deref i d) as [r|] eqn:Hr; [| done].
    destruct (g_heap d Hg _ r Hr) as (<- & Hgen & Hrange).
    by apply good_update_ref.
  - apply keeps_ref_write.
  - apply keeps_ref_end.
Qed.

Lemma Pages_of_deref d r : Pages_of d = Some r → ∃ i, deref i d = Some r.
Proof.
  unfold Pages_of. destruct (deref (_root d) d) as [root|]; [| done].
  destruct (dict_get "Pages" (data root)) as [[]|]; try done. eauto.
Qed.

Lemma keeps_addPage w h : keeps (addPage w h).
Proof.
  apply keeps_seq.
  { intros d Hg. destruct (bufferPages d); [done | by apply keeps_flushPages]. }
  intros d Hg. unfold addPage. cbv zeta.
  destruct (ref None d) as [content d1] eqn:E1.
  assert (Hg1 : good d1) by (change d1 with (content, d1).2; rewrite <- E1; by apply good_ref).
  match goal with |- context [ref ?x d1] =>
    destruct (ref x d1) as [resources d2] eqn:E2;
    assert (Hg2 : good d2)
      by (change d2 with (resources, d2).2; rewrite <- E2; by apply good_ref)
  end.
  match goal with |- context [ref ?x d2] =>
    destruct (ref x d2) as [dictionary d3] eqn:E3;
    assert (Hg3 : good d3)
      by (change d3 with (dictionary, d3).2; rewrite <- E3; by apply good_ref)
  end.
  set (d4 := with_pages _ _ _ d3).
  assert (Hg4 : good d4) by (by apply good_with_pages).
  destruct (Pages_of d4) as [pages|] eqn:Hp; [| done].
  destruct (Pages_of_deref _ _ Hp) as [i Hi].
  destruct (g_heap d4 Hg4 _ _ Hi) as (<- & Hgen & Hrange).
  destruct (dict_get "Kids" (data pages)) as [[]|]; try done.
  set (d5 := update_ref _ d4).
  assert (Hg5 : good d5) by (by apply good_update_ref).
  destruct (transform_values _); [| done].
  by apply keeps_ref_write.
Qed.

Lemma keeps_end_prepare info fonts outline :
  keeps (end_prepare info fonts outline).
Proof.
  unfold end_prepare.
  apply keeps_seq; [| apply keeps_seq; [| apply keeps_seq; [| apply keeps_seq;
    [| apply keeps_seq]]]].
  - apply keeps_flushPages.
  - intros d Hg. destruct (ref None d) as [i d1] eqn:E1.
    assert (Hg1 : good d1)
      by (change d1 with (i, d1).2; rewrite <- E1; by apply good_ref).
    apply keeps_ref_end.
    assert (Hg2 : good (with_info (Some i) d1)) by (by apply good_with_info).
    destruct (deref i (with_info (Some i) d1)) as [r|] eqn:Hr; [| done].
    destruct (g_heap _ Hg2 _ r Hr) as (Hid & Hgen & Hrange).
    apply good_update_ref; simpl; [done | done | by rewrite Hid].
  - apply keeps_seq_all, Forall_map, Forall_true. intros c. apply keeps_run_call.
  - apply keeps_seq_all, Forall_map, Forall_true. intros c. apply keeps_run_call.
  - intros d Hg. by apply keeps_ref_end.
  - intros d Hg. destruct (Pages_of d); [| done]. by apply keeps_ref_end.
Qed.

Lemma keeps_doc_end info fonts outline : keeps (doc_end info fonts outline).
Proof.
  apply keeps_seq; [apply keeps_end_prepare |].
  intros d Hg. unfold end_decides. destruct (_waiting d =? 0) eqn:E.
  - apply Z.eqb_eq in E. by apply good_finalize.
  - by apply good_with_ended.
Qed.

Lemma good_new c b : good (new_PDFDocument c b).
Proof.
  unfold new_PDFDocument. cbv zeta.
  set (d0 := mkDoc _ _ _ _ _ _ _ _ _ _ _ _ _ _ _).
  assert (Hg0 : good d0).
  { split; simpl.
    - done.
    - intros i r H. by rewrite lookup_empty in H.
    - intros k off H. by rewrite lookup_nil in H.
    - intros pre post H. by destruct pre.
    - intros _. split; [done | constructor].
    - intros s w e offs H. by apply elem_of_nil in H.
    - intros i Hi. lia. }
  destruct (ref _ d0) as [pages d1] eqn:E1.
  assert (Hg1 : good d1)
    by (change d1 with (pages, d1).2; rewrite <- E1; by apply good_ref).
  match goal with |- context [match deref pages d1 with _ => _ end] =>
    set (d2 := match deref pages d1 with Some r => _ | None => d1 end) end.
  assert (Hg2 : good d2).
  { unfold d2. destruct (deref pages d1) as [r|] eqn:Hr; [| done].
    destruct (g_heap _ Hg1 _ r Hr) as (<- & Hgen & Hrange).
    by apply good_update_ref. }
  destruct (ref _ d2) as [root d3] eqn:E3.
  assert (Hg3 : good d3)
    by (change d3 with (root, d3).2; rewrite <- E3; by apply good_ref).
  match goal with |- context [ref ?x (with_root root d3)] =>
    destruct (ref x (with_root root d3)) as [o d4] eqn:E4;
    assert (Hg4 : good d4)
      by (change d4 with (o, d4).2; rewrite <- E4;
          by apply good_ref, good_with_root)
  end.
  by repeat apply good_write.
Qed.

Section WithDeflate.
Variable deflateSync : string → string.

Lemma keeps_finalize_task i : keeps (finalize_task deflateSync i).
Proof.
  intros d Hg. unfold finalize_task.
  destruct (deref i d) as [r|] eqn:Hr; [| done]. cbv zeta.
  destruct (g_heap d Hg i r Hr) as (Hid & Hgen & Hrange). subst i.
  set (r1 := set_offset (Offset (_offset d)) r).
  set (d1 := update_ref r1 d).
  assert (Hg1 : good d1) by (by apply good_update_ref).
  set (d2 := _write (Str (obj_header r1)) d1).
  assert (Hg2 : good d2) by (by apply good_write).
  assert (Hh2 : header_at (id r) (_offset d) (pushed d2)).
  { unfold d2, _write. simpl.
    change (obj_header r1 +:+ nl) with (to_buffer (Str (obj_header r))).
    rewrite obj_header_line by done. by apply header_at_end. }
  destruct (convert (VDict (data r1))) as [dict|e]; [| done].
  set (d3 := _write (Str dict) d2).
  assert (Hg3 : good d3) by (by apply good_write).
  assert (Hh3 : header_at (id r) (_offset d) (pushed d3))
    by (by apply header_at_app).
  match goal with
  | |- good (fst (let '(r', d') := ?X in _)) =>
      assert (Hx : good X.2 ∧ id X.1 = id r ∧ gen X.1 = 0%nat ∧
                   offset X.1 = Offset (_offset d) ∧
                   header_at (id r) (_offset d) (pushed X.2) ∧
                   _offsets X.2 = _offsets d);
      [| destruct X as [r4 d4]; cbn [fst snd] in Hx;
         destruct Hx as (Hg4 & Hid4 & Hgen4 & Hoff4 & Hh4 & Hl4)]
  end.
  { destruct (0 <? length (buffer r1))%nat; [| done].
    destruct (compress r1); cbn [fst snd];
      (split; [by repeat apply good_write |]);
      repeat split; try done; by do 3 apply header_at_write. }
  apply good_refEnd with (off := _offset d); simpl; try done.
  - apply good_write, good_update_ref; try done. by rewrite Hid4, Hl4.
  - by rewrite Hid4, Hl4.
  - rewrite Hid4. by apply header_at_app.
Qed.

Lemma keeps_fire k : keeps (fire deflateSync k).
Proof.
  intros d Hg. unfold fire. destruct (timers d !! k); [| done].
  by apply keeps_finalize_task, good_with_timers.
Qed.

Lemma keeps_perform e : keeps (perform deflateSync e).
Proof.
  destruct e; simpl.
  - apply keeps_run_call.
  - apply keeps_addPage.
  - intros d Hg. unfold switchToPage. cbn [fst].
    destruct (array_get _ _); [by apply good_with_pages | done].
  - apply keeps_flushPages.
  - apply keeps_fire.
  - apply keeps_doc_end.
Qed.

Lemma good_step d e : good d → good (step deflateSync d e).
Proof. apply keeps_perform. Qed.

Lemma good_run tr d : good d → good (run deflateSync tr d).
Proof.
  revert d. induction tr as [|e tr IH]; intros d Hg; [done |].
  apply IH. by apply good_step.
Qed.

Lemma good_reachable c b tr :
  good (run deflateSync tr (new_PDFDocument c b)).
Proof. apply good_run, good_new. Qed.

End WithDeflate.

End StoreFacts.

(** ** When the document is finalized *)

Module OrderFacts.
Import PDFObject Store StringFacts ObjectFacts StoreFacts.

Definition flag (b : bool) : nat := if b then 1%nat else 0%nat.

(** Ends of stream so far, plus one when [_ended] promises another. *)
Definition due (d : PDFDocument) : nat := (eofs d + flag (_ended d))%nat.

(** Calls of [_finalize] so far, plus one when [_ended] promises another. *)
Definition owed (d : PDFDocument) : nat :=
  (finalize_calls d + flag (_ended d))%nat.

(** A mark of [_finalize] called by [end()] itself. *)
Definition from_end (m : mark) : Prop :=
  match m with Finalize FromEnd _ _ _ => True | _ => False end.

(** From [d] to [d'] the log has grown, and not by a call of [_finalize]
    made by [end()] itself. *)
Definition ext (d d' : PDFDocument) : Prop :=
  ∃ more, log d' = log d ++ more ∧ Forall (fun m => ¬ from_end m) more.

Lemma ext_refl d : ext d d.
Proof. exists []. by rewrite app_nil_r. Qed.

Lemma ext_same_log d d' : log d' = log d → ext d d'.
Proof. intros H. exists []. by rewrite app_nil_r. Qed.

Lemma ext_trans d1 d2 d3 : ext d1 d2 → ext d2 d3 → ext d1 d3.
Proof.
  intros (m1 & H1 & F1) (m2 & H2 & F2). exists (m1 ++ m2).
  rewrite H2, H1, <- app_assoc. split; [done |]. by apply Forall_app.
Qed.

(** From [d] to [d'] nothing is finalized that was not due, and nothing
    at all while [_ended] is unset; no object is forgotten; and [end()]
    has not called [_finalize]. *)
Definition calm (d d' : PDFDocument) : Prop :=
  (due d' ≤ due d)%nat ∧
  (_ended d = false →
   _ended d' = false ∧ finalize_calls d' = finalize_calls d ∧ eofs d' = eofs d) ∧
  (length (_offsets d) ≤ length (_offsets d'))%nat ∧
  (small d' → (owed d' ≤ owed d)%nat) ∧
  ext d d'.

(** The three observations are untouched, no object is forgotten, and
    [end()] has not called [_finalize]. *)
Definition same (d d' : PDFDocument) : Prop :=
  eofs d' = eofs d ∧ _ended d' = _ended d ∧
  finalize_calls d' = finalize_calls d ∧
  (length (_offsets d) ≤ length (_offsets d'))%nat ∧
  ext d d'.

Lemma same_calm d d' : same d d' → calm d d'.
Proof.
  intros (He & Hn & Hf & Hl & Hx). unfold calm, due, owed. rewrite He, Hn, Hf.
  split; [lia |]. split; [| split; [done | split; [lia | done]]].
  intros H. by rewrite H.
Qed.

Lemma same_frame d d' :
  pushed d' = pushed d → _ended d' = _ended d → log d' = log d →
  (length (_offsets d) ≤ length (_offsets d'))%nat → same d d'.
Proof.
  intros Hp He Hl Ho. unfold same, eofs, finalize_calls. rewrite Hp, He, Hl.
  repeat split; [done |]. by apply ext_same_log.
Qed.

Lemma same_refl d : same d d.
Proof. by apply same_frame. Qed.

Lemma calm_refl d : calm d d.
Proof. apply same_calm, same_refl. Qed.

Lemma small_le d d' :
  (length (_offsets d) ≤ length (_offsets d'))%nat → small d' → small d.
Proof. unfold small. lia. Qed.

Lemma calm_trans d1 d2 d3 : calm d1 d2 → calm d2 d3 → calm d1 d3.
Proof.
  intros (Ha & Hb & Hl & Ho & Hx) (Hc & Hd & Hl' & Ho' & Hx').
  split; [lia |]. split; [| split; [lia | split; [| by eapply ext_trans]]].
  - intros H. destruct (Hb H) as (H2 & Hf2 & He2).
    destruct (Hd H2) as (H3 & Hf3 & He3). repeat split; congruence.
  - intros Hs. specialize (Ho' Hs). specialize (Ho (small_le _ _ Hl' Hs)). lia.
Qed.

Definition quiet (a : action) : Prop := ∀ d, calm d (fst (a d)).

Lemma quiet_skip : quiet skip.
Proof. intros d. apply calm_refl. Qed.

Lemma quiet_seq a b : quiet a → quiet b → quiet (seq a b).
Proof.
  intros Ha Hb d. unfold seq. specialize (Ha d).
  destruct (a d) as [d' [e|]]; [done |].
  eapply calm_trans; [apply Ha | apply Hb].
Qed.

Lemma quiet_seq_all l : Forall quiet l → quiet (seq_all l).
Proof.
  induction 1 as [|a l Ha _ IH]; simpl; [apply quiet_skip |].
  by apply quiet_seq.
Qed.

Lemma eofs_emit bs d : eofs (emit bs d) = eofs d.
Proof.
  unfold eofs. simpl. rewrite filter_app, length_app.
  replace (filter (fun c => c = None) (map Some bs)) with (@nil (option string));
    [simpl; lia |].
  induction bs as [|b bs IH]; [done |]. simpl. by rewrite filter_cons.
Qed.

Lemma same_emit bs d : same d (emit bs d).
Proof.
  split; [apply eofs_emit |]. repeat split; [done |]. by apply ext_same_log.
Qed.

Lemma same_write c d : same d (_write c d).
Proof. rewrite _write_emit. apply same_emit. Qed.

Lemma same_trans d1 d2 d3 : same d1 d2 → same d2 d3 → same d1 d3.
Proof.
  intros (? & ? & ? & ? & ?) (? & ? & ? & ? & ?).
  split; [congruence |]. split; [congruence |]. split; [congruence |].
  split; [lia | by eapply ext_trans].
Qed.

Lemma same_update_ref r d : same d (update_ref r d).
Proof. by apply same_frame. Qed.

Lemma same_ref data d : same d (snd (ref data d)).
Proof.
  apply same_frame; try done. unfold ref. cbn. rewrite length_app. lia.
Qed.

Lemma finalize_calls_app d l :
  length (filter is_Finalize (log d ++ l)) =
  (finalize_calls d + length (filter is_Finalize l))%nat.
Proof. by rewrite filter_app, length_app. Qed.

Lemma eofs_push_null d : eofs (push_null d) = S (eofs d).
Proof.
  unfold eofs. simpl. rewrite filter_app, length_app.
  change (filter (λ c : option string, c = None) [None]) with [@None string].
  simpl. lia.
Qed.

Lemma finalize_calls_log s w e o d :
  finalize_calls (with_log (log d ++ [Finalize s w e o]) d) = S (finalize_calls d).
Proof.
  unfold finalize_calls. simpl. rewrite filter_app, length_app.
  change (filter is_Finalize [Finalize s w e o]) with [Finalize s w e o].
  simpl. lia.
Qed.

Lemma finalize_calls_RefEnd i b d :
  finalize_calls (with_log (log d ++ [RefEnd i b]) d) = finalize_calls d.
Proof.
  unfold finalize_calls. simpl. rewrite filter_app, length_app.
  change (filter is_Finalize [RefEnd i b]) with (@nil mark).
  simpl. lia.
Qed.

(** [_finalize] is entered once, and ends the stream once unless it
    throws. *)
Lemma finalize_effect s d :
  let d' := fst (_finalize s d) in
  _ended d' = _ended d ∧ finalize_calls d' = S (finalize_calls d) ∧
  eofs d' = (eofs d + match snd (_finalize s d) with
                      | None => 1
                      | Some _ => 0
                      end)%nat.
Proof.
  destruct (_finalize_spec s d) as [[e ->]|[t ->]]; cbn [fst snd].
  - repeat split.
    + apply (finalize_calls_log s _ _ _ d).
    + rewrite eofs_emit. unfold eofs. simpl. lia.
  - repeat split.
    + apply (finalize_calls_log s _ _ _ d).
    + rewrite eofs_push_null, eofs_emit. unfold eofs. simpl. lia.
Qed.

(** [_finalize] leaves the offsets as they are, and with fewer than 10^21
    objects it does not throw. *)
Lemma finalize_offsets s d : _offsets (fst (_finalize s d)) = _offsets d.
Proof. by destruct (_finalize_spec s d) as [[e ->]|[t ->]]. Qed.

Lemma finalize_log s d :
  log (fst (_finalize s d))
  = log d ++ [Finalize s (_waiting d) (_ended d) (_offsets d)].
Proof. by destruct (_finalize_spec s d) as [[e ->]|[t ->]]. Qed.

Lemma finalize_completes s d : small d → snd (_finalize s d) = None.
Proof.
  intros H. destruct (trailer_converts d H) as [t Ht].
  by rewrite (_finalize_ok s d t Ht).
Qed.

Lemma length_array_set k v (l : list slot) :
  (length l ≤ length (array_set k v l))%nat.
Proof.
  unfold array_set. destruct (k <? length l)%nat.
  - by rewrite length_insert.
  - rewrite length_app. lia.
Qed.

Lemma quiet_refEnd r : quiet (_refEnd r).
Proof.
  intros d. unfold _refEnd. cbv zeta.
  set (d2 := with_store _ _ _).
  assert (H2 : same d d2).
  { split; [done |]. split; [done |].
    split; [apply finalize_calls_RefEnd |]. split.
    - simpl. destruct (id r); [done | apply length_array_set].
    - eexists. split; [reflexivity |]. apply Forall_singleton. by intros []. }
  destruct ((_waiting d2 =? 0) && _ended d2) eqn:E;
    [| by apply same_calm].
  apply andb_true_iff in E as [_ Ee].
  destruct H2 as (He2 & Hn2 & Hf2 & Hl2 & Hx2).
  destruct (finalize_effect FromRefEnd d2) as (Hn & Hf & He).
  pose proof (finalize_offsets FromRefEnd d2) as Ho.
  pose proof (finalize_completes FromRefEnd d2) as Hc.
  pose proof (finalize_log FromRefEnd d2) as Hlog.
  assert (Hx3 : ext d (fst (_finalize FromRefEnd d2))).
  { eapply ext_trans; [exact Hx2 |]. eexists. split; [exact Hlog |].
    apply Forall_singleton. by intros []. }
  unfold seq. destruct (_finalize FromRefEnd d2) as [d3 [e|]]; cbn [fst snd] in *.
  - split; [| split; [congruence | split; [| split]]].
    + unfold due. rewrite Hn, He, <- Hn2, Ee, He2. lia.
    + by rewrite Ho.
    + intros Hs. unfold small in Hs. rewrite Ho in Hs. by specialize (Hc Hs).
    + exact Hx3.
  - split; [| split; [congruence | split; [| split]]].
    + unfold due. simpl. change (eofs (with_ended false d3)) with (eofs d3).
      rewrite He, <- Hn2, Ee, He2. simpl. lia.
    + simpl. by rewrite Ho.
    + intros _. unfold owed. simpl.
      change (finalize_calls (with_ended false d3)) with (finalize_calls d3).
      rewrite Hf, Hf2, <- Hn2, Ee. simpl. lia.
    + exact Hx3.
Qed.

Lemma same_after_write d d1 c : same d d1 → same d (_write c d1).
Proof. intros H. eapply same_trans; [apply H | apply same_write]. Qed.

Lemma same_after_update d d1 r : same d d1 → same d (update_ref r d1).
Proof. done. Qed.

Lemma same_after_ref d d1 data : same d d1 → same d (snd (ref data d1)).
Proof. intros H. eapply same_trans; [apply H | apply same_ref]. Qed.

Lemma same_after_timers d d1 t : same d d1 → same d (with_timers t d1).
Proof. done. Qed.

Lemma same_after_pages d d1 pb st pg : same d d1 → same d (with_pages pb st pg d1).
Proof. done. Qed.

Lemma same_after_info d d1 i : same d d1 → same d (with_info i d1).
Proof. done. Qed.

Ltac same_steps :=
  repeat first
    [ apply same_after_write | apply same_after_update
    | apply same_after_timers | apply same_after_pages
    | apply same_after_info ];
  try apply same_refl.

Lemma calm_after d d1 a :
  same d d1 → quiet a → calm d (fst (a d1)).
Proof.
  intros H Ha. eapply calm_trans; [apply same_calm, H | apply Ha].
Qed.

Lemma quiet_Pages_finalize r : quiet (Pages_finalize r).
Proof.
  intros d. unfold Pages_finalize. cbv zeta.
  destruct (all_buffers _).
  - apply calm_after; [same_steps | apply quiet_refEnd].
  - apply same_calm. cbn [fst]. same_steps.
Qed.

Lemma quiet_finalize i : quiet (finalize i).
Proof.
  intros d. unfold finalize. destruct (deref i d) as [r|]; [| apply calm_refl].
  destruct (own_finalize r); [apply quiet_Pages_finalize |].
  apply same_calm. cbn [fst]. same_steps.
Qed.

Lemma quiet_ref_write i c : quiet (ref_write i c).
Proof.
  intros d. unfold ref_write. destruct (deref i d); apply same_calm; cbn [fst];
    same_steps.
Qed.

Lemma quiet_ref_end i c : quiet (ref_end i c).
Proof.
  apply quiet_seq; [| apply quiet_finalize].
  destruct c as [c|]; [| apply quiet_skip].
  destruct (chunk_truthy c); [apply quiet_ref_write | apply quiet_skip].
Qed.

Lemma quiet_page_end p : quiet (page_end p).
Proof.
  unfold page_end.
  apply quiet_seq; [apply quiet_ref_end |].
  apply quiet_seq; apply quiet_ref_end.
Qed.

Lemma quiet_flushPages : quiet flushPages.
Proof.
  intros d. unfold flushPages. cbv zeta.
  apply calm_after; [same_steps |].
  apply quiet_seq_all, Forall_map, Forall_true. intros p. apply quiet_page_end.
Qed.

Lemma quiet_run_call c : quiet (run_call c).
Proof.
  destruct c as [data|i key v|i chunk|i chunk]; simpl.
  - intros d. apply same_calm, same_ref.
  - intros d. cbn [pure fst]. destruct (deref i d); apply same_calm;
      [apply same_update_ref | apply same_refl].
  - apply quiet_ref_write.
  - apply quiet_ref_end.
Qed.

Lemma quiet_addPage w h : quiet (addPage w h).
Proof.
  apply quiet_seq.
  { intros d. destruct (bufferPages d); [apply calm_refl | apply quiet_flushPages]. }
  intros d. unfold addPage. cbv zeta.
  destruct (ref None d) as [content d1] eqn:E1.
  assert (H1 : same d d1) by (change d1 with (content, d1).2; rewrite <- E1; apply same_ref).
  match goal with |- context [ref ?x d1] =>
    destruct (ref x d1) as [resources d2] eqn:E2;
    assert (H2 : same d d2)
      by (change d2 with (resources, d2).2; rewrite <- E2; by apply same_after_ref)
  end.
  match goal with |- context [ref ?x d2] =>
    destruct (ref x d2) as [dictionary d3] eqn:E3;
    assert (H3 : same d d3)
      by (change d3 with (dictionary, d3).2; rewrite <- E3; by apply same_after_ref)
  end.
  destruct (Pages_of _) as [pages|]; [| by apply same_calm].
  destruct (dict_get "Kids" (data pages)) as [[]|]; try by apply same_calm.
  destruct (transform_values _); [| by apply same_calm].
  apply calm_after; [by same_steps | apply quiet_ref_write].
Qed.

Lemma quiet_end_prepare info fonts outline :
  quiet (end_prepare info fonts outline).
Proof.
  unfold end_prepare.
  apply quiet_seq; [| apply quiet_seq; [| apply quiet_seq; [| apply quiet_seq;
    [| apply quiet_seq]]]].
  - apply quiet_flushPages.
  - intros d. destruct (ref None d) as [i d1] eqn:E1.
    assert (H1 : same d d1) by (change d1 with (i, d1).2; rewrite <- E1; apply same_ref).
    apply calm_after; [| apply quiet_ref_end].
    destruct (deref i (with_info (Some i) d1)); by same_steps.
  - apply quiet_seq_all, Forall_map, Forall_true. intros c. apply quiet_run_call.
  - apply quiet_seq_all, Forall_map, Forall_true. intros c. apply quiet_run_call.
  - intros d. apply quiet_ref_end.
  - intros d. destruct (Pages_of d); [apply quiet_ref_end | apply calm_refl].
Qed.

Lemma end_decides_due d : (due (fst (end_decides d)) ≤ S (due d))%nat.
Proof.
  unfold end_decides. destruct (_waiting d =? 0).
  - destruct (finalize_effect FromEnd d) as (Hn & _ & He).
    unfold due. rewrite Hn, He. destruct (snd _); lia.
  - unfold due. simpl. change (eofs (with_ended true d)) with (eofs d).
    destruct (_ended d); simpl; lia.
Qed.

Lemma doc_end_due info fonts outline d :
  (due (fst (doc_end info fonts outline d)) ≤ S (due d))%nat.
Proof.
  unfold doc_end, seq.
  pose proof (quiet_end_prepare info fonts outline d) as [Hp _].
  destruct (end_prepare info fonts outline d) as [d1 [e|]]; cbn [fst] in *.
  - lia.
  - pose proof (end_decides_due d1). unfold end_decides in *. lia.
Qed.

Lemma end_decides_owed d :
  (owed (fst (end_decides d)) ≤ S (owed d))%nat ∧
  _offsets (fst (end_decides d)) = _offsets d.
Proof.
  unfold end_decides. destruct (_waiting d =? 0).
  - destruct (finalize_effect FromEnd d) as (Hn & Hf & _).
    split; [| apply finalize_offsets]. unfold owed. rewrite Hn, Hf. lia.
  - split; [| done]. unfold owed. simpl.
    change (finalize_calls (with_ended true d)) with (finalize_calls d).
    destruct (_ended d); simpl; lia.
Qed.

Lemma doc_end_owed info fonts outline d :
  let d' := fst (doc_end info fonts outline d) in
  (length (_offsets d) ≤ length (_offsets d'))%nat ∧
  (small d' → (owed d' ≤ S (owed d))%nat).
Proof.
  unfold doc_end, seq.
  pose proof (quiet_end_prepare info fonts outline d) as (_ & _ & Hl & Ho & _).
  destruct (end_prepare info fonts outline d) as [d1 [e|]]; cbn [fst] in *.
  - split; [done |]. intros Hs. specialize (Ho Hs). lia.
  - destruct (end_decides_owed d1) as [H1 H2]. rewrite H2. split; [done |].
    intros Hs. unfold small in Hs. rewrite H2 in Hs. specialize (Ho Hs). lia.
Qed.

Section WithDeflate.
Variable deflateSync : string → string.

Lemma quiet_finalize_task i : quiet (finalize_task deflateSync i).
Proof.
  intros d. unfold finalize_task. destruct (deref i d) as [r|];
    [| apply calm_refl].
  cbv zeta. destruct (convert _) as [dict|e];
    [| apply same_calm; cbn [fst]; same_steps].
  match goal with
  | |- calm d (fst (let '(r', d') := ?X in _)) =>
      assert (Hx : same d X.2); [| destruct X as [r4 d4]; cbn [snd] in Hx]
  end.
  { destruct (0 <? length (buffer _))%nat; [| cbn [snd]; same_steps].
    destruct (compress _); cbn [snd]; same_steps. }
  apply calm_after; [by same_steps | apply quiet_refEnd].
Qed.

Lemma quiet_fire k : quiet (fire deflateSync k).
Proof.
  intros d. unfold fire. destruct (timers d !! k); [| apply calm_refl].
  apply calm_after; [same_steps | apply quiet_finalize_task].
Qed.

(** Every unit of work other than [end()] is calm. *)
Lemma calm_step d e : ¬ is_End e → calm d (step deflateSync d e).
Proof.
  intros He. unfold step. destruct e; simpl.
  - apply quiet_run_call.
  - apply quiet_addPage.
  - unfold switchToPage. cbn [fst].
    destruct (array_get _ _); apply same_calm; by apply same_frame.
  - apply quiet_flushPages.
  - apply quiet_fire.
  - by destruct He.
Qed.

Lemma due_step d e :
  (due (step deflateSync d e) ≤ due d + flag (bool_decide (is_End e)))%nat.
Proof.
  destruct (decide (is_End e)) as [He|He].
  - rewrite bool_decide_eq_true_2 by done. destruct e; try done.
    unfold step. simpl. pose proof (doc_end_due info fonts outline d). lia.
  - rewrite bool_decide_eq_false_2 by done.
    destruct (calm_step d e He) as [H _]. simpl. lia.
Qed.

Lemma end_calls_cons e tr :
  end_calls (e :: tr) = (flag (bool_decide (is_End e)) + end_calls tr)%nat.
Proof.
  unfold end_calls. rewrite filter_cons.
  destruct (decide (is_End e)).
  - by rewrite bool_decide_eq_true_2.
  - by rewrite bool_decide_eq_false_2.
Qed.

Lemma due_run tr d :
  (due (run deflateSync tr d) ≤ due d + end_calls tr)%nat.
Proof.
  revert d. induction tr as [|e tr IH]; intros d; [simpl; lia |].
  rewrite end_calls_cons. simpl.
  pose proof (IH (step deflateSync d e)). pose proof (due_step d e). lia.
Qed.

Lemma owed_step d e :
  (length (_offsets d) ≤ length (_offsets (step deflateSync d e)))%nat ∧
  (small (step deflateSync d e) →
   (owed (step deflateSync d e) ≤ owed d + flag (bool_decide (is_End e)))%nat).
Proof.
  destruct (decide (is_End e)) as [He|He].
  - rewrite bool_decide_eq_true_2 by done. destruct e; try done.
    unfold step. simpl. destruct (doc_end_owed info fonts outline d) as [Hl Ho].
    split; [done |]. intros Hs. specialize (Ho Hs). lia.
  - rewrite bool_decide_eq_false_2 by done.
    destruct (calm_step d e He) as (_ & _ & Hl & Ho & _).
    split; [done |]. intros Hs. specialize (Ho Hs). simpl. lia.
Qed.

Lemma length_run tr d :
  (length (_offsets d) ≤ length (_offsets (run deflateSync tr d)))%nat.
Proof.
  revert d. induction tr as [|e tr IH]; intros d; [done |]. simpl.
  pose proof (IH (step deflateSync d e)). destruct (owed_step d e) as [Hl _].
  lia.
Qed.

Lemma owed_run tr d :
  small (run deflateSync tr d) →
  (owed (run deflateSync tr d) ≤ owed d + end_calls tr)%nat.
Proof.
  revert d. induction tr as [|e tr IH]; intros d Hs; [simpl; lia |].
  rewrite end_calls_cons. simpl in *.
  specialize (IH (step deflateSync d e) Hs).
  destruct (owed_step d e) as [_ Ho].
  specialize (Ho (small_le _ _ (length_run tr _) Hs)). lia.
Qed.

Lemma calm_run tr d :
  end_calls tr = 0%nat → calm d (run deflateSync tr d).
Proof.
  revert d. induction tr as [|e tr IH]; intros d H; [apply calm_refl |].
  rewrite end_calls_cons in H.
  destruct (decide (is_End e)) as [He|He].
  - rewrite bool_decide_eq_true_2 in H by done. simpl in H. lia.
  - rewrite bool_decide_eq_false_2 in H by done. simpl in *.
    eapply calm_trans; [by apply calm_step | by apply IH].
Qed.

End WithDeflate.

End OrderFacts.

(** ** More on the object store *)

Module StoreExtras.
Import PDFObject Store StringFacts StoreFacts OrderFacts ObjectFacts.

(** A document with two buffered pages and some content. *)
Definition two_pages : list event :=
  [AddPage 612 792; Call (CWrite 4 (Str "BT")); AddPage 612 792;
   Call (CWrite 7 (Buf "ET"))].

(** *** Offsets and ids *)

(** X8. Along every run, [_offset] is the number of bytes pushed so far. *)
Theorem offset_counts_pushed_bytes (deflateSync : string → string) (c b : bool)
    (tr : list event) :
  _offset (run deflateSync tr (new_PDFDocument c b))
  = bytes (pushed (run deflateSync tr (new_PDFDocument c b))).
Proof. apply g_off, good_reachable. Qed.

(** X9. Along every run, a reference is stored under its own id, its
    generation is 0 and its id lies between 1 and the number of objects
    allocated; [ref] hands out the next number, which no reference has yet,
    adds a null offset for it and counts it as waiting. *)
Theorem ids_are_sequential (deflateSync : string → string) (c b : bool)
    (tr : list event) (data : option Dict) :
  let d := run deflateSync tr (new_PDFDocument c b) in
  (∀ i r, deref i d = Some r →
     id r = i ∧ gen r = 0%nat ∧ (1 ≤ i ≤ length (_offsets d))%nat) ∧
  fst (ref data d) = S (length (_offsets d)) ∧
  deref (fst (ref data d)) d = None ∧
  deref (fst (ref data d)) (snd (ref data d))
    = Some (new_PDFReference d (S (length (_offsets d))) data) ∧
  _offsets (snd (ref data d)) = _offsets d ++ [Null] ∧
  _waiting (snd (ref data d)) = _waiting d + 1.
Proof.
  intros d. pose proof (good_reachable deflateSync c b tr) as Hg. fold d in Hg.
  split; [apply (g_heap d Hg) |].
  unfold ref. cbn [fst snd]. replace (length (_offsets d) + 1)%nat
    with (S (length (_offsets d))) by lia.
  split; [done |]. split.
  - destruct (deref (S (length (_offsets d))) d) as [r|] eqn:E; [| done].
    destruct (g_heap d Hg _ _ E) as (_ & _ & H). lia.
  - split; [| done]. unfold deref, update_ref. simpl. apply lookup_insert_eq.
Qed.

Lemma ids_are_sequential_witness :
  let d := run deflate_stored two_pages (new_PDFDocument true true) in
  (∃ r, deref 4 d = Some r ∧ id r = 4%nat) ∧ fst (ref None d) = 10%nat.
Proof.
  intros d.
  destruct (ids_are_sequential deflate_stored true true two_pages None)
    as (Hh & Hn & _).
  fold d in Hh, Hn. split.
  - destruct (deref 4 d) as [r|] eqn:E; [| by vm_compute in E].
    exists r. split; [done |]. by destruct (Hh 4%nat r E).
  - exact Hn.
Defined.

(** *** What is pushed, and when *)

Definition ordinary (c : call) (d : PDFDocument) : Prop :=
  match c with
  | CEnd i _ => ∀ r, deref i d = Some r → own_finalize r = false
  | _ => True
  end.

Lemma write_keeps_kind chunk r : own_finalize (write chunk r) = own_finalize r.
Proof.
  unfold write. cbv zeta. destruct (is_nullish _); destruct (compress _); done.
Qed.

Lemma write_keeps_offset chunk r : offset (write chunk r) = offset r.
Proof.
  unfold write. cbv zeta. destruct (is_nullish _); destruct (compress _); done.
Qed.

(** What stays as it is when a reference is written to: the output, the
    timers, the offsets, and of every reference its offset and its kind. *)
Definition untouched (d d1 : PDFDocument) : Prop :=
  pushed d1 = pushed d ∧ _offset d1 = _offset d ∧ timers d1 = timers d ∧
  _offsets d1 = _offsets d ∧
  (∀ j, deref j d = None → deref j d1 = None) ∧
  (∀ j r, deref j d = Some r →
     ∃ r1, deref j d1 = Some r1 ∧ offset r1 = offset r ∧
           own_finalize r1 = own_finalize r).

Lemma untouched_refl d : untouched d d.
Proof. repeat split; try done. intros j r E. by exists r. Qed.

Lemma untouched_update (d : PDFDocument) (i : nat) (r r1 : PDFReference) :
  deref i d = Some r → id r1 = i → offset r1 = offset r →
  own_finalize r1 = own_finalize r → untouched d (update_ref r1 d).
Proof.
  intros E Hid Hoff Hown. repeat split; try done.
  - intros j Hj. unfold deref, update_ref in *. simpl.
    rewrite lookup_insert_ne; [done |]. congruence.
  - intros j r' Hj. unfold deref, update_ref in *. simpl.
    destruct (decide (j = i)) as [->|Hne].
    + exists r1. rewrite Hid, lookup_insert_eq. split; [done |].
      rewrite E in Hj. injection Hj as <-. done.
    + exists r'. rewrite Hid. by rewrite lookup_insert_ne.
Qed.

Lemma untouched_ref_write i chunk d :
  good d → snd (ref_write i chunk d) = None ∧
           untouched d (fst (ref_write i chunk d)).
Proof.
  intros Hg. unfold ref_write. destruct (deref i d) as [r|] eqn:E;
    [| split; [done | apply untouched_refl]].
  split; [done |]. cbn [fst]. apply (untouched_update d i r); try done.
  - destruct (write_id chunk r) as [-> _]. by destruct (g_heap d Hg _ _ E).
  - apply write_keeps_offset.
  - apply write_keeps_kind.
Qed.

(** X10. Allocating a reference, setting an entry of its dictionary, writing to
    it and ending it push nothing and give no reference an offset, neither
    its [offset] property nor its slot in [_offsets], as long as the
    reference ended is not the Pages object: a new reference has no offset
    and a null slot, and [end] only sets the timer that will write the
    object. *)
Theorem calls_push_nothing (deflateSync : string → string) (c0 b : bool)
    (tr : list event) (c : call) :
  let d := run deflateSync tr (new_PDFDocument c0 b) in
  ordinary c d →
  let d' := fst (run_call c d) in
  pushed d' = pushed d ∧ _offset d' = _offset d ∧
  snd (run_call c d) = None ∧
  (∀ j r, deref j d = Some r →
     ∃ r', deref j d' = Some r' ∧ offset r' = offset r) ∧
  match c with
  | CRef _ =>
      timers d' = timers d ∧ _offsets d' = _offsets d ++ [Null] ∧
      ∃ r, deref (length (_offsets d) + 1) d' = Some r ∧ offset r = Undefined
  | CEnd i _ =>
      timers d' = match deref i d with
                  | Some _ => timers d ++ [i]
                  | None => timers d
                  end ∧
      _offsets d' = _offsets d
  | _ => timers d' = timers d ∧ _offsets d' = _offsets d
  end.
Proof.
  intros d. pose proof (good_reachable deflateSync c0 b tr) as Hg. fold d in Hg.
  clearbody d.
  destruct c as [data|i key v|i chunk|i chunk]; intros Ho; cbn [run_call].
  - cbn [pure fst snd]. unfold ref, update_ref, deref. simpl.
    repeat split; try done.
    + intros j r E. exists r. split; [| done].
      rewrite lookup_insert_ne; [done |].
      destruct (g_heap d Hg _ _ E) as (_ & _ & H). lia.
    + eexists. split; [apply lookup_insert_eq | done].
  - cbn [pure fst snd]. destruct (deref i d) as [r|] eqn:E.
    + destruct (untouched_update d i r (set_data (dict_set key v) r))
        as (? & ? & ? & ? & _ & H); try done.
      { by destruct (g_heap d Hg _ _ E). }
      repeat split; try done. intros j r0 Hj.
      destruct (H j r0 Hj) as (r1 & ? & ? & _). by exists r1.
    + repeat split; try done. intros j r Hj. by exists r.
  - destruct (untouched_ref_write i chunk d Hg)
      as (Hn & ? & ? & ? & ? & _ & H).
    repeat split; try done. intros j r0 Hj.
    destruct (H j r0 Hj) as (r1 & ? & ? & _). by exists r1.
  - cbn [ordinary] in Ho. unfold ref_end, seq.
    set (w := match chunk with
              | Some c => if chunk_truthy c then ref_write i c else skip
              | None => skip
              end).
    assert (Hw : snd (w d) = None ∧ untouched d (fst (w d))).
    { unfold w. destruct chunk as [ch|]; [| split; [done | apply untouched_refl]].
      destruct (chunk_truthy ch); [| split; [done | apply untouched_refl]].
      by apply untouched_ref_write. }
    destruct (w d) as [d1 e1]. cbn [fst snd] in Hw.
    destruct Hw as (-> & Hp & Hof & Ht & Hos & Hnone & Hsome).
    unfold finalize. destruct (deref i d) as [r|] eqn:E.
    + destruct (Hsome i r E) as (r1 & -> & _ & Hown).
      rewrite Hown, (Ho r eq_refl). cbn [fst snd]. simpl.
      rewrite Ht. repeat split; try done. intros j r0 Hj.
      destruct (Hsome j r0 Hj) as (r2 & ? & ? & _). by exists r2.
    + rewrite (Hnone i E). cbn [fst snd].
      repeat split; try done. intros j r0 Hj.
      destruct (Hsome j r0 Hj) as (r2 & ? & ? & _). by exists r2.
Qed.

Lemma calls_push_nothing_witness :
  let d := run deflate_stored two_pages (new_PDFDocument true true) in
  let d' := fst (run_call (CEnd 4 (Some (Str "ET"))) d) in
  ordinary (CEnd 4 (Some (Str "ET"))) d ∧
  pushed d' = pushed d ∧ timers d' = [4%nat] ∧ _offsets d' = _offsets d ∧
  (offset <$> deref 4 d') = Some Undefined.
Proof.
  intros d d'.
  assert (Ho : ordinary (CEnd 4 (Some (Str "ET"))) d).
  { intros r. vm_compute. by intros [= <-]. }
  destruct (calls_push_nothing deflate_stored true true two_pages
              (CEnd 4 (Some (Str "ET"))) Ho) as (H1 & _ & _ & H2 & _ & H3).
  split; [exact Ho |]. split; [exact H1 |]. split; [by vm_compute |].
  split; [exact H3 |]. by vm_compute.
Defined.

(** *** The cross-reference section *)

(** X11. Along every run with fewer than 10^21 objects, [_finalize] completes:
    after the [xref] line, the count, the free entry, one entry an object
    and the trailer with its dictionary, it pushes [startxref],
    then the number of bytes pushed before the [xref] line, then [%%EOF],
    and last the end of the stream. *)
Theorem startxref_is_offset_of_xref (deflateSync : string → string)
    (c b : bool) (tr : list event) (from : site) :
  let d := run deflateSync tr (new_PDFDocument c b) in
  Z.of_nat (length (_offsets d)) + 1 < 10 ^ 21 →
  ∃ t, convert (trailer d) = Ok t ∧
       snd (_finalize from d) = None ∧
       pushed (fst (_finalize from d))
       = pushed d
         ++ map (fun s => Some (s +:+ nl))
                ("xref" :: ("0 " +:+ pretty (Z.of_nat (length (_offsets d)) + 1))
                        :: "0000000000 65535 f "
                        :: map xref_entry (_offsets d)
                 ++ ["trailer"; t; "startxref"; pretty (bytes (pushed d));
                     "%%EOF"])
         ++ [None].
Proof.
  intros d Hn. destruct (trailer_converts d Hn) as [t Ht].
  pose proof (g_off _ (good_reachable deflateSync c b tr)) as Hoff.
  fold d in Hoff. clearbody d.
  exists t. split; [done |]. rewrite (_finalize_ok from d t Ht).
  split; [done |]. rewrite Hoff.
  unfold push_null, emit, xref_lines, xref_table. cbn [pushed with_output with_log].
  cbn [fst pushed with_output]. rewrite !map_app, !map_map.
  cbn [map to_buffer app]. rewrite <- ?app_assoc. cbn [app].
  by rewrite (map_app _ (map xref_entry (_offsets d))).
Qed.

Lemma startxref_is_offset_of_xref_witness :
  let d := run deflate_stored two_pages (new_PDFDocument true true) in
  ∃ t, convert (trailer d) = Ok t ∧ snd (_finalize FromEnd d) = None.
Proof.
  intros d.
  destruct (startxref_is_offset_of_xref deflate_stored true true two_pages
              FromEnd) as (t & Ht & Hn & _); [by vm_compute |].
  exists t. split; [exact Ht | exact Hn].
Defined.

(** *** Writing to a reference *)

Lemma dict_get_set_eq k v d : dict_get k (dict_set k v d) = Some v.
Proof.
  unfold dict_set. destruct (array_index k) as [n|].
  - induction d as [|[k' v'] d IH]; simpl.
    + by rewrite String.eqb_refl.
    + destruct (String.eqb k k') eqn:E; simpl; rewrite ?String.eqb_refl; [done |].
      destruct (array_index k') as [n'|]; [destruct (n <? n') |]; simpl;
        rewrite ?String.eqb_refl, ?E; done.
  - induction d as [|[k' v'] d IH]; simpl.
    + by rewrite String.eqb_refl.
    + destruct (String.eqb k k') eqn:E; simpl; rewrite ?String.eqb_refl, ?E; done.
Qed.

Lemma dict_get_set_ne k k' v d :
  k ≠ k' → dict_get k (dict_set k' v d) = dict_get k d.
Proof.
  intros Hne. apply String.eqb_neq in Hne as Hb.
  unfold dict_set. destruct (array_index k') as [n|].
  - induction d as [|[k2 v2] d IH]; simpl.
    + by rewrite Hb.
    + destruct (String.eqb k' k2) eqn:E; simpl.
      * apply String.eqb_eq in E as <-. by rewrite Hb.
      * destruct (array_index k2) as [n2|]; [destruct (n <? n2) |]; simpl;
          rewrite ?Hb, ?IH; done.
  - induction d as [|[k2 v2] d IH]; simpl.
    + by rewrite Hb.
    + destruct (String.eqb k' k2) eqn:E; simpl.
      * apply String.eqb_eq in E as <-. by rewrite Hb.
      * by rewrite IH.
Qed.

Lemma strlen_concat_cons b l :
  JS.strlen (JS.concat (b :: l)) = JS.strlen b + JS.strlen (JS.concat l).
Proof.
  unfold JS.concat. destruct l as [|b' l]; simpl String.concat.
  - change (JS.strlen "") with 0. lia.
  - by rewrite !strlen_app.
Qed.

Lemma strlen_concat_snoc l b :
  JS.strlen (JS.concat (l ++ [b])) = JS.strlen (JS.concat l) + JS.strlen b.
Proof.
  induction l as [|b' l IH].
  - change ([] ++ [b]) with [b]. rewrite (strlen_concat_cons b []).
    change (JS.strlen (JS.concat [])) with 0. lia.
  - change ((b' :: l) ++ [b]) with (b' :: (l ++ [b])).
    rewrite !strlen_concat_cons, IH. lia.
Qed.

(** The state [write] keeps a reference in: the length counted is the
    length of the buffer, and [data.Length], once there, is that number. *)
Definition counted (r : PDFReference) : Prop :=
  uncompressedLength r = JS.strlen (JS.concat (buffer r)) ∧
  match dict_get "Length" (data r) with
  | None => buffer r = []
  | Some (VNumber q) => (q == inject_Z (uncompressedLength r))%Q
  | Some _ => False
  end.

Lemma write_counted c r :
  counted r →
  counted (write c r) ∧ buffer (write c r) = buffer r ++ [to_buffer c] ∧
  (∃ q, dict_get "Length" (data (write c r)) = Some (VNumber q)) ∧
  compress (write c r) = compress r ∧
  dict_get "Filter" (data (write c r))
    = if compress r then Some (VName "FlateDecode")
      else dict_get "Filter" (data r).
Proof.
  intros [Hu Hl]. unfold write. cbv zeta.
  set (n := JS.strlen (to_buffer c)).
  assert (Hcase :
    ∃ dt q, (if is_nullish (dict_get "Length"
                   (data (set_uncompressedLength (uncompressedLength r + n) r)))
             then set_data (dict_set "Length" (VNumber 0))
                    (set_uncompressedLength (uncompressedLength r + n) r)
             else set_uncompressedLength (uncompressedLength r + n) r)
            = mkRef (id r) (gen r) dt (compress r) (uncompressedLength r + n)
                    (buffer r) (offset r) (own_finalize r) ∧
            dict_get "Length" dt = Some (VNumber q) ∧
            (q == inject_Z (uncompressedLength r))%Q ∧
            dict_get "Filter" dt = dict_get "Filter" (data r)).
  { simpl. destruct (dict_get "Length" (data r)) as [[]|] eqn:E; try done.
    - exists (data r), q. simpl. by rewrite E.
    - exists (dict_set "Length" (VNumber 0) (data r)), 0%Q. simpl.
      rewrite dict_get_set_eq, dict_get_set_ne by done.
      repeat split. rewrite Hu, Hl. done. }
  destruct Hcase as (dt & q & -> & Hq & Hqe & Hf).
  unfold set_data, set_buffer.
  cbn [data buffer compress uncompressedLength id gen offset own_finalize].
  rewrite Hq. cbn [default js_plus].
  assert (Hsum : (q + inject_Z n == inject_Z (uncompressedLength r + n))%Q)
    by (rewrite inject_Z_plus, Hqe; reflexivity).
  destruct (compress r) eqn:Ec; unfold counted;
    cbn [data buffer compress uncompressedLength id gen offset own_finalize];
    rewrite ?dict_get_set_eq, ?dict_get_set_ne, ?dict_get_set_eq by done;
    rewrite strlen_concat_snoc, <- Hu; fold n;
    repeat split; try done; try by eexists.
Qed.

Lemma writes_counted cs : ∀ r0, counted r0 → cs ≠ [] →
  let r' := fold_left (fun r c => write c r) cs r0 in
  counted r' ∧ buffer r' = buffer r0 ++ map to_buffer cs ∧
  (∃ q, dict_get "Length" (data r') = Some (VNumber q)) ∧
  compress r' = compress r0 ∧
  dict_get "Filter" (data r')
    = if compress r0 then Some (VName "FlateDecode")
      else dict_get "Filter" (data r0).
Proof.
  induction cs as [|c cs IH]; intros r0 Hc Hne; [done |].
  destruct (write_counted c r0 Hc) as (Hc1 & Hb1 & Hq1 & Hco1 & Hf1).
  destruct cs as [|c2 cs].
  { cbn [fold_left map]. by rewrite Hf1. }
  destruct (IH (write c r0) Hc1 ltac:(done)) as (Hc2 & Hb2 & Hq2 & Hco2 & Hf2).
  cbv zeta. change (fold_left (λ r c, write c r) (c :: c2 :: cs) r0)
    with (fold_left (λ r c, write c r) (c2 :: cs) (write c r0)).
  set (r' := fold_left (λ r c, write c r) (c2 :: cs) (write c r0)) in *.
  clearbody r'. split; [exact Hc2 |]. split.
  { rewrite Hb2, Hb1, <- app_assoc. done. }
  split; [exact Hq2 |]. split; [congruence |].
  rewrite Hf2, Hco1, Hf1. by destruct (compress r0).
Qed.

(** X12. Writing chunks to a reference that has nothing in it yet leaves the
    chunks in the buffer in the order written, a string taking a newline
    and a Buffer none; the length counted and [data.Length] are both the
    number of bytes in the buffer; and [data.Filter] becomes [FlateDecode]
    exactly when the reference is to be compressed. *)
Theorem write_accumulates (cs : list Chunk) (r : PDFReference) :
  buffer r = [] → uncompressedLength r = 0 →
  dict_get "Length" (data r) = None → cs ≠ [] →
  let r' := fold_left (fun r c => write c r) cs r in
  buffer r' = map to_buffer cs ∧
  uncompressedLength r' = JS.strlen (JS.concat (map to_buffer cs)) ∧
  (∃ q, dict_get "Length" (data r') = Some (VNumber q) ∧
        (q == inject_Z (JS.strlen (JS.concat (map to_buffer cs))))%Q) ∧
  dict_get "Filter" (data r')
    = if compress r then Some (VName "FlateDecode")
      else dict_get "Filter" (data r).
Proof.
  intros Hb Hu Hl Hne.
  assert (H0 : counted r).
  { unfold counted. rewrite Hl. split; [| exact Hb].
    rewrite Hu, Hb. reflexivity. }
  destruct (writes_counted cs r H0 Hne) as ([Hcu Hcl] & Hbuf & (q & Hq) & _ & Hf).
  cbv zeta.
  set (r' := fold_left (λ r c, write c r) cs r) in *. clearbody r'.
  rewrite Hb in Hbuf. change ([] ++ map to_buffer cs) with (map to_buffer cs) in Hbuf.
  rewrite Hbuf in Hcu. rewrite Hq in Hcl.
  split; [exact Hbuf |]. split; [exact Hcu |]. split; [| exact Hf].
  exists q. split; [exact Hq |]. rewrite <- Hcu. exact Hcl.
Qed.

Lemma write_accumulates_witness :
  let r := new_PDFReference (new_PDFDocument true false) 4 None in
  let r' := fold_left (fun r c => write c r) [Str "BT"; Buf "abc"] r in
  buffer r' = ["BT" +:+ nl; "abc"] ∧ uncompressedLength r' = 6.
Proof.
  intros r r'.
  destruct (write_accumulates [Str "BT"; Buf "abc"] r eq_refl eq_refl eq_refl
              ltac:(done)) as (H1 & H2 & _).
  split; [exact H1 | exact H2].
Defined.

(** *** A stream that is not compressed *)

(** What [write] leaves in the dictionary of a reference that is not
    compressed and had no data given: nothing but [Length]. *)
Definition plain (r : PDFReference) : Prop :=
  compress r = false ∧ (data r = [] ∨ ∃ q, data r = [("Length", VNumber q)]).

Lemma write_plain c r :
  plain r → compress (write c r) = false ∧
            ∃ q, data (write c r) = [("Length", VNumber q)].
Proof.
  intros [Hc Hd]. unfold write. cbv zeta.
  destruct Hd as [Hd|[q Hd]].
  - unfold set_uncompressedLength at 2. cbn [data]. rewrite Hd.
    cbn [dict_get is_nullish]. unfold set_data, set_buffer, set_uncompressedLength.
    cbn [data buffer compress uncompressedLength id gen offset own_finalize].
    rewrite Hc, Hd. cbn. split; [done | by eexists].
  - unfold set_uncompressedLength at 2. cbn [data]. rewrite Hd.
    cbn [dict_get String.eqb Ascii.eqb Bool.eqb is_nullish].
    unfold set_data, set_buffer, set_uncompressedLength.
    cbn [data buffer compress uncompressedLength id gen offset own_finalize].
    rewrite Hc, Hd. cbn. split; [done | by eexists].
Qed.

Lemma writes_plain cs : ∀ r,
  plain r → cs ≠ [] →
  let r' := fold_left (fun r c => write c r) cs r in
  compress r' = false ∧ ∃ q, data r' = [("Length", VNumber q)].
Proof.
  induction cs as [|c cs IH]; intros r Hp Hne; [done |].
  destruct (write_plain c r Hp) as [Hc Hd].
  destruct cs as [|c2 cs]; [done |].
  apply (IH (write c r)); [| done]. split; [done | by right].
Qed.

Lemma writes_land i cs : ∀ d r,
  deref i d = Some r → id r = i →
  let d' := fold_left (fun d c => fst (ref_write i c d)) cs d in
  deref i d' = Some (fold_left (fun r c => write c r) cs r) ∧
  pushed d' = pushed d.
Proof.
  induction cs as [|c cs IH]; intros d r Hr Hi; [done |].
  cbv zeta. cbn [fold_left].
  assert (E : fst (ref_write i c d) = update_ref (write c r) d)
    by (unfold ref_write; by rewrite Hr).
  rewrite E.
  destruct (IH (update_ref (write c r) d) (write c r)) as [H1 H2].
  - unfold deref, update_ref. cbn [heap with_heap].
    destruct (write_id c r) as [-> _]. rewrite Hi. apply lookup_insert_eq.
  - destruct (write_id c r) as [-> _]. exact Hi.
  - split; [exact H1 | by rewrite H2].
Qed.

Lemma pushed_after_refEnd r d :
  ∃ more, pushed (fst (_refEnd r d)) = pushed d ++ more.
Proof.
  unfold _refEnd. cbv zeta. set (d2 := with_store _ _ _).
  destruct ((_waiting d2 =? 0) && _ended d2);
    [| exists []; by rewrite app_nil_r].
  unfold seq. destruct (_finalize_spec FromRefEnd d2) as [[e ->]|[t ->]];
    cbn [fst pure]; eexists; simpl; [done |].
  by rewrite <- app_assoc.
Qed.

Lemma finalize_task_plain (deflateSync : string → string) d i r dict :
  deref i d = Some r → buffer r ≠ [] → compress r = false →
  convert (VDict (data r)) = Ok dict →
  ∃ more,
    pushed (fst (finalize_task deflateSync i d)) =
    pushed d ++
    [Some (to_buffer (Str (obj_header r))); Some (to_buffer (Str dict));
     Some (to_buffer (Str "stream"));
     Some (JS.concat (buffer r));
     Some (to_buffer (Str (nl +:+ "endstream")));
     Some (to_buffer (Str "endobj"))] ++ more.
Proof.
  intros Hr Hb Hc Hd. unfold finalize_task. rewrite Hr. cbv zeta.
  change (data (set_offset _ r)) with (data r). rewrite Hd.
  change (buffer (set_offset _ r)) with (buffer r).
  change (compress (set_offset _ r)) with (compress r). rewrite Hc.
  destruct (buffer r) as [|b0 bs] eqn:Eb; [done |].
  change (0 <? length (b0 :: bs))%nat with true. cbv iota beta.
  match goal with |- context [_refEnd ?r' ?d'] =>
    destruct (pushed_after_refEnd r' d') as [more ->] end.
  exists more. simpl. by rewrite <- !app_assoc.
Qed.

(** X13. Without compression the stream object is written as it was given: for
    a reference allocated without data and written to, the timer pushes
    the header, a dictionary whose only entry is [/Length] with the number
    of bytes written, [stream], those bytes, [endstream] and [endobj]. *)
Theorem plain_stream_declares_its_length (deflateSync : string → string)
    (d : PDFDocument) (cs : list Chunk) :
  compress_option d = false → cs ≠ [] →
  JS.strlen (JS.concat (map to_buffer cs)) * 10 ^ 6 < 2 ^ 53 →
  let i := fst (ref None d) in
  let body := JS.concat (map to_buffer cs) in
  let d1 := fold_left (fun d c => fst (ref_write i c d)) cs (snd (ref None d)) in
  ∃ more,
    pushed (fst (finalize_task deflateSync i d1)) =
    pushed d ++
    [Some (pretty i +:+ " 0 obj" +:+ nl);
     Some ("<<" +:+ nl +:+ "/Length " +:+ pretty (JS.strlen body) +:+ nl
           +:+ ">>" +:+ nl);
     Some ("stream" +:+ nl); Some body; Some (nl +:+ "endstream" +:+ nl);
     Some ("endobj" +:+ nl)] ++ more.
Proof.
  intros Hco Hne Hn. cbv zeta.
  set (i := fst (ref None d)). set (d0 := snd (ref None d)).
  set (r0 := new_PDFReference d i None).
  assert (Hr0 : deref i d0 = Some r0).
  { unfold d0, i, ref, deref, update_ref. cbn [fst snd heap with_heap].
    cbn [new_PDFReference id]. apply lookup_insert_eq. }
  assert (Hp0 : plain r0).
  { unfold r0, new_PDFReference, plain. cbn. rewrite Hco. by split; [| left]. }
  destruct (writes_land i cs d0 r0 Hr0 eq_refl) as [Hr1 Hpu]. cbv zeta in *.
  set (d1 := fold_left _ cs d0) in *. clearbody d1.
  set (r1 := fold_left (fun r c => write c r) cs r0) in *.
  destruct (writes_plain cs r0 Hp0 Hne) as [Hc1 [q Hd1]]. cbv zeta in *.
  fold r1 in Hc1, Hd1.
  destruct (writes_counted cs r0) as ([Hcu Hcl] & Hbuf & _ & _ & _); [| done |].
  { unfold counted, r0. by cbn. }
  cbv zeta in *. fold r1 in Hcu, Hcl, Hbuf.
  change (buffer r0 ++ map to_buffer cs) with (map to_buffer cs) in Hbuf.
  rewrite Hd1 in Hcl. cbn [dict_get String.eqb Ascii.eqb Bool.eqb] in Hcl.
  rewrite Hcu, Hbuf in Hcl.
  set (n := JS.strlen (JS.concat (map to_buffer cs))) in *.
  assert (Hn0 : 0 ≤ n) by apply strlen_nonneg.
  assert (Hq : convert (VNumber q) = Ok (pretty n)).
  { rewrite (convert_whole q n Hcl) by lia.
    replace (n <? 0) with false by (symmetry; apply Z.ltb_ge; lia).
    by rewrite Z.abs_eq. }
  assert (Hcv : convert (VDict (data r1))
                = Ok ("<<" +:+ nl +:+ "/Length " +:+ pretty n +:+ nl +:+ ">>")).
  { rewrite Hd1. cbn [convert] in Hq |- *. rewrite Hq. done. }
  assert (Hb1 : buffer r1 ≠ []) by (rewrite Hbuf; by destruct cs).
  destruct (finalize_task_plain deflateSync d1 i r1 _ Hr1 Hb1 Hc1 Hcv)
    as [more Hmore].
  exists more. rewrite Hmore, Hpu, Hbuf.
  assert (Hid : id r1 = i ∧ gen r1 = 0%nat).
  { unfold r1. clear. generalize r0 (eq_refl : id r0 = i) (eq_refl : gen r0 = 0%nat).
    induction cs as [|c cs IH]; intros r Hi Hg; [done |].
    cbn [fold_left]. destruct (write_id c r) as [Hi' Hg'].
    apply IH; congruence. }
  destruct Hid as [Hid Hgen]. unfold obj_header. rewrite Hid, Hgen.
  assert (Hpu0 : pushed d0 = pushed d) by done. rewrite Hpu0.
  f_equal. cbn [to_buffer].
  assert (Hassoc : ∀ a b c : string, (a +:+ b) +:+ c = a +:+ b +:+ c).
  { intros a b c. apply chars_inj. by rewrite !chars_app, app_assoc. }
  change (pretty 0%nat) with "0". by rewrite !Hassoc.
Qed.

Lemma plain_stream_declares_its_length_witness :
  let d := new_PDFDocument false false in
  let d1 := fold_left (fun d c => fst (ref_write 4 c d)) [Str "BT"; Buf "abc"]
                      (snd (ref None d)) in
  ∃ more,
    pushed (fst (finalize_task deflate_stored 4 d1)) =
    pushed d ++
    [Some ("4 0 obj" +:+ nl);
     Some ("<<" +:+ nl +:+ "/Length 6" +:+ nl +:+ ">>" +:+ nl);
     Some ("stream" +:+ nl); Some ("BT" +:+ nl +:+ "abc");
     Some (nl +:+ "endstream" +:+ nl); Some ("endobj" +:+ nl)] ++ more.
Proof.
  exact (plain_stream_declares_its_length deflate_stored
           (new_PDFDocument false false) [Str "BT"; Buf "abc"] eq_refl
           ltac:(done) eq_refl).
Defined.

End StoreExtras.

(** ** The page buffer *)

Module PageFacts.
Import PDFObject Store StringFacts StoreFacts OrderFacts.

(** What [addPage], [flushPages] and [switchToPage] go by. *)
Definition paging (d : PDFDocument) : bool * list PDFPage * Z :=
  (bufferPages d, _pageBuffer d, _pageBufferStart d).


Definition is_AddPage (e : event) : Prop :=
  match e with AddPage _ _ => True | _ => False end.

Global Instance is_AddPage_dec e : Decision (is_AddPage e).
Proof. destruct e; simpl; apply _. Defined.


Section Pages.
Variable deflateSync : string → string.
















(** *** Pages that can be ended *)

(** The references [PDFPage.prototype.end] ends, in its order. *)
Definition page_ids (p : PDFPage) : list nat :=
  [dictionary p; resources p; content p].

(** Only the Pages object, number 1, has a [finalize] of its own, and the
    references of a buffered page are other objects of the document. *)
Record paged (d : PDFDocument) : Prop := {
  p_len : (1 ≤ length (_offsets d))%nat;
  p_own : ∀ i r, heap d !! i = Some r → own_finalize r = true →
          i = 1%nat ∧ id r = 1%nat;
  p_buf : Forall (fun p => Forall (fun i => i ≠ 1%nat ∧ is_Some (heap d !! i))
                                  (page_ids p))
                 (_pageBuffer d)
}.

Definition holds (a : action) : Prop := ∀ d, paged d → paged (fst (a d)).

Lemma paged_frame d d' :
  heap d' = heap d → _pageBuffer d' = _pageBuffer d →
  (length (_offsets d) ≤ length (_offsets d'))%nat → paged d → paged d'.
Proof.
  intros Hh Hb Hl [H1 H2 H3]. split.
  - lia.
  - rewrite Hh. exact H2.
  - rewrite Hh, Hb. exact H3.
Qed.

Lemma paged_update r' d :
  paged d → (own_finalize r' = true → id r' = 1%nat) →
  paged (update_ref r' d).
Proof.
  intros [H1 H2 H3] Hr. split.
  - exact H1.
  - intros i r. unfold update_ref. cbn [heap with_heap].
    destruct (decide (i = id r')) as [->|Hne].
    + rewrite lookup_insert_eq. intros [= <-] Ho. by rewrite (Hr Ho).
    + rewrite lookup_insert_ne by done. apply H2.
  - unfold update_ref. cbn [heap with_heap _pageBuffer].
    eapply Forall_impl; [exact H3 |]. intros p Hp.
    eapply Forall_impl; [exact Hp |]. intros i [Hi Hs]. split; [done |].
    destruct (decide (i = id r')) as [->|Hne].
    + by rewrite lookup_insert_eq.
    + by rewrite lookup_insert_ne.
Qed.

(** A reference read from the store and changed by [write] or by setting
    its fields may be put back. *)
Lemma paged_put_back i r r' d :
  paged d → deref i d = Some r →
  id r' = id r → own_finalize r' = own_finalize r →
  paged (update_ref r' d).
Proof.
  intros Hp Hd Hi Ho. apply paged_update; [done |].
  rewrite Hi, Ho. intros H. by destruct (p_own d Hp i r Hd H).
Qed.

Lemma paged_ref data d : paged d → paged (snd (ref data d)).
Proof.
  intros Hp. unfold ref. cbv zeta. cbn [snd].
  apply paged_update; [| done].
  eapply paged_frame; [| | | exact Hp]; try done.
  cbn. rewrite length_app. lia.
Qed.

Lemma holds_skip : holds skip.
Proof. by intros d. Qed.

Lemma holds_seq a b : holds a → holds b → holds (seq a b).
Proof.
  intros Ha Hb d Hp. unfold seq. specialize (Ha d Hp).
  destruct (a d) as [d1 [e|]]; cbn [fst] in *; [done |]. by apply Hb.
Qed.

Lemma holds_seq_all l : Forall holds l → holds (seq_all l).
Proof.
  induction 1; cbn [seq_all]; [apply holds_skip | by apply holds_seq].
Qed.

Lemma holds_finalize_doc from : holds (_finalize from).
Proof.
  intros d Hp.
  destruct (_finalize_spec from d) as [(e & ->)|(t & ->)]; cbn [fst];
    (eapply paged_frame; [| | | exact Hp]; done).
Qed.

Lemma holds_refEnd r : holds (_refEnd r).
Proof.
  intros d Hp. unfold _refEnd. cbv zeta.
  set (d2 := with_store _ _ _).
  assert (H2 : paged d2).
  { eapply paged_frame; [| | | exact Hp]; try done.
    unfold d2. cbn. destruct (id r); [done | apply length_array_set]. }
  clearbody d2.
  destruct ((_waiting d2 =? 0) && _ended d2); [| done].
  apply (holds_seq (_finalize FromRefEnd) (pure (with_ended false)));
    [apply holds_finalize_doc | | done].
  intros d3 H3. cbn [pure fst]. eapply paged_frame; [| | | exact H3]; done.
Qed.

Lemma paged_write c d : paged d → paged (_write c d).
Proof. intros Hp. eapply paged_frame; [| | | exact Hp]; done. Qed.

Lemma holds_Pages_finalize i :
  holds (fun d => match deref i d with
                  | Some r => Pages_finalize r d
                  | None => (d, None)
                  end).
Proof.
  intros d Hp. destruct (deref i d) as [r0|] eqn:E; [| done].
  unfold Pages_finalize. cbv zeta.
  set (d1 := update_ref _ d).
  assert (H1 : paged d1) by (unfold d1; by apply (paged_put_back i r0)).
  clearbody d1.
  destruct (all_buffers _); cbn [fst].
  - apply holds_refEnd. repeat apply paged_write. exact H1.
  - repeat apply paged_write. exact H1.
Qed.

Lemma holds_finalize i : holds (finalize i).
Proof.
  intros d Hp. unfold finalize.
  pose proof (holds_Pages_finalize i d Hp) as H. cbv beta in H.
  destruct (deref i d) as [r|]; [| done].
  destruct (own_finalize r); [exact H |].
  cbn [fst]. eapply paged_frame; [| | | exact Hp]; done.
Qed.

Lemma write_own c r : own_finalize (write c r) = own_finalize r.
Proof.
  unfold write. cbv zeta. destruct (is_nullish _); destruct (compress _); done.
Qed.

Lemma holds_ref_write i c : holds (ref_write i c).
Proof.
  intros d Hp. unfold ref_write. destruct (deref i d) as [r|] eqn:E; [| done].
  cbn [fst]. apply (paged_put_back i r _ d Hp E); [apply write_id | apply write_own].
Qed.

Lemma holds_ref_end i c : holds (ref_end i c).
Proof.
  apply holds_seq; [| apply holds_finalize].
  destruct c as [c|]; [| apply holds_skip].
  destruct (chunk_truthy c); [apply holds_ref_write | apply holds_skip].
Qed.

Lemma holds_run_call c : holds (run_call c).
Proof.
  destruct c; simpl.
  - intros d Hp. by apply paged_ref.
  - intros d Hp. unfold pure. cbn [fst].
    destruct (deref i d) as [r|] eqn:E; [| done].
    by apply (paged_put_back i r).
  - apply holds_ref_write.
  - apply holds_ref_end.
Qed.

Lemma holds_finalize_task i : holds (finalize_task deflateSync i).
Proof.
  intros d Hp. unfold finalize_task. destruct (deref i d) as [r|] eqn:E; [| done].
  cbv zeta.
  set (r1 := set_offset _ r).
  assert (H1 : paged (update_ref r1 d))
    by (by apply (paged_put_back i r)).
  destruct (convert _) as [dict|e]; [| cbn [fst]; by apply paged_write].
  match goal with
  | |- paged (fst (let '(r', d') := ?X in _)) =>
      assert (Hx : paged X.2 ∧ id X.1 = id r ∧
                   own_finalize X.1 = own_finalize r);
        [| destruct X as [r4 d4]; cbn [fst snd] in Hx]
  end.
  { destruct (0 <? length (buffer _))%nat.
    - destruct (compress _); cbn [fst snd]; (split; [| done]);
        repeat apply paged_write; exact H1.
    - cbn [fst snd]. split; [| done]. repeat apply paged_write; exact H1. }
  destruct Hx as (H4 & Hi & Ho).
  apply holds_refEnd, paged_write. apply paged_update; [done |].
  rewrite Hi, Ho. intros H. by destruct (p_own d Hp i r E H).
Qed.

Lemma holds_fire k : holds (fire deflateSync k).
Proof.
  intros d Hp. unfold fire. destruct (timers d !! k); [| done].
  apply holds_finalize_task. eapply paged_frame; [| | | exact Hp]; done.
Qed.

(** Ending the references of pages sets their timers and does nothing
    else. *)
Lemma with_timers_nil d : with_timers (timers d ++ []) d = d.
Proof. rewrite app_nil_r. by destruct d. Qed.

Lemma with_timers_app a b d :
  with_timers (timers (with_timers (timers d ++ a) d) ++ b)
              (with_timers (timers d ++ a) d)
  = with_timers (timers d ++ a ++ b) d.
Proof. unfold with_timers. cbn. by rewrite app_assoc. Qed.

Lemma ends_set_timers (l : list nat) d :
  paged d → Forall (fun i => i ≠ 1%nat ∧ is_Some (heap d !! i)) l →
  seq_all (map (fun i => ref_end i None) l) d
  = (with_timers (timers d ++ l) d, None).
Proof.
  revert d. induction l as [|i l IH]; intros d Hp Hl.
  - cbn [map seq_all]. unfold skip, pure. by rewrite with_timers_nil.
  - apply Forall_cons in Hl as [[Hi [r Hr]] Hl].
    cbn [map seq_all]. unfold seq at 1.
    assert (E : ref_end i None d = (with_timers (timers d ++ [i]) d, None)).
    { unfold ref_end, seq, skip, pure, finalize, deref. rewrite Hr.
      destruct (own_finalize r) eqn:Eo; [| done].
      by destruct (p_own d Hp i r Hr Eo). }
    rewrite E, IH.
    + by rewrite with_timers_app.
    + eapply paged_frame; [| | | exact Hp]; done.
    + exact Hl.
Qed.

Lemma page_end_all pages d :
  seq_all (map page_end pages) d
  = seq_all (map (fun i => ref_end i None) (concat (map page_ids pages))) d.
Proof.
  revert d. induction pages as [|p pages IH]; intros d; [done |].
  cbn [map concat seq_all app page_ids].
  unfold page_end, seq.
  destruct (ref_end (dictionary p) None d) as [d1 [e|]]; [done |].
  destruct (ref_end (resources p) None d1) as [d2 [e|]]; [done |].
  destruct (ref_end (content p) None d2) as [d3 [e|]]; [done |].
  apply IH.
Qed.


Lemma paged_with_pages pb st pg d :
  paged d →
  Forall (fun p => Forall (fun i => i ≠ 1%nat ∧ is_Some (heap d !! i))
                          (page_ids p)) pb →
  paged (with_pages pb st pg d).
Proof. intros [H1 H2 H3] Hb. by split. Qed.

(** [flushPages] on the way: it throws nothing and writes nothing; it
    empties the buffer and sets, page after page, the timers of the
    dictionary, of the resources and of the content. *)
Lemma flushPages_spec d :
  paged d →
  flushPages d
  = (with_timers (timers d ++ concat (map page_ids (_pageBuffer d)))
       (with_pages [] (_pageBufferStart d + Z.of_nat (length (_pageBuffer d)))
                   (page d) d),
     None).
Proof.
  intros Hp. unfold flushPages. cbv zeta.
  rewrite page_end_all, ends_set_timers; [done | |].
  - apply paged_with_pages; [done | constructor].
  - apply Forall_concat, Forall_map. exact (p_buf d Hp).
Qed.

Lemma holds_flushPages : holds flushPages.
Proof.
  intros d Hp. rewrite (flushPages_spec d Hp). cbn [fst].
  apply (paged_frame (with_pages [] (_pageBufferStart d
                                     + Z.of_nat (length (_pageBuffer d)))
                                 (page d) d)); try done.
  apply paged_with_pages; [done | constructor].
Qed.

Lemma ref_facts data d :
  paged d →
  fst (ref data d) = S (length (_offsets d)) ∧
  paged (snd (ref data d)) ∧
  length (_offsets (snd (ref data d))) = S (length (_offsets d)) ∧
  is_Some (heap (snd (ref data d)) !! S (length (_offsets d))) ∧
  (∀ j, is_Some (heap d !! j) → is_Some (heap (snd (ref data d)) !! j)) ∧
  paging (snd (ref data d)) = paging d ∧
  page (snd (ref data d)) = page d ∧
  timers (snd (ref data d)) = timers d.
Proof.
  intros Hp. split; [| split; [by apply paged_ref |]].
  { unfold ref. cbn. lia. }
  unfold ref. cbv zeta. cbn [snd]. unfold update_ref, new_PDFReference.
  cbn [heap with_heap with_store id _offsets paging page timers bufferPages
       _pageBuffer _pageBufferStart].
  replace (length (_offsets d) + 1)%nat with (S (length (_offsets d))) by lia.
  split; [rewrite length_app; simpl; lia |].
  split; [by rewrite lookup_insert_eq |].
  split; [| done].
  intros j Hj. destruct (decide (j = S (length (_offsets d)))) as [->|Hne].
  - by rewrite lookup_insert_eq.
  - by rewrite lookup_insert_ne.
Qed.

(** [addPage] makes a page of the three objects it allocates, in the
    order content, resources, dictionary, puts it last in the buffer and
    makes it the current page, also when it throws on the way to the Pages
    object; without [bufferPages] the pages buffered before are flushed
    first. *)
Lemma addPage_spec w h d :
  paged d →
  let d' := fst (addPage w h d) in
  let n := length (_offsets d) in
  let pg := mkPage (S n) (S (S n)) (S (S (S n))) in
  paged d' ∧
  paging d' = (bufferPages d,
               (if bufferPages d then _pageBuffer d else []) ++ [pg],
               if bufferPages d then _pageBufferStart d
               else _pageBufferStart d + Z.of_nat (length (_pageBuffer d))) ∧
  page d' = Some pg ∧
  timers d' = timers d ++ (if bufferPages d then []
                           else concat (map page_ids (_pageBuffer d))).
Proof.
  intros Hp. cbv zeta. unfold addPage, seq.
  assert (Hf : ∃ d1,
    (if bufferPages d then (d, None) else flushPages d) = (d1, None) ∧
    paged d1 ∧ length (_offsets d1) = length (_offsets d) ∧
    paging d1 = (bufferPages d,
                 (if bufferPages d then _pageBuffer d else []),
                 if bufferPages d then _pageBufferStart d
                 else _pageBufferStart d + Z.of_nat (length (_pageBuffer d))) ∧
    timers d1 = timers d ++ (if bufferPages d then []
                             else concat (map page_ids (_pageBuffer d)))).
  { destruct (bufferPages d) eqn:Eb.
    - exists d. unfold paging. rewrite Eb, app_nil_r. done.
    - eexists. split; [apply (flushPages_spec d Hp) |].
      split; [| by unfold paging; cbn; rewrite Eb].
      pose proof (holds_flushPages d Hp) as H.
      by rewrite (flushPages_spec d Hp) in H. }
  destruct Hf as (d1 & -> & Hp1 & <- & Hpg1 & Ht1).
  unfold paging in Hpg1. injection Hpg1 as Hb Hpb Hst.
  rewrite <- Ht1, <- Hpb, <- Hst, <- Hb. clear Hb Hpb Hst Ht1 Hp d.
  destruct (ref_facts None d1 Hp1) as (E1 & Hp2 & Hl2 & Hs2 & Hm2 & Hg2 & Hc2 & Ht2).
  destruct (ref None d1) as [content d2]. cbn [fst snd] in *. subst content.
  match goal with |- context [ref ?x d2] =>
    destruct (ref_facts x d2 Hp2) as (E2 & Hp3 & Hl3 & Hs3 & Hm3 & Hg3 & Hc3 & Ht3);
    destruct (ref x d2) as [resources d3]
  end.
  cbn [fst snd] in *. subst resources.
  match goal with |- context [ref ?x d3] =>
    destruct (ref_facts x d3 Hp3) as (E3 & Hp4 & Hl4 & Hs4 & Hm4 & Hg4 & Hc4 & Ht4);
    destruct (ref x d3) as [dictionary d4]
  end.
  cbn [fst snd] in *. subst dictionary.
  rewrite Hl2 in *. rewrite Hl3 in *.
  assert (Hpg4 : paging d4 = paging d1) by (by rewrite Hg4, Hg3, Hg2).
  unfold paging in Hpg4. injection Hpg4 as Hb4 Hpb4 Hst4.
  assert (Hc4' : timers d4 = timers d1) by (by rewrite Ht4, Ht3, Ht2).
  set (n := length (_offsets d1)) in *.
  set (pg := mkPage (S n) (S (S n)) (S (S (S n)))).
  set (d5 := with_pages _ _ _ d4).
  assert (Hp5 : paged d5).
  { apply paged_with_pages; [done |]. apply Forall_app. split.
    - eapply Forall_impl.
      + rewrite Hpb4. exact (p_buf d1 Hp1).
      + intros p Hb. eapply Forall_impl; [exact Hb |].
        intros i [Hi Hs]. split; [done |]. by apply Hm4, Hm3, Hm2.
    - constructor; [| constructor]. unfold page_ids. cbn.
      pose proof (p_len d1 Hp1). fold n in H.
      repeat constructor; try lia; [done | by apply Hm4 | by apply Hm4, Hm3]. }
  assert (H5 : paging d5 = (bufferPages d1, _pageBuffer d1 ++ [pg],
                            _pageBufferStart d1) ∧
               page d5 = Some pg ∧ timers d5 = timers d1).
  { unfold d5, paging. cbn. by rewrite Hb4, Hpb4, Hst4. }
  destruct H5 as (Hpg5 & Hc5 & Ht5).
  rewrite <- Hpg5, <- Hc5, <- Ht5. clearbody d5.
  destruct (Pages_of d5) as [pages|] eqn:HP; [| done].
  destruct (Pages_of_deref _ _ HP) as [i Hi].
  destruct (dict_get "Kids" (data pages)) as [[]|]; try done.
  set (d6 := update_ref _ d5).
  assert (Hp6 : paged d6) by (unfold d6; by apply (paged_put_back i pages)).
  assert (H6 : paging d6 = paging d5 ∧ page d6 = page d5 ∧
               timers d6 = timers d5) by done.
  destruct H6 as (<- & <- & <-). clearbody d6.
  destruct (transform_values _); [| done].
  split; [by apply holds_ref_write |].
  unfold ref_write. by destruct (deref _ d6).
Qed.

Lemma holds_addPage w h : holds (addPage w h).
Proof. intros d Hp. apply (addPage_spec w h d Hp). Qed.

Lemma holds_end_decides : holds end_decides.
Proof.
  intros d Hp. unfold end_decides. destruct (_waiting d =? 0).
  - by apply holds_finalize_doc.
  - cbn [fst]. eapply paged_frame; [| | | exact Hp]; done.
Qed.

Lemma holds_info info : holds (fun d =>
  let '(i, d) := ref None d in
  let d := with_info (Some i) d in
  let d := match deref i d with
           | Some r => update_ref (set_data (fill_info info) r) d
           | None => d
           end in
  ref_end i None d).
Proof.
  intros d Hp. pose proof (paged_ref None d Hp) as H1.
  destruct (ref None d) as [i d1]. cbn [snd] in H1. cbv zeta.
  apply holds_ref_end.
  assert (H2 : paged (with_info (Some i) d1))
    by (eapply paged_frame; [| | | exact H1]; done).
  destruct (deref i (with_info (Some i) d1)) as [r|] eqn:E; [| done].
  by apply (paged_put_back i r).
Qed.

Lemma holds_end_prepare info fonts outline :
  holds (end_prepare info fonts outline).
Proof.
  unfold end_prepare.
  apply holds_seq; [| apply holds_seq; [| apply holds_seq; [| apply holds_seq;
    [| apply holds_seq]]]].
  - apply holds_flushPages.
  - apply holds_info.
  - apply holds_seq_all, Forall_map, Forall_true. intros c. apply holds_run_call.
  - apply holds_seq_all, Forall_map, Forall_true. intros c. apply holds_run_call.
  - intros d Hp. by apply holds_ref_end.
  - intros d Hp. destruct (Pages_of d); [| done]. by apply holds_ref_end.
Qed.

Lemma holds_doc_end info fonts outline : holds (doc_end info fonts outline).
Proof. apply holds_seq; [apply holds_end_prepare | apply holds_end_decides]. Qed.

Lemma holds_perform e : holds (perform deflateSync e).
Proof.
  destruct e; simpl.
  - apply holds_run_call.
  - apply holds_addPage.
  - intros d Hp. cbn [fst]. unfold switchToPage.
    destruct (array_get _ _); cbn [fst]; [| done].
    apply paged_with_pages; [done | exact (p_buf d Hp)].
  - apply holds_flushPages.
  - apply holds_fire.
  - apply holds_doc_end.
Qed.

Lemma paged_new c b : paged (new_PDFDocument c b).
Proof.
  unfold new_PDFDocument. cbv zeta.
  set (d0 := mkDoc _ _ _ _ _ _ _ _ _ _ _ _ _ _ _).
  set (data := Some _).
  assert (E1 : ref data d0
               = (1%nat, update_ref (new_PDFReference d0 1 data)
                           (with_store [Null] 1 d0))) by done.
  rewrite E1.
  set (r := new_PDFReference d0 1 data) in *.
  set (d1 := update_ref r _).
  assert (E2 : deref 1 d1 = Some r) by (by destruct c).
  rewrite E2.
  set (d2 := update_ref _ d1).
  assert (Hp2 : paged d2).
  { split.
    - cbn. lia.
    - intros i r'. unfold d2, update_ref. cbn [heap with_heap].
      change (id (set_own_finalize true r)) with 1%nat.
      destruct (decide (i = 1%nat)) as [->|Hne].
      + rewrite lookup_insert_eq. by intros [= <-].
      + rewrite lookup_insert_ne by done. unfold d1, update_ref.
        cbn [heap with_heap]. change (id r) with 1%nat.
        rewrite lookup_insert_ne by done. cbn. by rewrite lookup_empty.
    - constructor. }
  clearbody d2.
  match goal with |- context [ref ?x d2] =>
    pose proof (paged_ref x d2 Hp2) as Hp3;
    destruct (ref x d2) as [root d3]
  end.
  cbn [snd] in Hp3.
  assert (Hp3' : paged (with_root root d3))
    by (eapply paged_frame; [| | | exact Hp3]; done).
  match goal with |- context [ref ?x (with_root root d3)] =>
    pose proof (paged_ref x _ Hp3') as Hp4;
    destruct (ref x (with_root root d3)) as [o d4]
  end.
  cbn [snd] in Hp4. by repeat apply paged_write.
Qed.

Lemma paged_run tr d : paged d → paged (run deflateSync tr d).
Proof.
  revert d. induction tr as [|e tr IH]; intros d Hp; [done |].
  cbn [run fold_left]. apply IH. by apply holds_perform.
Qed.







Definition flag (P : Prop) `{Decision P} : Z := if decide P then 1 else 0.

(** The calls that empty the page buffer: [flushPages()] and [end()]. *)
Definition flushes (e : event) : Prop :=
  match e with FlushPages | End _ _ _ => True | _ => False end.

Global Instance flushes_dec e : Decision (flushes e).
Proof. destruct e; simpl; apply _. Defined.





Lemma switch_ok n d :
  _pageBufferStart d ≤ n < _pageBufferStart d + Z.of_nat (length (_pageBuffer d)) →
  ∃ pg, _pageBuffer d !! Z.to_nat (n - _pageBufferStart d) = Some pg ∧
        switchToPage n d
        = (with_pages (_pageBuffer d) (_pageBufferStart d) (Some pg) d, Ok pg).
Proof.
  intros Hn. unfold switchToPage, array_get.
  destruct (n - _pageBufferStart d <? 0) eqn:E; [apply Z.ltb_lt in E; lia |].
  destruct (lookup_lt_is_Some_2 (_pageBuffer d) (Z.to_nat (n - _pageBufferStart d)))
    as [pg Hpg]; [lia |].
  exists pg. by rewrite Hpg.
Qed.

Lemma switch_out n d :
  ¬ (_pageBufferStart d ≤ n
     < _pageBufferStart d + Z.of_nat (length (_pageBuffer d))) →
  switchToPage n d
  = (d, Throw (Error
       ("switchToPage(" +:+ pretty n +:+
        ") out of bounds, current buffer covers pages " +:+
        pretty (_pageBufferStart d) +:+ " to " +:+
        pretty (_pageBufferStart d + Z.of_nat (length (_pageBuffer d)) - 1)))).
Proof.
  intros Hn. unfold switchToPage, array_get.
  destruct (n - _pageBufferStart d <? 0) eqn:E; [done |].
  apply Z.ltb_ge in E.
  rewrite (lookup_ge_None_2 (_pageBuffer d)); [done | lia].
Qed.

(** *** What a user of the page buffer can rely on *)

(** X14. [switchToPage(n)] goes by the range [bufferedPageRange()] reports:
    inside it the page at that place of the buffer becomes the current page
    and is returned, the buffer staying as it is; outside it, also below
    the start, the call throws the error naming [n] and the range, and the
    document is untouched. *)
Theorem switchToPage_follows_range (n : Z) (d : PDFDocument) :
  let start := fst (bufferedPageRange d) in
  let count := snd (bufferedPageRange d) in
  (start ≤ n < start + count →
   ∃ pg, _pageBuffer d !! Z.to_nat (n - start) = Some pg ∧
         snd (switchToPage n d) = Ok pg ∧
         page (fst (switchToPage n d)) = Some pg ∧
         bufferedPageRange (fst (switchToPage n d)) = bufferedPageRange d ∧
         pushed (fst (switchToPage n d)) = pushed d) ∧
  (¬ (start ≤ n < start + count) →
   switchToPage n d
   = (d, Throw (Error
        ("switchToPage(" +:+ pretty n +:+
         ") out of bounds, current buffer covers pages " +:+
         pretty start +:+ " to " +:+ pretty (start + count - 1))))).
Proof.
  cbv zeta. unfold bufferedPageRange at 1 2 3 4 5 6 7 8 9. cbn [fst snd]. split.
  - intros Hn. destruct (switch_ok n d Hn) as (pg & Hpg & ->).
    exists pg. by repeat split.
  - apply switch_out.
Qed.

(** X15. Flushing the pages of a document, however it was brought where it is,
    throws nothing and writes nothing: the buffer is emptied, its start
    moves past the pages that were in it, and for each of them in turn the
    timers of its dictionary, its resources and its content are set. *)
Theorem flushPages_ends_every_page (c b : bool) (tr : list event) :
  let d := run deflateSync tr (new_PDFDocument c b) in
  flushPages d
  = (with_timers (timers d ++ concat (map page_ids (_pageBuffer d)))
       (with_pages [] (_pageBufferStart d + Z.of_nat (length (_pageBuffer d)))
                   (page d) d),
     None).
Proof. cbv zeta. apply flushPages_spec, paged_run, paged_new. Qed.



End Pages.

(** Two pages added with [bufferPages], some text on each. *)
Definition two_buffered : list event :=
  [AddPage 612 792; Call (CWrite 4 (Str "BT")); AddPage 612 792;
   Call (CWrite 7 (Str "ET"))].

Lemma switchToPage_follows_range_witness :
  let d := run deflate_stored two_buffered (new_PDFDocument false true) in
  (∃ pg, snd (switchToPage 0 d) = Ok pg ∧ page (fst (switchToPage 0 d)) = Some pg)
  ∧ ∃ msg, switchToPage 2 d = (d, Throw (Error msg)).
Proof.
  intros d.
  assert (Hr : bufferedPageRange d = (0, 2)) by (vm_compute; reflexivity).
  pose proof (switchToPage_follows_range 0 d) as [Hin _].
  pose proof (switchToPage_follows_range 2 d) as [_ Hout].
  rewrite Hr in Hin, Hout. cbn [fst snd] in Hin, Hout.
  split.
  - destruct Hin as (pg & _ & H1 & H2 & _); [lia |].
    exists pg. split; [exact H1 | exact H2].
  - eexists. apply Hout. lia.
Defined.


End PageFacts.

(** ** The page tree *)

Module TreeFacts.
Import Num PDFObject Store StringFacts StoreFacts OrderFacts ObjectFacts.
Import StoreExtras PageFacts.



(** A change to a reference that the tree does not see. *)
Definition kept (r r' : PDFReference) : Prop :=
  own_finalize r' = own_finalize r ∧
  dict_get "Pages" (data r') = dict_get "Pages" (data r) ∧
  dict_get "Kids" (data r') = dict_get "Kids" (data r) ∧
  dict_get "Count" (data r') = dict_get "Count" (data r).




Section Tree.
Variable deflateSync : string → string.



Lemma kept_refl r : kept r r.
Proof. done. Qed.

Lemma kept_trans r1 r2 r3 : kept r1 r2 → kept r2 r3 → kept r1 r3.
Proof. intros (? & ? & ? & ?) (? & ? & ? & ?). repeat split; congruence. Qed.









Lemma kept_offset o r : kept r (set_offset o r).
Proof. done. Qed.

























(** *** What the Pages object is written as *)








End Tree.



End TreeFacts.

(** ** LineWrapper: the ellipsis *)

Module WrapFacts.
Import Num.

(** [\s] of a regular expression, on UTF-16 code units. *)
Definition is_space (c : N) : bool :=
  ((9 <=? c) && (c <=? 13) || (c =? 32) || (c =? 160) || (c =? 5760) ||
   (8192 <=? c) && (c <=? 8202) || (c =? 8232) || (c =? 8233) ||
   (c =? 8239) || (c =? 8287) || (c =? 12288) || (c =? 65279))%N.

(** [s.replace(/\s+$/, '')]: [s] without the white space it ends in. *)
Fixpoint trim_end (s : list N) : list N :=
  match s with
  | [] => []
  | c :: s' =>
      match trim_end s' with
      | [] => if is_space c then [] else [c]
      | t => c :: t
      end
  end.

(** [a <= b] on numbers: false as soon as one side is NaN. *)
Definition le (a b : number) : bool :=
  match a, b with
  | NaN, _ | _, NaN => false
  | _, _ => negb (lt b a)
  end.

(** [this.ellipsis] as the options give it. *)
Inductive ellipsis_option :=
| EllipsisTrue
| EllipsisText (s : list N).

(** [if (this.ellipsis === true) this.ellipsis = '…']. *)
Definition ellipsis_text (e : ellipsis_option) : list N :=
  match e with
  | EllipsisTrue => [8230%N]
  | EllipsisText s => s
  end.

Section Ellipsis.
(** [this.wordWidth], for the font and the spacing in force, and
    [this.lineWidth]. *)
Variable wordWidth : list N → number.
Variable lineWidth : number.
Variable setting : ellipsis_option.

Definition ellipsis : list N := ellipsis_text setting.

(** The loop that removes characters until the ellipsis fits.  Each turn
    makes the buffer shorter; [fuel] bounds the turns. *)
Fixpoint shrink (fuel : nat) (buffer : list N) : option (list N) :=
  match fuel with
  | O => None
  | S fuel' =>
      if negb (bool_decide (buffer = []))
         && gt (wordWidth (buffer ++ ellipsis)) lineWidth
      then shrink fuel' (trim_end (JS.slice 0 (-1) buffer))
      else Some buffer
  end.

(** What [wrap] does to the buffer of the last line that fits under the
    maximum height: the new buffer and the new [textWidth]. *)
Definition append_ellipsis (fuel : nat) (buffer : list N)
    : option (list N * number) :=
  let buffer := trim_end buffer in
  match shrink fuel buffer with
  | None => None
  | Some buffer =>
      let textWidth := wordWidth (buffer ++ ellipsis) in
      let buffer := if le textWidth lineWidth then buffer ++ ellipsis
                    else buffer in
      Some (buffer, wordWidth buffer)
  end.

Lemma slice_drops_last (l : list N) :
  JS.slice 0 (-1) l = take (length l - 1) l.
Proof.
  unfold JS.slice, JS.rel_index. cbv zeta.
  change (0 <? 0) with false. change (-1 <? 0) with true. cbv iota.
  rewrite Z.min_l by lia. rewrite drop_0. f_equal. lia.
Qed.

Lemma trim_end_prefix (s : list N) : trim_end s `prefix_of` s.
Proof.
  induction s as [|c s IH]; [done |]. cbn [trim_end].
  destruct (trim_end s) as [|c' t].
  - destruct (is_space c); [apply prefix_nil | apply prefix_cons, prefix_nil].
  - by apply prefix_cons.
Qed.

Lemma trim_end_twice (s : list N) : trim_end (trim_end s) = trim_end s.
Proof.
  induction s as [|c s IH]; [done |]. cbn [trim_end].
  destruct (trim_end s) as [|c' t] eqn:E.
  - destruct (is_space c) eqn:Ec; [done |]. cbn [trim_end]. by rewrite Ec.
  - cbn [trim_end] in *. by rewrite IH.
Qed.

(** A prefix that ends in no white space is a prefix of what is left when
    the white space at the end is removed. *)
Lemma trim_end_keeps (p m : list N) :
  trim_end p = p → p `prefix_of` m → p `prefix_of` trim_end m.
Proof.
  revert m. induction p as [|c p IH]; intros m Hp Hm; [apply prefix_nil |].
  destruct Hm as [k ->]. cbn [app trim_end] in *.
  destruct (trim_end p) as [|c' t] eqn:Ep.
  - destruct (is_space c) eqn:Ec; [done |]. injection Hp as <-. cbn [app].
    destruct (trim_end k); [done | apply prefix_cons, prefix_nil].
  - injection Hp as Hp.
    assert (H : p `prefix_of` trim_end (p ++ k)).
    { apply IH; [congruence | by exists k]. }
    destruct (trim_end (p ++ k)) as [|c2 t2] eqn:E.
    + apply prefix_nil_inv in H. congruence.
    + by apply prefix_cons.
Qed.

Lemma shrink_spec (fuel : nat) : ∀ buffer : list N,
  (length buffer < fuel)%nat →
  ∃ stem, shrink fuel buffer = Some stem ∧
          stem `prefix_of` buffer ∧
          (stem = [] ∨ gt (wordWidth (stem ++ ellipsis)) lineWidth = false) ∧
          (trim_end buffer = buffer → trim_end stem = stem) ∧
          (∀ p, trim_end p = p → p `prefix_of` buffer →
                (length stem < length p)%nat →
                gt (wordWidth (p ++ ellipsis)) lineWidth = true).
Proof.
  induction fuel as [|fuel IH]; intros buffer Hf; [lia |].
  cbn [shrink].
  destruct (negb (bool_decide (buffer = []))
            && gt (wordWidth (buffer ++ ellipsis)) lineWidth) eqn:E.
  - apply andb_true_iff in E as [Hne Hover].
    apply negb_true_iff, bool_decide_eq_false in Hne.
    set (b' := trim_end (JS.slice 0 (-1) buffer)).
    assert (Hb' : b' `prefix_of` take (length buffer - 1) buffer).
    { unfold b'. rewrite slice_drops_last. apply trim_end_prefix. }
    assert (Hlen : (length b' < length buffer)%nat).
    { apply prefix_length in Hb'. rewrite length_take in Hb'.
      destruct buffer; [done |]. cbn [length] in *. lia. }
    destruct (IH b') as (stem & Hs & Hpre & Hfit & Htrim & Hmax); [lia |].
    exists stem. split; [exact Hs |]. split.
    { etrans; [exact Hpre |]. etrans; [exact Hb' |]. apply prefix_take. }
    split; [exact Hfit |]. split.
    { intros _. apply Htrim. apply trim_end_twice. }
    intros p Hp Hpb Hlp.
    destruct (decide (p = buffer)) as [->|Hpne]; [exact Hover |].
    apply Hmax; [exact Hp | | exact Hlp].
    unfold b'. rewrite slice_drops_last. apply trim_end_keeps; [exact Hp |].
    destruct Hpb as [k ->]. destruct k as [|c k] using rev_ind.
    { by rewrite app_nil_r in Hpne. }
    rewrite app_assoc, length_app. cbn [length].
    rewrite take_app_le by lia. rewrite take_ge by lia. by exists k.
  - exists buffer. split; [done |]. split; [done |]. split.
    { apply andb_false_iff in E as [E|E]; [left | by right].
      by apply negb_false_iff, bool_decide_eq_true in E. }
    split; [done |].
    intros p _ Hpb Hlp. apply prefix_length in Hpb. lia.
Qed.

Lemma append_ellipsis_spec (fuel : nat) (buffer : list N) :
  (length buffer < fuel)%nat →
  ∃ stem out,
    append_ellipsis fuel buffer = Some (out, wordWidth out) ∧
    stem `prefix_of` buffer ∧ trim_end stem = stem ∧
    (∀ p, trim_end p = p → p `prefix_of` buffer →
          (length stem < length p)%nat →
          gt (wordWidth (p ++ ellipsis)) lineWidth = true) ∧
    (out = stem ++ ellipsis ∧ le (wordWidth out) lineWidth = true ∨
     out = stem ∧ le (wordWidth (stem ++ ellipsis)) lineWidth = false ∧
     (stem = [] ∨ gt (wordWidth (stem ++ ellipsis)) lineWidth = false)).
Proof.
  intros Hf. unfold append_ellipsis. cbv zeta.
  pose proof (trim_end_prefix buffer) as Hb0.
  destruct (shrink_spec fuel (trim_end buffer))
    as (stem & -> & Hpre & Hfit & Htrim & Hmax).
  { apply prefix_length in Hb0. lia. }
  exists stem.
  exists (if le (wordWidth (stem ++ ellipsis)) lineWidth then stem ++ ellipsis
          else stem).
  split; [done |]. split; [by etrans |].
  split; [apply Htrim, trim_end_twice |]. split.
  - intros p Hp Hpb. apply Hmax; [exact Hp |]. by apply trim_end_keeps.
  - destruct (le (wordWidth (stem ++ ellipsis)) lineWidth) eqn:E.
    + by left.
    + right. by repeat split.
Qed.

(** X19. When the ellipsis is engaged the line is cut to the longest part of
    the buffer, trailing white space aside, that together with the
    ellipsis is not wider than the line, and the ellipsis is appended to
    it; when not even the ellipsis alone fits, or a width is not a number,
    the ellipsis is left out.  The loop ends after at most as many turns
    as the buffer has characters. *)
Theorem ellipsis_fits_or_is_left_out (fuel : nat) (buffer : list N) :
  (length buffer < fuel)%nat →
  ∃ stem out,
    append_ellipsis fuel buffer = Some (out, wordWidth out) ∧
    stem `prefix_of` buffer ∧ trim_end stem = stem ∧
    (∀ p, trim_end p = p → p `prefix_of` buffer →
          (length stem < length p)%nat →
          gt (wordWidth (p ++ ellipsis)) lineWidth = true) ∧
    (out = stem ++ ellipsis ∧ le (wordWidth out) lineWidth = true ∨
     out = stem ∧ le (wordWidth (stem ++ ellipsis)) lineWidth = false ∧
     (stem = [] ∨ gt (wordWidth (stem ++ ellipsis)) lineWidth = false)).
Proof. exact (append_ellipsis_spec fuel buffer). Qed.

End Ellipsis.

(** A font in which every character is 6 wide. *)
Definition six_wide (s : list N) : number :=
  Finite (inject_Z (6 * Z.of_nat (length s))).

Lemma ellipsis_fits_or_is_left_out_witness :
  append_ellipsis six_wide (Finite 30) EllipsisTrue 8
                  [72; 101; 108; 108; 111; 32; 119]%N
  = Some ([72; 101; 108; 108; 8230]%N, Finite 30).
Proof.
  destruct (ellipsis_fits_or_is_left_out six_wide (Finite 30) EllipsisTrue 8
              [72; 101; 108; 108; 111; 32; 119]%N) as (stem & out & H & _).
  - cbn. lia.
  - reflexivity.
Defined.

(** ** LineWrapper: cutting a word that is too long *)

Section Fit.
(** [this.wordWidth] with finite widths, and [this.spaceLeft]. *)
Variable wordWidth : list N → Q.
Variable spaceLeft : Q.

(** The loop of [eachWord] that shrinks or grows the piece after the first
    guess: [l] and [w] when it ends. *)
Fixpoint adjust (fuel : nat) (word : list N) (l : Z) (w : Q)
    (mustShrink mightGrow : bool) : option (Z * Q) :=
  match fuel with
  | O => None
  | S fuel' =>
      if mustShrink || mightGrow then
        if mustShrink then
          let l := l - 1 in
          let w := wordWidth (JS.slice 0 l word) in
          adjust fuel' word l w (Qlt_bool spaceLeft w && (0 <? l)) mightGrow
        else
          let l := l + 1 in
          let w := wordWidth (JS.slice 0 l word) in
          adjust fuel' word l w (Qlt_bool spaceLeft w && (0 <? l))
                 (Qle_bool w spaceLeft && (l <? Z.of_nat (length word)))
      else Some (l, w)
  end.

(** One turn of [while (word.length)]: how much of [word], whose width is
    [w], goes into the space left.  The first guess divides by [w]: a
    width of 0 there makes it infinite or NaN, which is left out. *)
Definition fit (fuel : nat) (word : list N) (w : Q) : option (Z * Q) :=
  if Qlt_bool spaceLeft w then
    if Qeq_bool w 0 then None
    else
      let l := Qceiling (spaceLeft / (w / inject_Z (Z.of_nat (length word)))) in
      let w := wordWidth (JS.slice 0 l word) in
      let mightGrow := Qle_bool w spaceLeft && (l <? Z.of_nat (length word)) in
      adjust fuel word l w (Qlt_bool spaceLeft w && (0 <? l)) mightGrow
  else
    let l := Z.of_nat (length word) in
    adjust fuel word l w (Qlt_bool spaceLeft w && (0 <? l)) false.

Lemma slice_prefix (l : Z) (word : list N) :
  0 ≤ l ≤ Z.of_nat (length word) → JS.slice 0 l word = take (Z.to_nat l) word.
Proof.
  intros Hl. unfold JS.slice, JS.rel_index. cbv zeta.
  change (0 <? 0) with false. cbv iota.
  replace (l <? 0) with false by (symmetry; apply Z.ltb_ge; lia).
  rewrite !Z.min_l by lia. rewrite drop_0. f_equal. lia.
Qed.

Lemma Qlt_bool_false (a b : Q) : Qlt_bool a b = false ↔ (b <= a)%Q.
Proof.
  unfold Qlt_bool. rewrite negb_false_iff. apply Qle_bool_iff.
Qed.

Lemma Qlt_bool_true (a b : Q) : Qlt_bool a b = true ↔ (a < b)%Q.
Proof.
  unfold Qlt_bool. rewrite negb_true_iff. split.
  - intros H. apply Qnot_le_lt. intros Hle. apply Qle_bool_iff in Hle. congruence.
  - intros H. destruct (Qle_bool b a) eqn:E; [| done].
    apply Qle_bool_iff in E. exfalso. by apply (Qlt_not_le a b).
Qed.

(** The width of the first [k] characters. *)
Definition width_at (word : list N) (k : Z) : Q :=
  wordWidth (take (Z.to_nat k) word).

(** Shrinking: the piece loses a character a turn until it fits or is
    empty. *)
Lemma adjust_shrinks (word : list N) (fuel : nat) : ∀ (l : Z) (w : Q),
  0 ≤ l ≤ Z.of_nat (length word) → (Z.to_nat l < fuel)%nat →
  ∃ l' w', adjust fuel word l w (Qlt_bool spaceLeft w && (0 <? l)) false
           = Some (l', w') ∧
           0 ≤ l' ≤ l ∧
           (l' = l ∧ w' = w ∨ l' < l ∧ w' = width_at word l') ∧
           ((w' <= spaceLeft)%Q ∨ l' = 0) ∧
           (l' < l → (spaceLeft < w)%Q ∧
                     ∀ k, l' < k < l → (spaceLeft < width_at word k)%Q).
Proof.
  induction fuel as [|fuel IH]; intros l w Hl Hf; [lia |].
  cbn [adjust]. rewrite orb_false_r.
  destruct (Qlt_bool spaceLeft w && (0 <? l)) eqn:E.
  - apply andb_true_iff in E as [Ew El].
    apply Qlt_bool_true in Ew. apply Z.ltb_lt in El. cbv zeta.
    rewrite slice_prefix by lia. fold (width_at word (l - 1)).
    destruct (IH (l - 1) (width_at word (l - 1)))
      as (l' & w' & -> & Hl' & Hcase & Hfit & Hover); [lia | lia |].
    exists l', w'. split; [done |]. split; [lia |]. split; [| split].
    + right. split; [lia |]. destruct Hcase as [[-> ->]|[_ ->]]; done.
    + exact Hfit.
    + intros _. split; [exact Ew |]. intros k Hk.
      destruct (decide (k = l - 1)) as [->|Hne].
      * destruct (decide (l' = l - 1)) as [->|Hne']; [lia |].
        by destruct (Hover ltac:(lia)) as [Hw1 _].
      * destruct (Hover ltac:(lia)) as [_ Hk']. apply Hk'. lia.
  - exists l, w. split; [done |]. split; [lia |]. split; [by left |].
    split; [| lia].
    apply andb_false_iff in E as [E|E].
    + left. by apply Qlt_bool_false.
    + right. apply Z.ltb_ge in E. lia.
Qed.

(** Growing: the piece gains a character a turn while it fits, and gives
    back the one that made it too wide. *)
Lemma adjust_grows (word : list N) (fuel : nat) : ∀ l : Z,
  0 ≤ l ≤ Z.of_nat (length word) →
  (width_at word l <= spaceLeft)%Q →
  (2 * length word - Z.to_nat l + 2 ≤ fuel)%nat →
  ∃ l', adjust fuel word l (width_at word l)
               (Qlt_bool spaceLeft (width_at word l) && (0 <? l))
               (Qle_bool (width_at word l) spaceLeft
                && (l <? Z.of_nat (length word)))
        = Some (l', width_at word l') ∧
        l ≤ l' ≤ Z.of_nat (length word) ∧
        (width_at word l' <= spaceLeft)%Q ∧
        (l' = Z.of_nat (length word) ∨
         (spaceLeft < width_at word (l' + 1))%Q).
Proof.
  induction fuel as [|fuel IH]; intros l Hl Hw Hf; [lia |].
  cbn [adjust].
  replace (Qlt_bool spaceLeft (width_at word l)) with false
    by (symmetry; by apply Qlt_bool_false).
  replace (Qle_bool (width_at word l) spaceLeft) with true
    by (symmetry; by apply Qle_bool_iff).
  cbn [andb orb].
  destruct (l <? Z.of_nat (length word)) eqn:El.
  - apply Z.ltb_lt in El. cbv zeta.
    rewrite slice_prefix by lia. fold (width_at word (l + 1)).
    destruct (Qlt_bool spaceLeft (width_at word (l + 1))) eqn:Ew.
    + replace (Qle_bool (width_at word (l + 1)) spaceLeft) with false.
      2:{ symmetry. apply not_true_iff_false. rewrite Qle_bool_iff.
          apply Qlt_bool_true in Ew. by apply Qlt_not_le. }
      cbn [andb].
      destruct (adjust_shrinks word fuel (l + 1) (width_at word (l + 1)))
        as (l' & w' & Ha & Hl' & Hcase & Hfit & Hover); [lia | lia |].
      rewrite Ew in Ha. cbn [andb] in Ha. rewrite Ha. apply Qlt_bool_true in Ew.
      assert (Hl'' : l' = l).
      { destruct Hcase as [[-> ->]|[Hlt ->]].
        - destruct Hfit as [Hfit|Hfit]; [| lia].
          exfalso. by apply (Qlt_not_le _ _ Ew).
        - destruct (decide (l' = l)) as [->|Hne]; [done |].
          destruct (Hover Hlt) as [_ Hk].
          exfalso. apply (Qlt_not_le _ _ (Hk l ltac:(lia))). exact Hw. }
      subst l'. exists l.
      destruct Hcase as [[Hc _]|[_ ->]]; [lia |].
      split; [done |]. split; [lia |]. split; [done | by right].
    + apply Qlt_bool_false in Ew. cbn [andb].
      destruct (IH (l + 1)) as (l' & Ha & Hl' & Hfit & Hmax); [lia | done | lia |].
      replace (Qlt_bool spaceLeft (width_at word (l + 1))) with false in Ha
        by (symmetry; by apply Qlt_bool_false).
      cbn [andb] in Ha. rewrite Ha.
      exists l'. split; [done |]. split; [lia |]. done.
  - apply Z.ltb_ge in El. exists l. split; [done |]. split; [lia |].
    split; [done |]. left. lia.
Qed.

Lemma guess_in_range (word : list N) (w : Q) :
  word ≠ [] → (0 <= spaceLeft)%Q → (spaceLeft < w)%Q →
  0 ≤ Qceiling (spaceLeft / (w / inject_Z (Z.of_nat (length word))))
    ≤ Z.of_nat (length word).
Proof.
  intros Hne H0 Hw.
  set (n := Z.of_nat (length word)).
  assert (Hn : (0 < inject_Z n)%Q).
  { change 0%Q with (inject_Z 0). rewrite <- Zlt_Qlt. unfold n.
    destruct word; [done |]. cbn [length]. lia. }
  assert (Hy : (0 < w / inject_Z n)%Q).
  { apply Qlt_shift_div_l; [done |]. rewrite Qmult_0_l.
    by apply (Qle_lt_trans _ spaceLeft). }
  set (x := (spaceLeft / (w / inject_Z n))%Q).
  assert (Hx0 : (0 <= x)%Q).
  { apply Qle_shift_div_l; [done |]. by rewrite Qmult_0_l. }
  assert (Hx1 : (x < inject_Z n)%Q).
  { apply Qlt_shift_div_r; [done |].
    assert (E : (inject_Z n * (w / inject_Z n) == w)%Q).
    { field. intros E. rewrite E in Hn. by apply (Qlt_irrefl 0). }
    by rewrite E. }
  pose proof (Qle_ceiling x) as H1. pose proof (Qceiling_lt x) as H2.
  set (c := Qceiling x) in *. clearbody c x. clear Hy.
  unfold Z.sub in H2. rewrite inject_Z_plus in H2.
  rewrite inject_Z_opp in H2. change (inject_Z 1) with 1%Q in H2. split.
  - rewrite Zle_Qle. change (inject_Z 0) with 0%Q. lra.
  - apply Z.lt_succ_r. unfold Z.succ. rewrite Zlt_Qlt.
    rewrite inject_Z_plus. change (inject_Z 1) with 1%Q. lra.
Qed.

(** X20. The piece cut from a word is the longest beginning of it that fits
    the space left, and none of it when not even the first character
    fits: for widths that do not decrease as characters are added, a space
    left that is not negative, and the width [w] of the whole word.  The
    loop ends within [2 * word.length + 2] turns. *)
Theorem cut_is_longest_fit (fuel : nat) (word : list N) :
  word ≠ [] → (0 <= spaceLeft)%Q →
  (∀ a b, (wordWidth a <= wordWidth (a ++ b))%Q) →
  (2 * length word + 2 ≤ fuel)%nat →
  ∃ l : nat,
    fit fuel word (wordWidth word)
    = Some (Z.of_nat l, wordWidth (take l word)) ∧
    (l ≤ length word)%nat ∧
    (l = 0%nat ∨ (wordWidth (take l word) <= spaceLeft)%Q) ∧
    (∀ k : nat, (k ≤ length word)%nat →
                (wordWidth (take k word) <= spaceLeft)%Q → (k ≤ l)%nat).
Proof.
  intros Hne H0 Hmono Hf.
  assert (Hres : ∃ l', fit fuel word (wordWidth word)
                       = Some (l', width_at word l') ∧
                       0 ≤ l' ≤ Z.of_nat (length word) ∧
                       ((width_at word l' <= spaceLeft)%Q ∨ l' = 0) ∧
                       (l' = Z.of_nat (length word) ∨
                        (spaceLeft < width_at word (l' + 1))%Q)).
  { unfold fit. destruct (Qlt_bool spaceLeft (wordWidth word)) eqn:Ew.
    - apply Qlt_bool_true in Ew.
      replace (Qeq_bool (wordWidth word) 0) with false.
      2:{ symmetry. apply not_true_iff_false. rewrite Qeq_bool_iff.
          intros E. rewrite E in Ew. by apply (Qlt_not_le _ _ Ew). }
      cbv zeta.
      pose proof (guess_in_range word (wordWidth word) Hne H0 Ew) as Hg.
      set (l0 := Qceiling _) in *. rewrite slice_prefix by done.
      fold (width_at word l0).
      destruct (Qlt_bool spaceLeft (width_at word l0)) eqn:E0.
      + replace (Qle_bool (width_at word l0) spaceLeft) with false.
        2:{ symmetry. apply not_true_iff_false. rewrite Qle_bool_iff.
            apply Qlt_bool_true in E0. by apply Qlt_not_le. }
        cbn [andb orb].
        destruct (adjust_shrinks word fuel l0 (width_at word l0))
          as (l' & w' & Ha & Hl' & Hcase & Hfit & Hover); [lia | lia |].
        rewrite E0 in Ha. cbn [andb] in Ha. rewrite Ha.
        apply Qlt_bool_true in E0.
        exists l'. destruct Hcase as [[-> ->]|[Hlt ->]].
        * split; [done |]. split; [lia |]. split; [done |].
          destruct Hfit as [Hfit| ->]; [exfalso; by apply (Qlt_not_le _ _ E0) |].
          right. apply (Qlt_le_trans _ (width_at word 0)); [done |].
          unfold width_at. change (Z.to_nat 0) with 0%nat.
          change (take 0 word) with (@nil N). apply (Hmono [] _).
        * split; [done |]. split; [lia |]. split; [done |]. right.
          destruct (Hover Hlt) as [_ Hk].
          destruct (decide (l' + 1 = l0)) as [<-|Hne']; [done |].
          apply Hk. lia.
      + apply Qlt_bool_false in E0. cbn [andb].
        destruct (adjust_grows word fuel l0) as (l' & Ha & Hl' & Hfit & Hmax);
          [lia | done | lia |].
        replace (Qlt_bool spaceLeft (width_at word l0)) with false in Ha
          by (symmetry; by apply Qlt_bool_false).
        cbn [andb] in Ha. rewrite Ha.
        exists l'. split; [done |]. split; [lia |]. split; [by left | done].
    - apply Qlt_bool_false in Ew. cbv zeta.
      replace (Qlt_bool spaceLeft (wordWidth word)) with false
        by (symmetry; by apply Qlt_bool_false).
      destruct fuel as [|fuel]; [lia |]. cbn [adjust andb orb].
      exists (Z.of_nat (length word)).
      unfold width_at. rewrite Nat2Z.id, firstn_all.
      split; [done |]. split; [lia |]. split; [by left | by left]. }
  destruct Hres as (l' & Hfit & Hl' & Hok & Hmax).
  exists (Z.to_nat l'). rewrite Z2Nat.id by lia.
  split; [exact Hfit |]. split; [lia |]. split.
  { destruct Hok as [Hok| ->]; [by right | by left]. }
  intros k Hle Hk.
  destruct (decide (k ≤ Z.to_nat l')%nat) as [|Hgt]; [done |].
  destruct Hmax as [->|Hmax]; [lia |]. exfalso.
  apply (Qlt_not_le _ _ Hmax). apply (Qle_trans _ (wordWidth (take k word))); [| done].
  unfold width_at.
  rewrite <- (take_drop (Z.to_nat (l' + 1)) (take k word)).
  rewrite take_take, Nat.min_l by lia. apply Hmono.
Qed.

End Fit.

(** The same font, with finite widths. *)
Definition six_a_character (s : list N) : Q :=
  inject_Z (6 * Z.of_nat (length s)).

Lemma cut_is_longest_fit_witness :
  fit six_a_character 20 12 [72; 101; 108; 108; 111]%N 30 = Some (3, 18%Q).
Proof.
  destruct (cut_is_longest_fit six_a_character 20 12 [72; 101; 108; 108; 111]%N)
    as (l & H & _).
  - done.
  - done.
  - intros a b. unfold six_a_character. rewrite <- Zle_Qle, length_app. lia.
  - cbn. lia.
  - reflexivity.
Defined.

End WrapFacts.

(** ** The properties of the object store *)

Module StoreClaims.
Import PDFObject Store StringFacts ObjectFacts StoreFacts OrderFacts.
Import PageFacts.

(** A run to finalize a small document with: one page, a line of content,
    [end()], and the six timers in the order they were set. *)
Definition one_page : list event :=
  [AddPage 612 792; Call (CWrite 4 (Str "BT"));
   End [("Producer", VName "PDFKit")] [] [CEnd 3 None];
   Fire 0; Fire 0; Fire 0; Fire 0; Fire 0; Fire 0].

(** The same, the timers running in another order. *)
Definition one_page_shuffled : list event :=
  [AddPage 612 792; Call (CWrite 4 (Str "BT"));
   End [("Producer", VName "PDFKit")] [] [CEnd 3 None];
   Fire 5; Fire 2; Fire 0; Fire 2; Fire 0; Fire 0].

(** The first run, and then [end()] once more. *)
Definition ended_again : list event := one_page ++ [End [] [] []].

(** The outline object ended twice, its two timers, [end()], and the timer
    of the Info object. *)
Definition ended_twice : list event :=
  [Call (CEnd 3 None); Call (CEnd 3 None); Fire 0; Fire 0; End [] [] [];
   Fire 0].

(** *** Entries of the table *)

Lemma length_app_string (a b : string) :
  String.length (a +:+ b) = (String.length a + String.length b)%nat.
Proof. by rewrite <- !length_chars, chars_app, length_app. Qed.

Lemma xref_entry_length (o : slot) : String.length (xref_entry o) = 19%nat.
Proof.
  unfold xref_entry. rewrite length_app_string, length_slice_last; [done |].
  rewrite length_app_string. simpl. lia.
Qed.

Lemma offset_field_entry (o : slot) :
  offset_field (xref_entry o) =
  JS.slice_last 10 ("0000000000" +:+ show_slot o).
Proof.
  unfold offset_field, xref_entry. apply chars_inj.
  rewrite chars_substring, chars_app, drop_0.
  apply take_app_length'. rewrite length_chars, length_slice_last; [done |].
  rewrite length_app_string. simpl. lia.
Qed.

(** The field holds the last ten decimal digits of the offset. *)
Lemma offset_field_value (off : Z) :
  0 ≤ off →
  parse_decimal (offset_field (xref_entry (Offset off))) = Some (off mod 10 ^ 10).
Proof.
  intros H. rewrite offset_field_entry. simpl show_slot.
  apply (parse_slice_last 10).
  - unfold parse_decimal. rewrite chars_app, read_digits_app.
    change (read_digits 0 (chars "0000000000")) with (Some 0).
    by apply parse_pretty.
  - rewrite length_app_string. simpl. lia.
Qed.

(** C1, the counterexample: an object whose header begins at byte 10^10
    gets the offset field 0000000000, which reads as 0. *)
Lemma xref_offset_field_truncated :
  xref_entry (Offset 10000000000) = "0000000000 00000 n " ∧
  parse_decimal (offset_field (xref_entry (Offset 10000000000))) = Some 0 ∧
  parse_decimal (offset_field (xref_entry (Offset 10000000000)))
    ≠ Some 10000000000.
Proof. by vm_compute. Qed.

Lemma section_pushed from d :
  ∃ rest, pushed (fst (_finalize from d))
          = pushed d ++ xref_section (_offsets d) ++ rest.
Proof.
  destruct (_finalize_spec from d) as [[e ->]|[t ->]]; cbn [fst].
  - exists [Some (to_buffer (Str "trailer"))]. simpl.
    unfold xref_lines, xref_section. by rewrite map_app, map_map.
  - exists (map Some [to_buffer (Str "trailer"); t; to_buffer (Str "startxref");
                      to_buffer (Str (pretty (_offset d)));
                      to_buffer (Str "%%EOF")] ++ [None]).
    simpl. unfold xref_lines, xref_section.
    rewrite map_app, map_map, <- app_assoc. f_equal. simpl.
    do 3 f_equal. by rewrite <- app_assoc.
Qed.

Lemma entry_bytes (offs : list slot) (e : string) :
  e ∈ xref_table offs → JS.strlen (to_buffer (Str e)) = 20.
Proof.
  intros He. unfold JS.strlen, to_buffer.
  rewrite length_app_string. unfold xref_table in He.
  apply elem_of_cons in He as [->|He]; [done |].
  apply list_elem_of_fmap in He as (o & -> & _).
  rewrite xref_entry_length. done.
Qed.

(** C1, as amended.  At every point of every run the objects allocated are
    those with the ids 1 to N, N being the length of [_offsets], and a call
    of [_finalize] first pushes the cross-reference section of [_offsets]
    as it is then: the line [xref], the line [0 N+1], and a table of exactly
    N + 1 entries, of 20 bytes each with its newline, the first the free
    entry and entry [i] made from [_offsets[i - 1]], whatever the order the
    objects were finalized in.  Where that slot holds an offset, object
    [i]'s header begins at that byte of the output, and the field reads as
    the offset modulo 10^10, so as the offset itself below 10^10.  With
    [_waiting] at zero and no object finalized twice every slot holds an
    offset.  And every end of stream in the output comes after such a
    section and five more chunks, made from the [_offsets] a call of
    [_finalize] found, its offsets pointing at the headers before it; if no
    object was finalized twice these are the first entries of [_offsets] as
    it is at the end. *)
Theorem xref_table_by_id (deflateSync : string → string) (c b : bool)
    (tr : list event) :
  let d := run deflateSync tr (new_PDFDocument c b) in
  let N := length (_offsets d) in
  (∀ i, is_Some (deref i d) ↔ (1 ≤ i ≤ N)%nat) ∧
  (∀ from, ∃ rest, pushed (fst (_finalize from d))
                   = pushed d ++ xref_section (_offsets d) ++ rest) ∧
  xref_section (_offsets d)
  = map (fun s => Some (s +:+ nl))
        ("xref" :: ("0 " +:+ pretty (Z.of_nat N + 1)) :: xref_table (_offsets d)) ∧
  length (xref_table (_offsets d)) = S N ∧
  xref_table (_offsets d) !! 0%nat = Some "0000000000 65535 f " ∧
  (∀ e, e ∈ xref_table (_offsets d) → JS.strlen (e +:+ nl) = 20) ∧
  (∀ k o, _offsets d !! k = Some o →
     xref_table (_offsets d) !! S k = Some (xref_entry o)) ∧
  (∀ k off, _offsets d !! k = Some (Offset off) →
     header_at (S k) off (pushed d) ∧
     parse_decimal (offset_field (xref_entry (Offset off)))
       = Some (off mod 10 ^ 10) ∧
     (off < 10 ^ 10 →
      parse_decimal (offset_field (xref_entry (Offset off))) = Some off)) ∧
  (fresh (log d) → _waiting d = 0 → Forall is_Offset (_offsets d)) ∧
  (∀ pre post, pushed d = pre ++ None :: post →
     ∃ body s w e offs rest,
       Finalize s w e offs ∈ log d ∧
       pre = body ++ xref_section offs ++ rest ∧ length rest = 5%nat ∧
       (length offs ≤ N)%nat ∧
       (∀ k off, offs !! k = Some (Offset off) → header_at (S k) off body) ∧
       (fresh (log d) →
        Forall is_Offset offs ∧ offs = take (length offs) (_offsets d))).
Proof.
  intros d N. pose proof (good_reachable deflateSync c b tr) as Hg.
  fold d in Hg. subst N. clearbody d.
  split; [| split; [| split; [| split; [| split; [| split; [| split;
    [| split; [| split]]]]]]]].
  - intros i. split.
    + intros [r Hr]. by destruct (g_heap d Hg i r Hr) as (_ & _ & H).
    + apply (g_dom d Hg).
  - intros from. apply section_pushed.
  - reflexivity.
  - unfold xref_table. simpl. by rewrite length_map.
  - reflexivity.
  - apply entry_bytes.
  - intros k o Hk. unfold xref_table. simpl. by rewrite list_lookup_fmap, Hk.
  - intros k off Hk. pose proof (g_hdr d Hg k off Hk) as Hh.
    pose proof (header_at_nonneg _ _ _ Hh) as H0.
    split; [exact Hh |]. split; [by apply offset_field_value |].
    intros Hlt. rewrite offset_field_value by done.
    f_equal. apply Z.mod_small. lia.
  - intros Hfr Hw. destruct (g_wait d Hg Hfr) as [Hn Hu].
    apply no_Null_is_Offset; [lia | done].
  - intros pre post H.
    destruct (g_eof d Hg pre post H)
      as (body & s & w & e & offs & rest & Hin & Hpre & Hrest & Hhd).
    destruct (g_fin d Hg s w e offs Hin) as (_ & _ & Hlen & Hfo).
    exists body, s, w, e, offs, rest.
    repeat (split; [done |]). intros Hfr.
    destruct (Hfo Hfr) as [Hall [more Hmore]]. split; [done |].
    by rewrite Hmore, take_app_length.
Qed.

Lemma xref_table_by_id_witness :
  let d := run deflate_stored one_page_shuffled (new_PDFDocument true false) in
  pushed d = removelast (pushed d) ++ None :: [] ∧ fresh (log d) ∧
  ∃ body s w e offs rest,
    Finalize s w e offs ∈ log d ∧
    removelast (pushed d) = body ++ xref_section offs ++ rest ∧
    Forall is_Offset offs ∧ offs = take (length offs) (_offsets d).
Proof.
  intros d.
  assert (H : pushed d = removelast (pushed d) ++ None :: [])
    by (vm_compute; reflexivity).
  assert (Hfresh : fresh (log d))
    by (apply freshb_fresh; vm_compute; reflexivity).
  split; [exact H |]. split; [exact Hfresh |].
  destruct (xref_table_by_id deflate_stored true false one_page_shuffled)
    as (_ & _ & _ & _ & _ & _ & _ & _ & _ & Heof).
  destruct (Heof (removelast (pushed d)) [] H)
    as (body & s & w & e & offs & rest & Hin & Hpre & _ & _ & _ & Hfr).
  destruct (Hfr Hfresh) as [Hall Htake].
  exists body, s, w, e, offs, rest.
  split; [exact Hin |]. split; [exact Hpre |]. split; [exact Hall | exact Htake].
Defined.

(** *** When [_finalize] is called *)

Lemma initial_quiet c b :
  _ended (new_PDFDocument c b) = false ∧
  finalize_calls (new_PDFDocument c b) = 0%nat ∧
  eofs (new_PDFDocument c b) = 0%nat.
Proof. by destruct c, b. Qed.

Lemma finalize_calls_pos (m : mark) (d : PDFDocument) :
  is_Finalize m → m ∈ log d → (0 < finalize_calls d)%nat.
Proof.
  intros Hm Hin. unfold finalize_calls.
  assert (H : m ∈ filter is_Finalize (log d)) by (by apply list_elem_of_filter).
  destruct (filter is_Finalize (log d)); [by apply elem_of_nil in H |].
  simpl. lia.
Qed.

(** *** What [end()] leaves pending *)

(** Slot [k] of [_offsets], if it is null, stays null. *)
Definition spared (k : nat) (d d' : PDFDocument) : Prop :=
  _offsets d !! k = Some Null → _offsets d' !! k = Some Null.

(** An action that keeps the invariants and leaves slot [k] alone. *)
Definition sound (k : nat) (a : action) : Prop :=
  ∀ d, good d → paged d →
       good (fst (a d)) ∧ paged (fst (a d)) ∧ spared k d (fst (a d)).

Lemma sound_of k a :
  keeps a → holds a → (∀ d, good d → paged d → spared k d (fst (a d))) →
  sound k a.
Proof. intros Hk Hh Hs d Hg Hp. split; [by apply Hk |]. split; [by apply Hh | by apply Hs]. Qed.

Lemma sound_seq k a b : sound k a → sound k b → sound k (seq a b).
Proof.
  intros Ha Hb d Hg Hp. unfold seq. destruct (Ha d Hg Hp) as (Hg1 & Hp1 & Hs1).
  destruct (a d) as [d1 [e|]]; cbn [fst] in *; [done |].
  destruct (Hb d1 Hg1 Hp1) as (Hg2 & Hp2 & Hs2).
  split; [done |]. split; [done |]. intros H. by apply Hs2, Hs1.
Qed.

Lemma sound_skip k : sound k skip.
Proof. intros d Hg Hp. split; [done |]. split; [done |]. by intros H. Qed.

Lemma sound_seq_all k l : Forall (sound k) l → sound k (seq_all l).
Proof.
  induction 1 as [|a l Ha _ IH]; cbn [seq_all]; [apply sound_skip |].
  by apply sound_seq.
Qed.

Lemma array_set_spares (k j : nat) (v : slot) (l : list slot) :
  k ≠ j → l !! k = Some Null → array_set j v l !! k = Some Null.
Proof.
  intros Hne Hk. unfold array_set. destruct (j <? length l)%nat.
  - by rewrite list_lookup_insert_ne.
  - rewrite lookup_app_l; [done |]. by apply lookup_lt_Some in Hk.
Qed.

Lemma spared_refEnd k r d :
  id r = 1%nat → k ≠ 0%nat → spared k d (fst (_refEnd r d)).
Proof.
  intros Hid Hk H. unfold _refEnd. cbv zeta. rewrite Hid.
  set (d2 := with_store _ _ _).
  assert (H2 : _offsets d2 !! k = Some Null) by (by apply array_set_spares).
  clearbody d2. destruct ((_waiting d2 =? 0) && _ended d2); [| done].
  unfold seq. pose proof (finalize_offsets FromRefEnd d2) as Ho.
  destruct (_finalize FromRefEnd d2) as [d3 [e|]]; cbn [fst pure] in *;
    simpl; by rewrite Ho.
Qed.

Lemma spared_Pages_finalize k r d :
  id r = 1%nat → k ≠ 0%nat → spared k d (fst (Pages_finalize r d)).
Proof.
  intros Hid Hk H. unfold Pages_finalize. cbv zeta.
  destruct (all_buffers _); [| done].
  by apply spared_refEnd.
Qed.

Lemma spared_finalize k i d :
  good d → paged d → k ≠ 0%nat → spared k d (fst (finalize i d)).
Proof.
  intros Hg Hp Hk H. unfold finalize. destruct (deref i d) as [r|] eqn:E; [| done].
  destruct (own_finalize r) eqn:Eo; [| done].
  destruct (p_own d Hp i r E Eo) as [_ Hid]. by apply spared_Pages_finalize.
Qed.

Lemma sound_ref_write k i c : sound k (ref_write i c).
Proof.
  apply sound_of; [apply keeps_ref_write | apply holds_ref_write |].
  intros d _ _ H. unfold ref_write. by destruct (deref i d).
Qed.

Lemma sound_finalize k i : k ≠ 0%nat → sound k (finalize i).
Proof.
  intros Hk. apply sound_of; [apply keeps_finalize | apply holds_finalize |].
  intros d Hg Hp. by apply spared_finalize.
Qed.

Lemma sound_ref_end k i c : k ≠ 0%nat → sound k (ref_end i c).
Proof.
  intros Hk. apply sound_seq; [| by apply sound_finalize].
  destruct c as [c|]; [| apply sound_skip].
  destruct (chunk_truthy c); [apply sound_ref_write | apply sound_skip].
Qed.

Lemma sound_run_call k c : k ≠ 0%nat → sound k (run_call c).
Proof.
  intros Hk. destruct c as [data|i key v|i chunk|i chunk]; cbn [run_call].
  - apply sound_of; [apply (keeps_run_call (CRef data))
                    | apply (holds_run_call (CRef data)) |].
    intros d _ _ H. cbn. by apply lookup_app_l_Some.
  - apply sound_of; [apply (keeps_run_call (CSet i key v))
                    | apply (holds_run_call (CSet i key v)) |].
    intros d _ _ H. cbn. by destruct (deref i d).
  - apply sound_ref_write.
  - by apply sound_ref_end.
Qed.

Lemma sound_calls k (l : list call) :
  k ≠ 0%nat → sound k (seq_all (map run_call l)).
Proof.
  intros Hk. apply sound_seq_all, Forall_map, Forall_true.
  intros c. by apply sound_run_call.
Qed.

Lemma seq_result a b d :
  snd (seq a b d) = None → ∃ d1, a d = (d1, None) ∧ seq a b d = b d1.
Proof.
  unfold seq. destruct (a d) as [d1 [e|]]; [done |]. intros _. by exists d1.
Qed.

(** When [end()] comes to its last statement the Info object it has
    allocated is still to be written: its slot is null. *)
Lemma end_prepare_leaves_pending info fonts outline d :
  good d → paged d → snd (end_prepare info fonts outline d) = None →
  ∃ k, _offsets (fst (end_prepare info fonts outline d)) !! k = Some Null.
Proof.
  intros Hg Hp Hn. unfold end_prepare in *.
  destruct (seq_result _ _ _ Hn) as (d1 & E1 & E2). rewrite E2. clear Hn E2.
  pose proof (keeps_flushPages d Hg) as Hg1.
  pose proof (holds_flushPages d Hp) as Hp1.
  rewrite E1 in Hg1, Hp1. cbn [fst] in Hg1, Hp1. clear E1 Hg Hp d.
  set (k := length (_offsets d1)).
  assert (Hk : k ≠ 0%nat) by (pose proof (p_len d1 Hp1); unfold k; lia).
  assert (Hi : ∃ d2, good d2 ∧ paged d2 ∧ _offsets d2 !! k = Some Null ∧
    (let '(i, d) := ref None d1 in
     let d := with_info (Some i) d in
     let d := match deref i d with
              | Some r => update_ref (set_data (fill_info info) r) d
              | None => d
              end in
     ref_end i None d) = ref_end (S k) None d2).
  { pose proof (good_ref None d1 Hg1) as Hg2.
    pose proof (paged_ref None d1 Hp1) as Hp2.
    assert (Hs : _offsets (snd (ref None d1)) !! k = Some Null).
    { unfold ref. cbn. unfold k. by rewrite lookup_app_r, Nat.sub_diag. }
    assert (Hf : fst (ref None d1) = S k) by (unfold ref, k; cbn; lia).
    destruct (ref None d1) as [i d2]. cbn [fst snd] in *. subst i. cbv zeta.
    eexists. split; [| split; [| split; [| reflexivity]]].
    - destruct (deref (S k) (with_info (Some (S k)) d2)) as [r|] eqn:Hr;
        [| by apply good_with_info].
      destruct (g_heap _ (good_with_info _ _ Hg2) _ r Hr) as (Hid & Hgen & Hrange).
      apply good_update_ref; simpl; [by apply good_with_info | done | by rewrite Hid].
    - assert (H2 : paged (with_info (Some (S k)) d2))
        by (eapply paged_frame; [| | | exact Hp2]; done).
      destruct (deref (S k) (with_info (Some (S k)) d2)) as [r|] eqn:Hr; [| done].
      by apply (paged_put_back (S k) r).
    - by destruct (deref (S k) (with_info (Some (S k)) d2)). }
  destruct Hi as (d2 & Hg2 & Hp2 & Hs2 & Hinfo).
  assert (Hrest : sound k
    (seq (ref_end (S k) None)
    (seq (seq_all (map run_call fonts))
    (seq (seq_all (map run_call outline))
    (seq (fun d => ref_end (_root d) None d)
         (fun d => match Pages_of d with
                   | Some pages => ref_end (id pages) None d
                   | None => (d, Some TypeError)
                   end)))))).
  { apply sound_seq; [by apply sound_ref_end |].
    apply sound_seq; [by apply sound_calls |].
    apply sound_seq; [by apply sound_calls |].
    apply sound_seq.
    - intros d Hg Hp. by apply sound_ref_end.
    - intros d Hg Hp. destruct (Pages_of d); [by apply sound_ref_end |].
      split; [done |]. split; [done |]. by intros H. }
  destruct (Hrest d2 Hg2 Hp2) as (_ & _ & Hs).
  exists k.
  match goal with |- context [seq ?a ?rest d1] =>
    assert (Heq : seq a rest d1 = seq (ref_end (S k) None) rest d2)
  end.
  { unfold seq at 1 3. cbv beta zeta. cbv zeta in Hinfo. by rewrite Hinfo. }
  rewrite Heq. by apply Hs.
Qed.

(** As long as no object is finalized twice, [end()] itself never calls
    [_finalize]. *)
Definition by_refEnd (d : PDFDocument) : Prop :=
  fresh (log d) → ∀ m, m ∈ log d → ¬ from_end m.

Lemma by_refEnd_ext d d' : ext d d' → by_refEnd d → by_refEnd d'.
Proof.
  intros (more & Hl & Hm) H Hfr m Hin. rewrite Hl in Hfr, Hin.
  apply elem_of_app in Hin as [Hin|Hin].
  - by apply (H (fresh_app _ _ Hfr)).
  - by apply (proj1 (Forall_forall _ _) Hm).
Qed.

Lemma null_counted (l : list slot) (k : nat) :
  l !! k = Some Null → (0 < length (filter (fun s => s = Null) l))%nat.
Proof.
  intros H. apply list_elem_of_lookup_2 in H.
  assert (Hin : Null ∈ filter (fun s => s = Null) l)
    by (by apply list_elem_of_filter).
  destruct (filter _ l); [by apply elem_of_nil in Hin | simpl; lia].
Qed.

Lemma by_refEnd_doc_end info fonts outline d :
  good d → paged d → by_refEnd d → by_refEnd (fst (doc_end info fonts outline d)).
Proof.
  intros Hg Hp H. unfold doc_end, seq.
  pose proof (quiet_end_prepare info fonts outline d) as (_ & _ & _ & _ & Hx).
  pose proof (keeps_end_prepare info fonts outline d Hg) as Hg1.
  pose proof (end_prepare_leaves_pending info fonts outline d Hg Hp) as Hk.
  destruct (end_prepare info fonts outline d) as [d1 [e|]]; cbn [fst snd] in *;
    [by apply (by_refEnd_ext d) |].
  destruct (Hk eq_refl) as [k Hnull].
  pose proof (by_refEnd_ext d d1 Hx H) as H1.
  unfold end_decides. destruct (_waiting d1 =? 0) eqn:Ew; [| exact H1].
  apply Z.eqb_eq in Ew. intros Hfr. exfalso.
  rewrite finalize_log in Hfr. apply fresh_app in Hfr.
  destruct (g_wait d1 Hg1 Hfr) as [Hn _].
  pose proof (null_counted _ _ Hnull). lia.
Qed.

Section WithDeflate.
Variable deflateSync : string → string.

Lemma by_refEnd_step e d :
  good d → paged d → by_refEnd d → by_refEnd (step deflateSync d e).
Proof.
  intros Hg Hp H. destruct (decide (is_End e)) as [He|He].
  - destruct e; try done. by apply by_refEnd_doc_end.
  - destruct (calm_step deflateSync d e He) as (_ & _ & _ & _ & Hx).
    by apply (by_refEnd_ext d).
Qed.

Lemma by_refEnd_run tr d :
  good d → paged d → by_refEnd d → by_refEnd (run deflateSync tr d).
Proof.
  revert d. induction tr as [|e tr IH]; intros d Hg Hp H; [done |].
  apply IH; [by apply good_step | by apply holds_perform | by apply by_refEnd_step].
Qed.

Lemma by_refEnd_reachable c b tr :
  by_refEnd (run deflateSync tr (new_PDFDocument c b)).
Proof.
  apply by_refEnd_run; [apply good_new | apply paged_new |].
  intros _ m Hin. by destruct c, b; apply elem_of_nil in Hin.
Qed.

End WithDeflate.

(** C2, the counterexample: the outline object is ended twice, so that its
    two timers bring [_waiting] down by two; after [end()] the timer of the
    Info object brings it to zero, and [_finalize] runs although the
    catalog, object 2, is allocated and ended but not written yet: its slot
    of [_offsets] is null, it has no offset, and its timer is still to
    come. *)
Lemma finalize_with_object_pending :
  let d := run deflate_stored ended_twice (new_PDFDocument false false) in
  end_calls ended_twice = 1%nat ∧
  log d = [RefEnd 3 (Some Null); RefEnd 3 (Some (Offset 15));
           RefEnd 1 (Some Null); RefEnd 4 (Some Null);
           Finalize FromRefEnd 0 true
             [Offset 57; Null; Offset 36; Offset 109]] ∧
  (offset <$> deref 2 d) = Some Undefined ∧ timers d = [2%nat] ∧
  eofs d = 1%nat.
Proof. by vm_compute. Qed.

(** C2, as amended.  Along every run, every call of [_finalize] came after a
    call of [end()] and found the counter [_waiting] at zero; it was made
    by [end()] itself or by a [_refEnd] that found [_ended] set.  As long
    as no object is finalized twice the counter is the number of objects
    allocated and not yet finalized, every object was finalized when
    [_finalize] was called, and the call was made by [_refEnd], [end()]
    having allocated the Info object.  Both orders occur: in the first run
    [end()] sets [_ended] and the last [_refEnd] calls [_finalize]; when
    [end()] is called again in it, [end()] finds the counter at zero and
    calls [_finalize] itself. *)
Theorem finalize_needs_end_and_counter_zero (deflateSync : string → string)
    (c b : bool) (tr : list event) :
  let d := run deflateSync tr (new_PDFDocument c b) in
  (∀ s w e offs, Finalize s w e offs ∈ log d →
     (0 < end_calls tr)%nat ∧ w = 0 ∧ (s = FromRefEnd → e = true) ∧
     (fresh (log d) → s = FromRefEnd ∧ Forall is_Offset offs)) ∧
  (fresh (log d) →
   _waiting d = Z.of_nat (length (filter (fun s => s = Null) (_offsets d))) ∧
   Forall (fun s => s ≠ Undefined) (_offsets d)) ∧
  Finalize FromRefEnd 0 true
    [Offset 15; Offset 407; Offset 386; Offset 243; Offset 176; Offset 72;
     Offset 346]
    ∈ log (run deflate_stored one_page (new_PDFDocument true false)) ∧
  Finalize FromEnd 0 false
    [Offset 691; Offset 407; Offset 386; Offset 243; Offset 176; Offset 72;
     Offset 346; Null]
    ∈ log (run deflate_stored ended_again (new_PDFDocument true false)).
Proof.
  intros d. pose proof (good_reachable deflateSync c b tr) as Hg. fold d in Hg.
  split; [| split; [| split]].
  - intros s w e offs Hin.
    destruct (g_fin d Hg s w e offs Hin) as (Hw & He & _ & Hfo).
    split; [| split; [done | split; [done |]]].
    + destruct (decide (end_calls tr = 0%nat)) as [E|E]; [| lia].
      destruct (calm_run deflateSync tr (new_PDFDocument c b) E) as (_ & Hc & _).
      destruct (initial_quiet c b) as (He0 & Hf0 & _).
      destruct (Hc He0) as (_ & Hf & _). fold d in Hf.
      pose proof (finalize_calls_pos (Finalize s w e offs) d I Hin). lia.
    + intros Hfr. split; [| by apply (Hfo Hfr)].
      pose proof (by_refEnd_reachable deflateSync c b tr Hfr _ Hin) as Hn.
      by destruct s; [destruct Hn |].
  - by apply (g_wait d Hg).
  - apply list_elem_of_In. vm_compute. tauto.
  - apply list_elem_of_In. vm_compute. tauto.
Qed.

Lemma finalize_needs_end_and_counter_zero_witness :
  let d := run deflate_stored one_page (new_PDFDocument true false) in
  Finalize FromRefEnd 0 true (_offsets d) ∈ log d ∧
  (0 < end_calls one_page)%nat ∧ Forall is_Offset (_offsets d).
Proof.
  intros d.
  assert (Hin : Finalize FromRefEnd 0 true (_offsets d) ∈ log d)
    by (apply list_elem_of_In; vm_compute; tauto).
  assert (Hfresh : fresh (log d))
    by (apply freshb_fresh; vm_compute; reflexivity).
  destruct (finalize_needs_end_and_counter_zero deflate_stored true false one_page)
    as (H & _).
  destruct (H _ _ _ _ Hin) as (Hend & _ & _ & Hfr).
  split; [exact Hin |]. split; [exact Hend |]. by apply Hfr.
Defined.

Lemma due_new c b : due (new_PDFDocument c b) = 0%nat.
Proof. by destruct c, b. Qed.

Lemma owed_new c b : owed (new_PDFDocument c b) = 0%nat.
Proof. by destruct c, b. Qed.

(** C10, the counterexample: when [end()] is called again on the document
    of the first run, the Pages object is finalized again at once, the
    counter is back at zero, and [_finalize] runs a second time. *)
Lemma finalize_again_after_second_end :
  let d := run deflate_stored ended_again (new_PDFDocument true false) in
  end_calls ended_again = 2%nat ∧ finalize_calls d = 2%nat ∧ eofs d = 2%nat.
Proof. by vm_compute. Qed.

(** C10, as amended.  Along every run of a document, which has fewer than
    10^21 objects, [_finalize] is entered at most once for each call of
    [end()], a set [_ended] counting as one call still to come: a call of
    [end()] either calls [_finalize] or sets [_ended], and the [_refEnd]
    that calls [_finalize] clears [_ended].  So with [end()] called at most
    once [_finalize] runs at most once.  The same holds of the ends of
    stream pushed. *)
Theorem finalize_once_per_end (deflateSync : string → string) (c b : bool)
    (tr : list event) :
  let d := run deflateSync tr (new_PDFDocument c b) in
  small d →
  (finalize_calls d + (if _ended d then 1 else 0) ≤ end_calls tr)%nat ∧
  (eofs d + (if _ended d then 1 else 0) ≤ end_calls tr)%nat ∧
  ((end_calls tr ≤ 1)%nat → (finalize_calls d ≤ 1)%nat ∧ (eofs d ≤ 1)%nat).
Proof.
  intros d Hs.
  pose proof (owed_run deflateSync tr (new_PDFDocument c b) Hs) as Ho.
  pose proof (due_run deflateSync tr (new_PDFDocument c b)) as Hd.
  rewrite (owed_new c b) in Ho. rewrite (due_new c b) in Hd.
  fold d in Ho, Hd. unfold owed, due, OrderFacts.flag in Ho, Hd.
  split; [lia |]. split; [lia |]. intros H1. lia.
Qed.

Lemma finalize_once_per_end_witness :
  let d := run deflate_stored one_page (new_PDFDocument true false) in
  small d ∧ end_calls one_page = 1%nat ∧ finalize_calls d = 1%nat ∧
  (finalize_calls d + (if _ended d then 1 else 0) ≤ end_calls one_page)%nat.
Proof.
  intros d.
  assert (Hs : small d) by (vm_compute; reflexivity).
  destruct (finalize_once_per_end deflate_stored true false one_page Hs)
    as (H & _).
  split; [exact Hs |]. split; [by vm_compute |]. split; [by vm_compute |].
  exact H.
Defined.

(** *** Streams *)

(** A reference of its own, 23 bytes written to it, [end()] on it, and
    its timer. *)
Definition one_stream : list event :=
  [Call (CRef None); Call (CWrite 4 (Buf "hello hello hello hello"));
   Call (CEnd 4 None); Fire 0].

Lemma pushed_refEnd r d : ∃ more, pushed (fst (_refEnd r d)) = pushed d ++ more.
Proof.
  unfold _refEnd. cbv zeta. set (d2 := with_store _ _ _).
  destruct ((_waiting d2 =? 0) && _ended d2);
    [| exists []; by rewrite app_nil_r].
  unfold seq. destruct (_finalize_spec FromRefEnd d2) as [[e ->]|[t ->]];
    cbn [fst pure]; eexists; simpl; [done |].
  by rewrite <- app_assoc.
Qed.

(** What the timer of a compressed stream pushes: the dictionary as it
    stands before the buffer is deflated, then the deflated buffer. *)
Lemma finalize_task_pushes (deflateSync : string → string) d i r dict :
  deref i d = Some r → buffer r ≠ [] → compress r = true →
  convert (VDict (data r)) = Ok dict →
  ∃ more,
    pushed (fst (finalize_task deflateSync i d)) =
    pushed d ++
    [Some (to_buffer (Str (obj_header r))); Some (to_buffer (Str dict));
     Some (to_buffer (Str "stream"));
     Some (deflateSync (JS.concat (buffer r)));
     Some (to_buffer (Str (nl +:+ "endstream")));
     Some (to_buffer (Str "endobj"))] ++ more.
Proof.
  intros Hr Hb Hc Hd. unfold finalize_task. rewrite Hr. cbv zeta.
  change (data (set_offset _ r)) with (data r). rewrite Hd.
  change (buffer (set_offset _ r)) with (buffer r).
  change (compress (set_offset _ r)) with (compress r). rewrite Hc.
  destruct (buffer r) as [|b0 bs] eqn:Eb; [done |].
  change (0 <? length (b0 :: bs))%nat with true. cbv iota beta.
  match goal with |- context [_refEnd ?r' ?d'] =>
    destruct (pushed_refEnd r' d') as [more ->] end.
  exists more. simpl. by rewrite <- !app_assoc.
Qed.

(** C3, where the code departs from it: whatever [deflateSync] is, the
    dictionary pushed for a compressed stream of 23 bytes declares
    [/Length 23], the length before compression; what follows [stream] is
    the deflated buffer; and [data.Length] becomes the compressed length
    only after the dictionary is out. *)
Theorem stream_length_declared_before_deflate (deflateSync : string → string) :
  let d := run deflateSync one_stream (new_PDFDocument true false) in
  drop 2 (pushed d) =
    [Some "4 0 obj
"; Some "<<
/Length 23
/Filter /FlateDecode
>>
"; Some "stream
"; Some (deflateSync "hello hello hello hello"); Some "
endstream
"; Some "endobj
"] ∧
  (data <$> deref 4 d) =
    Some [("Length",
           VNumber (inject_Z (JS.strlen (deflateSync "hello hello hello hello"))));
          ("Filter", VName "FlateDecode")].
Proof. split; reflexivity. Qed.

(** With the stored-block [deflateSync] the stream has 34 bytes. *)
Example stream_length_stored :
  JS.strlen (deflate_stored "hello hello hello hello") = 34.
Proof. reflexivity. Qed.

End StoreClaims.

(** ** The properties of the page buffer *)

Module PageClaims.
Import PDFObject Store StringFacts StoreFacts PageFacts.

(** C8.  For every page index [n], [switchToPage(n)] returns a page exactly
    when [n] lies in the window from [start] to [start + count], the end
    left out, that [bufferedPageRange()] reports; the page is the one at
    that place of the buffer and becomes the current page, the buffer
    staying as it is.  For every [n] outside the window the call throws the
    error whose message names [n] and the first and the last page of the
    window, and the document, its current page with it, is as before. *)
Theorem switchToPage_window (n : Z) (d : PDFDocument) :
  let start := fst (bufferedPageRange d) in
  let count := snd (bufferedPageRange d) in
  let d' := fst (switchToPage n d) in
  ((∃ pg, snd (switchToPage n d) = Ok pg) ↔ start ≤ n < start + count) ∧
  (∀ pg, snd (switchToPage n d) = Ok pg →
     _pageBuffer d !! Z.to_nat (n - start) = Some pg ∧ page d' = Some pg ∧
     bufferedPageRange d' = bufferedPageRange d) ∧
  (¬ (start ≤ n < start + count) →
   snd (switchToPage n d)
   = Throw (Error
       ("switchToPage(" +:+ pretty n +:+
        ") out of bounds, current buffer covers pages " +:+
        pretty start +:+ " to " +:+ pretty (start + count - 1))) ∧
   d' = d ∧ page d' = page d).
Proof.
  cbv zeta. unfold bufferedPageRange at 1 2 3 4 5 6 7 8 9. cbn [fst snd].
  destruct (decide (_pageBufferStart d ≤ n
              < _pageBufferStart d + Z.of_nat (length (_pageBuffer d))))
    as [Hin|Hout].
  - destruct (switch_ok n d Hin) as (pg & Hpg & E). rewrite E. cbn [fst snd].
    split; [| split].
    + split; [done |]. intros _. by exists pg.
    + intros pg' [= <-]. by repeat split.
    + done.
  - rewrite (switch_out n d Hout). cbn [fst snd].
    split; [| split].
    + split; [by intros [pg Hpg] | done].
    + by intros pg.
    + by intros _.
Qed.

(** Two pages in the buffer: page 1 is there, page 2 is not. *)
Example switchToPage_window_two :
  let d := run deflate_stored two_buffered (new_PDFDocument false true) in
  bufferedPageRange d = (0, 2) ∧
  snd (switchToPage 1 d) = Ok (mkPage 7 8 9) ∧
  snd (switchToPage 2 d)
  = Throw (Error "switchToPage(2) out of bounds, current buffer covers pages 0 to 1").
Proof. by vm_compute. Qed.

End PageClaims.

(** ** The properties of the line wrapper *)

Module WrapClaims.
Import Num WrapFacts.



Section Break.
(** [this.wordWidth], [this.lineWidth] and [this.ellipsis], as in the
    section on the ellipsis. *)
Variable wordWidth : list N → number.
Variable lineWidth : number.
Variable setting : ellipsis_option.



End Break.



End WrapClaims.
